(** * The type checker of the Scribble annotation language

    A shallow embedding of the type checker and name resolver of the
    annotation language ([tc] and the rules it dispatches to, the ingestion
    of host types, specialization and despecialization) and of the
    construction of binary expressions by the parser, and the properties of
    them that the specification states or the code shows.

    Conventions of the embedding.
    - The host AST (solc-typed-ast) is a set of records. References between
      its nodes ([vReferencedDeclaration], [vScope], [parent], the linearized
      bases) are node ids, resolved by [locate], as in the library.
    - Annotation nodes carry their numeric [id]. The type map
      ([Map<SNode, SType>]) and the [defSite] field of identifiers are finite
      maps keyed by that id.
    - A function set is a mutable object that several cache entries can
      share: [SFunctionSetType] holds a reference into a store of function
      sets, which is part of the state of the checker.
    - An exception is an outcome [Err failure], returned with the state
      reached when it was thrown. Messages and source ranges of diagnostics
      and the debug log are left out.
    - [parseInt] returns the numbers a double holds: an integer rounded to
      53 significant bits, NaN or an infinity. The widths of integer and
      fixed-bytes types are integers: a digit group that [parseInt] reads as
      an infinity (more than 308 digits) is an internal error of the model.
      [trim] and [parseInt] remove ASCII white space.
    - The recursion of [tc] is not structural (an identifier bound by a
      [let] sends the checker to the right-hand side found in the context, a
      function set to its default argument): [tc] takes a bound on the depth
      of nested calls, and [OutOfFuel] is the outcome when it is reached. *)

From Stdlib Require Import ZArith List Lia Bool Ascii String.
From stdpp Require Import base option list gmap strings.

Set Warnings "-register-all".

Open Scope string_scope.
Open Scope list_scope.

(** ** Host AST (the part queried by the checker) *)

Inductive DataLocation := Storage | Memory | CallData | Default.

Inductive FunctionVisibility := External | Public | Internal | Private | VisDefault.

Inductive StateVariableVisibility := SVDefault | SVPrivate | SVInternal | SVPublic.

Inductive FunctionStateMutability := Pure | View | Constant | Payable | NonPayable.

Inductive LiteralKind := LKNumber | LKBool | LKString | LKHexString.

(** The length expression of an array type name: a literal or anything else. *)
Inductive Expression :=
| Literal (kind : LiteralKind) (value : string)
| OtherExpression.

Inductive TypeName :=
| ElementaryTypeName (name : string) (stateMutability : string)
| ArrayTypeName (vBaseType : TypeName) (vLength : option Expression)
| UserDefinedTypeName (referencedDeclaration : nat)
| FunctionTypeName (vParameterTypes vReturnParameterTypes : list VariableDeclaration)
    (visibility : FunctionVisibility) (stateMutability : FunctionStateMutability)
| Mapping (vKeyType vValueType : TypeName)
| OtherTypeName
with VariableDeclaration :=
| mkVariableDeclaration (id : nat) (name : string) (vType : option TypeName)
    (storageLocation : DataLocation) (scope : nat)
    (visibility : StateVariableVisibility) (parent : nat).

Definition vd_id (v : VariableDeclaration) : nat :=
  match v with mkVariableDeclaration i _ _ _ _ _ _ => i end.
Definition vd_name (v : VariableDeclaration) : string :=
  match v with mkVariableDeclaration _ n _ _ _ _ _ => n end.
Definition vd_vType (v : VariableDeclaration) : option TypeName :=
  match v with mkVariableDeclaration _ _ t _ _ _ _ => t end.
Definition vd_storageLocation (v : VariableDeclaration) : DataLocation :=
  match v with mkVariableDeclaration _ _ _ l _ _ _ => l end.
Definition vd_scope (v : VariableDeclaration) : nat :=
  match v with mkVariableDeclaration _ _ _ _ s _ _ => s end.
Definition vd_visibility (v : VariableDeclaration) : StateVariableVisibility :=
  match v with mkVariableDeclaration _ _ _ _ _ p _ => p end.
Definition vd_parent (v : VariableDeclaration) : nat :=
  match v with mkVariableDeclaration _ _ _ _ _ _ p => p end.

Record EnumDefinition := mkEnum {
  ed_id : nat;
  ed_name : string;
  ed_scope : nat;
  ed_vMembers : list string
}.

Record StructDefinition := mkStruct {
  sd_id : nat;
  sd_name : string;
  sd_scope : nat;
  sd_vMembers : list VariableDeclaration
}.

Record FunctionDefinition := mkFunction {
  fd_id : nat;
  fd_name : string;
  fd_scope : nat;
  fd_visibility : FunctionVisibility;
  fd_stateMutability : FunctionStateMutability;
  fd_vParameters : list VariableDeclaration;
  fd_vReturnParameters : list VariableDeclaration
}.

Record UsingForDirective := mkUsingFor {
  uf_vLibraryName : nat;
  uf_vTypeName : option TypeName
}.

Record ContractDefinition := mkContract {
  cd_id : nat;
  cd_name : string;
  cd_scope : nat;
  cd_linearizedBaseContracts : list nat;
  cd_vStateVariables : list VariableDeclaration;
  cd_vStructs : list StructDefinition;
  cd_vEnums : list EnumDefinition;
  cd_vFunctions : list FunctionDefinition;
  cd_vUsingForDirectives : list UsingForDirective
}.

Record SourceUnit := mkSourceUnit {
  su_vStructs : list StructDefinition;
  su_vEnums : list EnumDefinition;
  su_vContracts : list ContractDefinition
}.

(** What a node id can resolve to. *)
Inductive ASTNode :=
| NContract (c : ContractDefinition)
| NStruct (s : StructDefinition)
| NEnum (e : EnumDefinition)
| NFunction (f : FunctionDefinition)
| NSourceUnit
| NVariableDeclarationStatement
| NOther.

(** [StructDefinition | EnumDefinition | ContractDefinition] *)
Inductive UserDefinition :=
| DefStruct (s : StructDefinition)
| DefEnum (e : EnumDefinition)
| DefContract (c : ContractDefinition).

Definition ud_name (d : UserDefinition) : string :=
  match d with
  | DefStruct s => sd_name s
  | DefEnum e => ed_name e
  | DefContract c => cd_name c
  end.

Definition ud_scope (d : UserDefinition) : nat :=
  match d with
  | DefStruct s => sd_scope s
  | DefEnum e => ed_scope e
  | DefContract c => cd_scope c
  end.

Definition ud_id (d : UserDefinition) : nat :=
  match d with
  | DefStruct s => sd_id s
  | DefEnum e => ed_id e
  | DefContract c => cd_id c
  end.

(** ** Semantic types *)

(** A JavaScript number as produced by [parseInt]: an integer that a
    double holds (negative zero is not told from zero), NaN, or an
    infinity. *)
Inductive JSNumber := Num (z : Z) | NaN | Infinity (negative : bool).

(** [location] of a pointer is [None] when the source stored [undefined]
    there (a [location] property read from an object that has none). *)
Inductive SType :=
| SBoolType
| SAddressType (payable : bool)
| SIntType (nBits : Z) (signed : bool)
| SIntLiteralType
| SFixedBytes (size : Z)
| SBytes
| SString
| SStringLiteralType
| SArrayType (elementT : SType) (size : option JSNumber)
| SMappingType (keyType valueType : SType)
| SUserDefinedType (name : string) (definition : option UserDefinition)
| STupleType (elements : list SType)
| SPointer (to : SType) (location : option DataLocation)
| SFunctionType (parameters returns : list SType)
    (visibility : FunctionVisibility) (mutability : FunctionStateMutability)
| SBuiltinStructType (name : string) (members : list (string * SType))
| SBuiltinTypeNameType (type : SType)
| SUserDefinedTypeNameType (definition : UserDefinition)
| SFunctionSetType (ref : nat).

(** [type instanceof SPackedArrayType]: bytes and string. *)
Definition isPackedArray (t : SType) : bool :=
  match t with SBytes | SString => true | _ => false end.

(** ** Annotation AST

    Every node carries its [id]; type expressions ([SType] extends [SNode]
    in the source) appear as [STypeNode]. The left-hand side of a [let] is a
    list of identifiers, kept as (id, name) pairs. *)

Inductive SNode :=
| SNumber (id : nat) (num : Z)
| SBooleanLiteral (id : nat) (val : bool)
| SStringLiteral (id : nat) (val : string)
| SHexLiteral (id : nat) (val : string)
| SAddressLiteral (id : nat) (val : string)
| SId (id : nat) (name : string)
| SResult (id : nat)
| SUnaryOperation (id : nat) (op : string) (subexp : SNode)
| SBinaryOperation (id : nat) (left : SNode) (op : string) (right : SNode)
| SConditional (id : nat) (condition trueExp falseExp : SNode)
| SIndexAccess (id : nat) (base index : SNode)
| SMemberAccess (id : nat) (base : SNode) (member : string)
| SLet (id : nat) (lhs : list (nat * string)) (rhs in_ : SNode)
| SFunctionCall (id : nat) (callee : SNode) (args : list SNode)
| STypeNode (id : nat) (t : SType)
| SOtherNode (id : nat).

Definition nodeId (e : SNode) : nat :=
  match e with
  | SNumber i _ | SBooleanLiteral i _ | SStringLiteral i _ | SHexLiteral i _
  | SAddressLiteral i _ | SId i _ | SResult i | SUnaryOperation i _ _
  | SBinaryOperation i _ _ _ | SConditional i _ _ _ | SIndexAccess i _ _
  | SMemberAccess i _ _ | SLet i _ _ _ | SFunctionCall i _ _ | STypeNode i _
  | SOtherNode i => i
  end.

(** ** Failures *)

(** The subclasses of [STypeError] (messages are not modelled), then the two
    ways a run can stop that are not user diagnostics: a plain [Error] or
    failed assertion, and the model's recursion bound. *)
Inductive Failure :=
| SNoField (expr : SNode) (field : string)
| SWrongType (expr : SNode) (actualT : SType)
| SUnknownId (id : SNode)
| SMissingSolidityType (expr : SNode)
| SExprCountMismatch (expr : SNode)
| SUnresolvedFun (call : SNode)
| SFunNoReturn (call : SNode)
| SArgumentMismatch (call : SNode)
| IncompatibleTypes (exprA : SNode) (typeA : SType) (exprB : SNode) (typeB : SType)
| SInvalidKeyword (node : SNode)
| InternalError (msg : string)
| OutOfFuel.


Inductive Result (A : Type) :=
| Ok (a : A)
| Err (f : Failure).
Arguments Ok {A}.
Arguments Err {A}.

Definition rbind {A B} (r : Result A) (k : A -> Result B) : Result B :=
  match r with
  | Ok a => k a
  | Err f => Err f
  end.

Definition rmapM {A B} (f : A -> Result B) : list A -> Result (list B) :=
  fix go (l : list A) : Result (list B) :=
    match l with
    | [] => Ok []
    | x :: xs => rbind (f x) (fun y => rbind (go xs) (fun ys => Ok (y :: ys)))
    end.

(** ** Strings: the regular expressions of the source, written out *)

Definition isDigit (c : ascii) : bool :=
  (48 <=? nat_of_ascii c)%nat && (nat_of_ascii c <=? 57)%nat.

Definition isSpace (c : ascii) : bool := Ascii.eqb c " ".

(** White space removed by [String.prototype.trim] (ASCII part). *)
Definition isWhiteSpace (c : ascii) : bool :=
  let n := nat_of_ascii c in
  (n =? 32)%nat || ((9 <=? n)%nat && (n <=? 13)%nat).

Fixpoint allDigits (s : string) : bool :=
  match s with
  | EmptyString => true
  | String c r => isDigit c && allDigits r
  end.

Fixpoint stripPrefix (p s : string) : option string :=
  match p with
  | EmptyString => Some s
  | String a p' =>
      match s with
      | String b s' => if Ascii.eqb a b then stripPrefix p' s' else None
      | EmptyString => None
      end
  end.

(** The greedy run of spaces of the address and literal expressions. *)
Fixpoint dropSpaces (s : string) : string :=
  match s with
  | String c r => if isSpace c then dropSpaces r else s
  | EmptyString => s
  end.

Fixpoint trimStart (s : string) : string :=
  match s with
  | String c r => if isWhiteSpace c then trimStart r else s
  | EmptyString => s
  end.

Fixpoint revString (acc s : string) : string :=
  match s with
  | EmptyString => acc
  | String c r => revString (String c acc) r
  end.

Definition trim (s : string) : string :=
  revString "" (trimStart (revString "" (trimStart s))).

Definition digitValue (c : ascii) : Z := Z.of_nat (nat_of_ascii c) - 48.

Fixpoint parseDigits (acc : Z) (s : string) : Z :=
  match s with
  | String c r => if isDigit c then parseDigits (10 * acc + digitValue c) r else acc
  | EmptyString => acc
  end.

Definition isHexDigit (c : ascii) : bool :=
  let n := nat_of_ascii c in
  isDigit c || ((97 <=? n)%nat && (n <=? 102)%nat) || ((65 <=? n)%nat && (n <=? 70)%nat).

Definition hexDigitValue (c : ascii) : Z :=
  let n := Z.of_nat (nat_of_ascii c) in
  if isDigit c then n - 48 else if (97 <=? n)%Z then n - 87 else n - 55.

Fixpoint parseHexDigits (acc : Z) (s : string) : Z :=
  match s with
  | String c r => if isHexDigit c then parseHexDigits (16 * acc + hexDigitValue c) r else acc
  | EmptyString => acc
  end.

Definition startsWith (f : ascii -> bool) (s : string) : bool :=
  match s with
  | String c _ => f c
  | EmptyString => false
  end.

(** The natural number [a] kept to the 53 significant bits of a double:
    rounded to the nearest such number, to the one with an even last bit
    when it lies half way. *)
Definition roundToDouble (a : Z) : Z :=
  let bits := (Z.log2 a + 1)%Z in
  if (bits <=? 53)%Z then a
  else
    let shift := (bits - 53)%Z in
    let q := Z.shiftr a shift in
    let r := (a - Z.shiftl q shift)%Z in
    let half := Z.shiftl 1 (shift - 1) in
    let q' := if (half <? r)%Z || ((r =? half)%Z && Z.odd q) then (q + 1)%Z else q in
    Z.shiftl q' shift.

(** The Number value of the integer with the given sign and magnitude: an
    infinity from [2 ^ 1024] on. *)
Definition toNumber (negative : bool) (mathInt : Z) : JSNumber :=
  let r := roundToDouble mathInt in
  if (Z.shiftl 1 1024 <=? r)%Z then Infinity negative
  else Num (if negative then (- r)%Z else r).

(** [parseInt(s)], without a radix: leading white space is skipped (its
    ASCII part), then a sign, then the prefix [0x] or [0X], which makes the
    radix 16; the longest run of digits of the radix is read, NaN when there
    is none, and the result is the double nearest to the integer read. *)
Definition parseInt (s : string) : JSNumber :=
  let trimmed := trimStart s in
  let negative := startsWith (Ascii.eqb "-") trimmed in
  let unsigned :=
    match trimmed with
    | String c r => if Ascii.eqb c "-" || Ascii.eqb c "+" then r else trimmed
    | EmptyString => trimmed
    end in
  match (match stripPrefix "0x" unsigned with
         | Some hex => Some hex
         | None => stripPrefix "0X" unsigned
         end) with
  | Some hex =>
      if startsWith isHexDigit hex then toNumber negative (parseHexDigits 0 hex) else NaN
  | None =>
      if startsWith isDigit unsigned then toNumber negative (parseDigits 0 unsigned)
      else NaN
  end.

(** The address expressions of ingestion and of the detector table (the
    word address, any number of spaces, an optional group payable, anchored
    at both ends) accept the same names. The result is the optional group:
    [None] when it did not take part in the match (JavaScript's
    [undefined]). *)
Definition matchAddressRE (name : string) : option (option string) :=
  match stripPrefix "address" name with
  | None => None
  | Some r =>
      let r' := dropSpaces r in
      if String.eqb r' "" then Some None
      else if String.eqb r' "payable" then Some (Some "payable")
      else None
  end.

(** Ingestion's literal expression: int_const, spaces, a group of digits. *)
Definition matchIntLiteralRE (name : string) : option string :=
  match stripPrefix "int_const" name with
  | None => None
  | Some r => let d := dropSpaces r in if allDigits d then Some d else None
  end.

(** Ingestion's integer expression: a group that is u or empty, int, a
    group of any number of digits. *)
Definition matchIntTypeRE (name : string) : option (string * string) :=
  match stripPrefix "uint" name with
  | Some d => if allDigits d then Some ("u", d) else None
  | None =>
      match stripPrefix "int" name with
      | Some d => if allDigits d then Some ("", d) else None
      | None => None
      end
  end.

(** Ingestion's fixed-bytes expression: bytes, a group of one or more digits. *)
Definition matchBytesRE (name : string) : option string :=
  match stripPrefix "bytes" name with
  | Some d => if allDigits d && negb (String.eqb d "") then Some d else None
  | None => None
  end.

(** The detector's bytes expression: bytes, a group of at most two digits. *)
Definition matchDetectBytesRE (name : string) : option string :=
  match stripPrefix "bytes" name with
  | Some d => if allDigits d && (String.length d <=? 2)%nat then Some d else None
  | None => None
  end.

(** The detector's integer expression: an optional group u ([None] when it
    did not take part in the match), int, a group of at most three digits. *)
Definition matchDetectIntRE (name : string) : option (option string * string) :=
  match stripPrefix "uint" name with
  | Some d =>
      if allDigits d && (String.length d <=? 3)%nat then Some (Some "u", d) else None
  | None =>
      match stripPrefix "int" name with
      | Some d =>
          if allDigits d && (String.length d <=? 3)%nat then Some (None, d) else None
      | None => None
      end
  end.

(** [g !== s] for a match group [g]. *)
Definition groupNotEq (g : option string) (s : string) : bool :=
  match g with
  | Some x => negb (String.eqb x s)
  | None => true
  end.

(** ** Specialization and despecialization *)

Fixpoint specializeType (type : SType) (toLocation : DataLocation) : Result SType :=
  match type with
  | SPointer _ _ => Err (InternalError "Unexpected pointer type in concretization.")
  | STupleType _ => Err (InternalError "Unexpected tuple type in concretization.")
  | SBytes | SString => Ok (SPointer type (Some toLocation))
  | SArrayType elementT size =>
      rbind (specializeType elementT toLocation) (fun concreteElT =>
      Ok (SPointer (SArrayType concreteElT size) (Some toLocation)))
  | SUserDefinedType _ def =>
      match def with
      | None => Err (InternalError "Can't concretize user defined type with no corresponding definition.")
      | Some (DefContract _) => Ok (SPointer type (Some Storage))
      | Some (DefStruct _) => Ok (SPointer type (Some toLocation))
      | Some (DefEnum _) => Ok type
      end
  | SMappingType keyType valueType =>
      rbind (specializeType keyType Memory) (fun concreteKeyT =>
      rbind (specializeType valueType Storage) (fun concreteValueT =>
      Ok (SPointer (SMappingType concreteKeyT concreteValueT) (Some Storage))))
  | _ => Ok type
  end.

Fixpoint despecializeType (type : SType) : SType :=
  match type with
  | SPointer to _ => to
  | SArrayType elementT size => SArrayType (despecializeType elementT) size
  | SMappingType keyType valueType =>
      SMappingType (despecializeType keyType) (despecializeType valueType)
  | _ => type
  end.

(** ** Checker state *)

(** A [let] node, as it is pushed on the typing context and recorded in a
    def-site. *)
Record SLetNode := mkLet {
  let_id : nat;
  let_lhs : list (nat * string);
  let_rhs : SNode;
  let_in : SNode
}.

Definition letToNode (l : SLetNode) : SNode :=
  SLet (let_id l) (let_lhs l) (let_rhs l) (let_in l).

(** [SScope = SourceUnit[] | ContractDefinition | FunctionDefinition | SLet] *)
Inductive SScope :=
| ScopeUnits (units : list SourceUnit)
| ScopeContract (c : ContractDefinition)
| ScopeFunction (f : FunctionDefinition)
| ScopeLet (l : SLetNode).

(** Outermost scope first, as in the source: [ctx[0]] is the global scope. *)
Abbreviation STypingCtx := (list SScope).

(** [VarDefSite = VariableDeclaration | [SLet, number]] *)
Inductive VarDefSite :=
| VarDecl (v : VariableDeclaration)
| LetBinding (scope : SLetNode) (bindingIdx : nat).

Inductive DefSite :=
| DSVar (def : VarDefSite)
| DSFunctionName
| DSTypeName
| DSThis.

Inductive FunSetDef :=
| FSFun (f : FunctionDefinition)
| FSVar (v : VariableDeclaration).

Definition fsd_id (d : FunSetDef) : nat :=
  match d with
  | FSFun f => fd_id f
  | FSVar v => vd_id v
  end.

(** The object behind a [SFunctionSetType]: [definitions] is reassigned by
    the call rule, [defaultArg] is read-only. *)
Record FunctionSet := mkFunctionSet {
  definitions : list FunSetDef;
  defaultArg : option SNode
}.

Record TcState := mkState {
  typeMap : gmap nat SType;
  funSets : gmap nat FunctionSet;
  defSites : gmap nat DefSite
}.

(** ** Structural equality *)

Module struct_equality.

Definition eqList {A} (f : A -> A -> bool) : list A -> list A -> bool :=
  fix go (l1 l2 : list A) : bool :=
    match l1, l2 with
    | [], [] => true
    | x :: xs, y :: ys => f x y && go xs ys
    | _, _ => false
    end.

Definition eqLocation (a b : DataLocation) : bool :=
  match a, b with
  | Storage, Storage | Memory, Memory | CallData, CallData | Default, Default => true
  | _, _ => false
  end.

Definition eqOption {A} (f : A -> A -> bool) (a b : option A) : bool :=
  match a, b with
  | None, None => true
  | Some x, Some y => f x y
  | _, _ => false
  end.

(** Strict equality of numbers: NaN differs from every number. *)
Definition eqNumber (a b : JSNumber) : bool :=
  match a, b with
  | Num x, Num y => Z.eqb x y
  | Infinity x, Infinity y => Bool.eqb x y
  | _, _ => false
  end.

Definition eqVisibility (a b : FunctionVisibility) : bool :=
  match a, b with
  | External, External | Public, Public | Internal, Internal
  | Private, Private | VisDefault, VisDefault => true
  | _, _ => false
  end.

Definition eqMutability (a b : FunctionStateMutability) : bool :=
  match a, b with
  | Pure, Pure | View, View | Constant, Constant
  | Payable, Payable | NonPayable, NonPayable => true
  | _, _ => false
  end.

(** Modelled from the spec: the module struct_equality is not among the
    sources. Structural equality walks both trees, comparing variant tag and
    parameters; for UserDefined variants the qualified names are compared.
    A function set is compared through the declarations it holds. *)
Fixpoint eq (fs : gmap nat FunctionSet) (a b : SType) {struct a} : bool :=
  match a, b with
  | SBoolType, SBoolType => true
  | SAddressType p, SAddressType q => Bool.eqb p q
  | SIntType n s, SIntType m r => Z.eqb n m && Bool.eqb s r
  | SIntLiteralType, SIntLiteralType => true
  | SFixedBytes n, SFixedBytes m => Z.eqb n m
  | SBytes, SBytes => true
  | SString, SString => true
  | SStringLiteralType, SStringLiteralType => true
  | SArrayType e s, SArrayType e' s' => eq fs e e' && eqOption eqNumber s s'
  | SMappingType k v, SMappingType k' v' => eq fs k k' && eq fs v v'
  | SUserDefinedType n _, SUserDefinedType n' _ => String.eqb n n'
  | STupleType els, STupleType els' =>
      (fix go (l1 : list SType) (l2 : list SType) : bool :=
         match l1, l2 with
         | [], [] => true
         | x :: xs, y :: ys => eq fs x y && go xs ys
         | _, _ => false
         end) els els'
  | SPointer t l, SPointer t' l' => eq fs t t' && eqOption eqLocation l l'
  | SFunctionType ps rs v m, SFunctionType ps' rs' v' m' =>
      (fix go (l1 : list SType) (l2 : list SType) : bool :=
         match l1, l2 with
         | [], [] => true
         | x :: xs, y :: ys => eq fs x y && go xs ys
         | _, _ => false
         end) ps ps'
      && (fix go (l1 : list SType) (l2 : list SType) : bool :=
         match l1, l2 with
         | [], [] => true
         | x :: xs, y :: ys => eq fs x y && go xs ys
         | _, _ => false
         end) rs rs'
      && eqVisibility v v' && eqMutability m m'
  | SBuiltinStructType n ms, SBuiltinStructType n' ms' =>
      String.eqb n n'
      && (fix go (l1 : list (string * SType)) (l2 : list (string * SType)) : bool :=
         match l1, l2 with
         | [], [] => true
         | (k, x) :: xs, (k', y) :: ys => String.eqb k k' && eq fs x y && go xs ys
         | _, _ => false
         end) ms ms'
  | SBuiltinTypeNameType t, SBuiltinTypeNameType t' => eq fs t t'
  | SUserDefinedTypeNameType d, SUserDefinedTypeNameType d' => Nat.eqb (ud_id d) (ud_id d')
  | SFunctionSetType r, SFunctionSetType r' =>
      Nat.eqb r r'
      || match fs !! r, fs !! r' with
         | Some f, Some f' =>
             eqList Nat.eqb (map fsd_id (definitions f)) (map fsd_id (definitions f'))
         | _, _ => false
         end
  | _, _ => false
  end.

End struct_equality.

(** ** Host type ingestion *)

(** What the checker consumes from its collaborators: the resolved symbol
    table of the host AST ([locate]), the builtins registry
    ([BuiltinSymbols.get] and [BuiltinAddressMembers.get]) and the host AST
    library's [resolveByName(contract, FunctionDefinition, name, false)]. *)
Class Host := {
  locate : nat -> ASTNode;
  BuiltinSymbols : string -> option SType;
  BuiltinAddressMembers : string -> option SType;
  resolveByName : ContractDefinition -> string -> list FunctionDefinition
}.

Section Checker.

Context {host : Host}.

Definition getUserDefinedTypeFQName (def : UserDefinition) : string :=
  match locate (ud_scope def) with
  | NContract c => cd_name c +:+ "." +:+ ud_name def
  | _ => ud_name def
  end.

Definition elementaryToSType (rawName stateMutability : string) : Result SType :=
  let name := trim rawName in
  if String.eqb name "bool" then Ok SBoolType
  else if matchAddressRE name is Some _ then
    Ok (SAddressType (String.eqb stateMutability "payable"))
  else if matchIntLiteralRE name is Some _ then Ok SIntLiteralType
  else if matchIntTypeRE name is Some (u, bits) then
    let signed := negb (String.eqb u "u") in
    if String.eqb bits "" then Ok (SIntType 256 signed)
    else match parseInt bits with
         | Num nBits => Ok (SIntType nBits signed)
         | NaN | Infinity _ => Err (InternalError "parseInt of a digit group")
         end
  else
    let m := matchBytesRE name in
    if String.eqb name "byte" || bool_decide (is_Some m) then
      match m with
      | Some d =>
          match parseInt d with
          | Num size => Ok (SFixedBytes size)
          | NaN | Infinity _ => Err (InternalError "parseInt of a digit group")
          end
      | None => Ok (SFixedBytes 1)
      end
    else if String.eqb name "bytes" then Ok SBytes
    else if String.eqb name "string" then Ok SString
    else Err (InternalError "NYI converting elementary AST Type").

Definition getVarLocation (astV : VariableDeclaration) (baseLoc : option DataLocation)
  : Result DataLocation :=
  match vd_storageLocation astV with
  | Default =>
      match locate (vd_scope astV) with
      | NContract _ => Ok Storage
      | scope =>
          match baseLoc with
          | Some l => Ok l
          | None =>
              match scope with
              | NFunction f =>
                  match locate (vd_parent astV) with
                  | NVariableDeclarationStatement =>
                      Err (InternalError "Scribble shouldn't look at local vars")
                  | _ =>
                      Ok (match fd_visibility f with
                          | External => CallData
                          | _ => Memory
                          end)
                  end
              | _ => Err (InternalError "NYI variables with scope")
              end
          end
      end
  | l => Ok l
  end.

Fixpoint astTypeNameToSType (astT : TypeName) : Result SType :=
  match astT with
  | ElementaryTypeName name stateMutability => elementaryToSType name stateMutability
  | ArrayTypeName vBaseType vLength =>
      rbind (astTypeNameToSType vBaseType) (fun elT =>
      match vLength with
      | None => Ok (SArrayType elT None)
      | Some (Literal LKNumber value) => Ok (SArrayType elT (Some (parseInt value)))
      | Some _ => Err (InternalError "NYI non-literal array type sizes")
      end)
  | UserDefinedTypeName ref =>
      match locate ref with
      | NStruct s => Ok (SUserDefinedType (getUserDefinedTypeFQName (DefStruct s)) (Some (DefStruct s)))
      | NEnum e => Ok (SUserDefinedType (getUserDefinedTypeFQName (DefEnum e)) (Some (DefEnum e)))
      | NContract c => Ok (SUserDefinedType (getUserDefinedTypeFQName (DefContract c)) (Some (DefContract c)))
      | _ => Err (InternalError "NYI typecheckin of user-defined type")
      end
  | FunctionTypeName vParameterTypes vReturnParameterTypes visibility stateMutability =>
      rbind (rmapM (fun param => astVarToSType param None) vParameterTypes) (fun parameters =>
      rbind (rmapM (fun param => astVarToSType param None) vReturnParameterTypes) (fun returns =>
      Ok (SFunctionType parameters returns visibility stateMutability)))
  | Mapping vKeyType vValueType =>
      rbind (astTypeNameToSType vKeyType) (fun keyT =>
      rbind (astTypeNameToSType vValueType) (fun valueT =>
      Ok (SMappingType keyT valueT)))
  | OtherTypeName => Err (InternalError "NYI converting AST Type to SType")
  end
with astVarToSType (astV : VariableDeclaration) (baseLoc : option DataLocation)
  : Result SType :=
  match astV with
  | mkVariableDeclaration _ _ vType _ _ _ _ =>
      match vType with
      | None => Err (InternalError "Unsupported variable declaration without a type")
      | Some t =>
          rbind (astTypeNameToSType t) (fun type =>
          rbind (getVarLocation astV baseLoc) (fun loc =>
          specializeType type loc))
      end
  end.


(** ** The checker monad: state and exceptions *)

Definition M (A : Type) : Type := TcState -> Result A * TcState.

Definition ret {A} (a : A) : M A := fun st => (Ok a, st).

Definition throw {A} (f : Failure) : M A := fun st => (Err f, st).

Definition bind {A B} (m : M A) (k : A -> M B) : M B :=
  fun st =>
    match m st with
    | (Ok a, st') => k a st'
    | (Err f, st') => (Err f, st')
    end.

Notation "'let*' x ':=' c1 'in' c2" := (bind c1 (fun x => c2))
  (at level 10, x name, c1 at level 200, c2 at level 200).

Definition liftR {A} (r : Result A) : M A := fun st => (r, st).

Definition mapM {A B} (f : A -> M B) : list A -> M (list B) :=
  fix go (l : list A) : M (list B) :=
    match l with
    | [] => ret []
    | x :: xs => let* y := f x in let* ys := go xs in ret (y :: ys)
    end.

(** [typeMap.set(expr, type)] *)
Definition setType (expr : SNode) (type : SType) : M unit :=
  fun st =>
    (Ok tt, mkState (<[nodeId expr := type]> (typeMap st)) (funSets st) (defSites st)).

(** [expr.defSite = site] *)
Definition setDefSite (expr : SNode) (site : DefSite) : M unit :=
  fun st =>
    (Ok tt, mkState (typeMap st) (funSets st) (<[nodeId expr := site]> (defSites st))).

(** [new SFunctionSetType(defs, defaultArg)]: a fresh object. *)
Definition newFunctionSet (defs : list FunSetDef) (arg : option SNode) : M SType :=
  fun st =>
    let r := fresh (dom (funSets st)) in
    (Ok (SFunctionSetType r),
     mkState (typeMap st) (<[r := mkFunctionSet defs arg]> (funSets st)) (defSites st)).

(** Reading the fields of a function set. *)
Definition getFunctionSet (r : nat) : M FunctionSet :=
  fun st =>
    match funSets st !! r with
    | Some f => (Ok f, st)
    | None => (Err (InternalError "dangling function set"), st)
    end.

(** [calleeT.definitions = defs] *)
Definition setDefinitions (r : nat) (defs : list FunSetDef) : M unit :=
  fun st =>
    match funSets st !! r with
    | Some f =>
        (Ok tt,
         mkState (typeMap st) (<[r := mkFunctionSet defs (defaultArg f)]> (funSets st))
           (defSites st))
    | None => (Err (InternalError "dangling function set"), st)
    end.

Definition getFunSets : M (gmap nat FunctionSet) := fun st => (Ok (funSets st), st).

(** ** Scope and name resolution *)

Definition vLinearizedBaseContracts (c : ContractDefinition) : list ContractDefinition :=
  omap (fun i => match locate i with NContract b => Some b | _ => None end)
    (cd_linearizedBaseContracts c).

Definition findVar (name : string) (vars : list VariableDeclaration)
  : option VariableDeclaration :=
  find (fun v => String.eqb (vd_name v) name) vars.

Fixpoint findBinding (name : string) (lhs : list (nat * string)) (bindingIdx : nat)
  : option nat :=
  match lhs with
  | [] => None
  | binding :: rest =>
      if String.eqb (snd binding) name then Some bindingIdx
      else findBinding name rest (S bindingIdx)
  end.

(** One iteration of the loop of [lookupVarDef]: [Some r] when the
    iteration returns [r], [None] when the loop goes on. *)
Definition lookupVarDefStep (name : string) (scope : SScope)
  : option (option VarDefSite) :=
  match scope with
  | ScopeFunction f =>
      match findVar name (fd_vParameters f) with
      | Some param => Some (Some (VarDecl param))
      | None =>
          match findVar name (fd_vReturnParameters f) with
          | Some param => Some (Some (VarDecl param))
          | None => None
          end
      end
  | ScopeContract c =>
      match findVar name (flat_map cd_vStateVariables (vLinearizedBaseContracts c)) with
      | Some v => Some (Some (VarDecl v))
      | None => None
      end
  | ScopeUnits _ => Some None
  | ScopeLet l =>
      match findBinding name (let_lhs l) 0 with
      | Some bindingIdx => Some (Some (LetBinding l bindingIdx))
      | None => None
      end
  end.

(** The loop [for (let i = n - 1; i >= 0; i--)] over [ctx]. *)
Fixpoint lookupVarDefFrom (name : string) (ctx : STypingCtx) (n : nat)
  : option VarDefSite :=
  match n with
  | O => None
  | S i =>
      match ctx !! i with
      | Some scope =>
          match lookupVarDefStep name scope with
          | Some r => r
          | None => lookupVarDefFrom name ctx i
          end
      | None => lookupVarDefFrom name ctx i
      end
  end.

Definition lookupVarDef (name : string) (ctx : STypingCtx) : option VarDefSite :=
  lookupVarDefFrom name ctx (length ctx).

Definition findStructOrEnum (name : string) (structs : list StructDefinition)
  (enums : list EnumDefinition) : option UserDefinition :=
  find (fun def => String.eqb (ud_name def) name)
    (map DefStruct structs ++ map DefEnum enums).

Fixpoint findFirst {A B} (f : A -> option B) (l : list A) : option B :=
  match l with
  | [] => None
  | x :: xs => match f x with Some y => Some y | None => findFirst f xs end
  end.

(** One iteration of the loop of [resolveTypeDef]; [scope] is [None] when
    [ctx[i]] is [undefined]. *)
Definition resolveTypeDefStep (name : string) (scope : option SScope)
  : option UserDefinition :=
  match scope with
  | Some (ScopeContract c) =>
      findFirst (fun base => findStructOrEnum name (cd_vStructs base) (cd_vEnums base))
        (vLinearizedBaseContracts c)
  | Some (ScopeUnits units) =>
      match findFirst (fun su => findStructOrEnum name (su_vStructs su) (su_vEnums su))
              units with
      | Some def => Some def
      | None =>
          findFirst (fun su =>
              option_map DefContract
                (find (fun c => String.eqb (cd_name c) name) (su_vContracts su)))
            units
      end
  | _ => None
  end.

(** The loop [for (let i = n - 1; i >= 0; i--)]; the source starts it at
    [i = ctx.length]. *)
Fixpoint resolveTypeDefFrom (ctx : STypingCtx) (name : string) (n : nat)
  : option UserDefinition :=
  match n with
  | O => None
  | S i =>
      match resolveTypeDefStep name (ctx !! i) with
      | Some def => Some def
      | None => resolveTypeDefFrom ctx name i
      end
  end.

Definition resolveTypeDef (ctx : STypingCtx) (name : string) : option UserDefinition :=
  resolveTypeDefFrom ctx name (S (length ctx)).

(** [ctx[1] as ContractDefinition]. The source does not check the cast:
    the contexts the checker is given have the contract as their second
    scope. With no second scope the source fails on reading it; with
    another scope there, the rule for [this] of the source builds a pointer
    around that scope, which no type of the model holds, and the other uses
    fail on reading it. The model stops with an internal error in all these
    cases. *)
Definition ctxContract (ctx : STypingCtx) : Result ContractDefinition :=
  match ctx !! 1%nat with
  | Some (ScopeContract c) => Ok c
  | _ => Err (InternalError "ctx[1] is not a contract")
  end.

(** ** Builtin type names *)

(** [BuiltinTypeDetector.detect] for each entry of the table. *)
Definition detectBool (name : string) : option SType :=
  if String.eqb name "bool" then Some SBoolType else None.

Definition detectString (name : string) : option SType :=
  if String.eqb name "string" then Some SString else None.

Definition detectAddress (name : string) : option SType :=
  match matchAddressRE name with
  | Some payableGroup => Some (SAddressType (groupNotEq payableGroup ""))
  | None => None
  end.

Definition detectBytes (name : string) : option SType :=
  match matchDetectBytesRE name with
  | Some d =>
      if String.eqb d "" then Some SBytes
      else
        match parseInt d with
        | Num width =>
            if (width <? 1)%Z || (width >? 32)%Z then None else Some (SFixedBytes width)
        | NaN | Infinity _ => None
        end
  | None => None
  end.

Definition detectByte (name : string) : option SType :=
  if String.eqb name "byte" then Some (SFixedBytes 1) else None.

Definition detectInt (name : string) : option SType :=
  match matchDetectIntRE name with
  | Some (u, d) =>
      let isSigned := groupNotEq u "u" in
      if String.eqb d "" then Some (SIntType 256 isSigned)
      else
        match parseInt d with
        | Num width =>
            if negb (width mod 8 =? 0)%Z || (width <? 8)%Z || (width >? 256)%Z
            then None
            else Some (SIntType width isSigned)
        | NaN | Infinity _ => None
        end
  | None => None
  end.

Definition BuiltinTypeDetectors : list (string -> option SType) :=
  [detectBool; detectString; detectAddress; detectBytes; detectByte; detectInt].

Definition tcIdBuiltinType (name : string) : option SType :=
  option_map SBuiltinTypeNameType
    (findFirst (fun detector => detector name) BuiltinTypeDetectors).

Definition tcIdBuiltin (name : string) : option SType := BuiltinSymbols name.

(** ** The checker

    The functions below take the recursive call [tc] as a parameter; the
    knot is tied by [tc] at the end. *)

Import struct_equality.

Definition isInty (type : SType) : bool :=
  match type with
  | SIntType _ _ | SIntLiteralType => true
  | _ => false
  end.

Definition isIntyOrFixedBytes (type : SType) : bool :=
  match type with
  | SIntType _ _ | SIntLiteralType | SFixedBytes _ => true
  | _ => false
  end.

Definition isImplicitlyCastable (fs : gmap nat FunctionSet) (expr : SNode)
  (type to : SType) : bool :=
  if eq fs type to then true
  else
    match type, to with
    | SIntLiteralType, SIntType _ _ => true
    | SStringLiteralType, SPointer SBytes _ => true
    | SStringLiteralType, SPointer SString _ => true
    | SIntType nBits signed, SIntType nBits' signed' =>
        Bool.eqb signed signed' && (nBits <=? nBits')%Z
    | SAddressType _, SAddressType payable => negb payable
    | SPointer t _, SPointer t' _ => eq fs t t'
    | _, _ => false
    end.

Definition unifyTypes (exprA : SNode) (typeA : SType) (exprB : SNode) (typeB : SType)
  (commonParent : SNode) : M SType :=
  let* fs := getFunSets in
  if isImplicitlyCastable fs exprA typeA typeB then ret typeB
  else if isImplicitlyCastable fs exprB typeB typeA then ret typeA
  else throw (IncompatibleTypes exprA typeA exprB typeB).

Definition opIn (op : string) (ops : list string) : bool :=
  existsb (String.eqb op) ops.

Section Rules.

Variable tc : SNode -> STypingCtx -> M SType.

Definition tcIdVariable (expr : SNode) (name : string) (ctx : STypingCtx)
  : M (option SType) :=
  match lookupVarDef name ctx with
  | None => ret None
  | Some def =>
      let* _ := setDefSite expr (DSVar def) in
      match def with
      | VarDecl v =>
          match vd_vType v with
          | None => throw (SMissingSolidityType expr)
          | Some _ => let* t := liftR (astVarToSType v None) in ret (Some t)
          end
      | LetBinding letNode bindingIdx =>
          let* rhsT := tc (let_rhs letNode) ctx in
          if (1 <? length (let_lhs letNode))%nat then
            match rhsT with
            | STupleType elements =>
                if (length elements =? length (let_lhs letNode))%nat
                then ret (elements !! bindingIdx)
                else throw (SExprCountMismatch (letToNode letNode))
            | _ => throw (SExprCountMismatch (letToNode letNode))
            end
          else ret (Some rhsT)
      end
  end.

Definition tcId (expr : SNode) (name : string) (ctx : STypingCtx) : M SType :=
  if String.eqb name "this" then
    let* _ := setDefSite expr DSThis in
    let* contract := liftR (ctxContract ctx) in
    ret (SPointer
           (SUserDefinedType (getUserDefinedTypeFQName (DefContract contract))
              (Some (DefContract contract)))
           (Some Storage))
  else
    match tcIdBuiltinType name with
    | Some retT => ret retT
    | None =>
        let* retT := tcIdVariable expr name ctx in
        match retT with
        | Some t => ret t
        | None =>
            let* contract := liftR (ctxContract ctx) in
            let funDefs := resolveByName contract name in
            if (0 <? length funDefs)%nat then
              let* _ := setDefSite expr DSFunctionName in
              newFunctionSet (map FSFun funDefs) None
            else
              match resolveTypeDef ctx name with
              | Some userDef =>
                  let* _ := setDefSite expr DSTypeName in
                  ret (SUserDefinedTypeNameType userDef)
              | None =>
                  match tcIdBuiltin name with
                  | Some t => ret t
                  | None => throw (SUnknownId expr)
                  end
              end
        end
    end.

Definition tcResult (expr : SNode) (ctx : STypingCtx) : M SType :=
  match last ctx with
  | Some (ScopeFunction scope) =>
      match fd_vReturnParameters scope with
      | [] => throw (SInvalidKeyword expr)
      | [param] =>
          match vd_vType param with
          | None => throw (InternalError "Internal error: return vars should always have a type.")
          | Some retT => liftR (astTypeNameToSType retT)
          end
      | params =>
          let* elements :=
            liftR (rmapM (fun param =>
                            match vd_vType param with
                            | None => Err (InternalError "Internal error: return vars should always have a type.")
                            | Some t => astTypeNameToSType t
                            end) params) in
          ret (STupleType elements)
      end
  | _ => throw (SInvalidKeyword expr)
  end.

Definition tcUnary (expr : SNode) (op : string) (subexp : SNode) (ctx : STypingCtx)
  : M SType :=
  if String.eqb op "!" then
    let* innerT := tc subexp ctx in
    match innerT with
    | SBoolType => ret SBoolType
    | _ => throw (SWrongType subexp innerT)
    end
  else if String.eqb op "-" then
    let* innerT := tc subexp ctx in
    if isInty innerT then ret innerT else throw (SWrongType subexp innerT)
  else tc subexp ctx.

Definition tcBinary (expr left : SNode) (op : string) (right : SNode) (ctx : STypingCtx)
  : M SType :=
  let* lhsT := tc left ctx in
  let* rhsT := tc right ctx in
  if String.eqb op "**" then
    if negb (isInty rhsT)
       || match rhsT with SIntType _ signed => signed | _ => false end
       || match right with SNumber _ num => (num <? 0)%Z | _ => false end
    then throw (SWrongType right rhsT)
    else if negb (isInty lhsT) then throw (SWrongType left lhsT)
    else ret (match lhsT with SIntLiteralType => rhsT | _ => lhsT end)
  else if opIn op ["*"; "%"; "/"; "+"; "-"] then
    if negb (isInty lhsT) then throw (SWrongType left lhsT)
    else if negb (isInty rhsT) then throw (SWrongType right rhsT)
    else unifyTypes left lhsT right rhsT expr
  else if opIn op ["<<"; ">>"] then
    if negb (isIntyOrFixedBytes lhsT) then throw (SWrongType right lhsT)
    else if negb (isInty rhsT) then throw (SWrongType right rhsT)
    else ret (match lhsT with SIntLiteralType => rhsT | _ => lhsT end)
  else if opIn op ["<"; ">"; "<="; ">="] then
    if negb (isIntyOrFixedBytes lhsT) then throw (SWrongType right lhsT)
    else if negb (isIntyOrFixedBytes rhsT) then throw (SWrongType right rhsT)
    else let* _ := unifyTypes left lhsT right rhsT expr in ret SBoolType
  else if opIn op ["=="; "!="] then
    let* _ := unifyTypes left lhsT right rhsT expr in ret SBoolType
  else if opIn op ["|"; "&"; "^"] then
    if isIntyOrFixedBytes lhsT && isIntyOrFixedBytes rhsT
    then unifyTypes left lhsT right rhsT expr
    else throw (IncompatibleTypes left lhsT right rhsT)
  else if opIn op ["||"; "&&"; "==>"] then
    match lhsT, rhsT with
    | SBoolType, SBoolType => ret SBoolType
    | _, _ => throw (IncompatibleTypes left lhsT right rhsT)
    end
  else throw (InternalError "NYI typecheck for binary operator").

Definition tcConditional (expr condition trueExp falseExp : SNode) (ctx : STypingCtx)
  : M SType :=
  let* condT := tc condition ctx in
  let* trueT := tc trueExp ctx in
  let* falseT := tc falseExp ctx in
  match condT with
  | SBoolType => unifyTypes trueExp trueT falseExp falseT expr
  | _ => throw (SWrongType condition condT)
  end.

Definition tcIndexAccess (expr base index : SNode) (ctx : STypingCtx) : M SType :=
  let* baseT := tc base ctx in
  let* indexT := tc index ctx in
  match baseT with
  | SFixedBytes _ =>
      if isInty indexT then ret (SIntType 8 false) else throw (SWrongType index indexT)
  | SPointer SBytes _ =>
      if isInty indexT then ret (SIntType 8 false) else throw (SWrongType index indexT)
  | SPointer (SArrayType elementT _) _ =>
      if isInty indexT then ret elementT else throw (SWrongType index indexT)
  | SPointer (SMappingType keyType valueType) _ =>
      let* fs := getFunSets in
      if isImplicitlyCastable fs index indexT keyType then ret valueType
      else throw (SWrongType index indexT)
  | _ => throw (SWrongType expr baseT)
  end.

(** [Map.get] on the member table of a builtin struct. *)
Fixpoint getMember (member : string) (members : list (string * SType)) : option SType :=
  match members with
  | [] => None
  | (k, t) :: rest => if String.eqb k member then Some t else getMember member rest
  end.

(** [funs.add(funDef)] on a [Set<FunctionDefinition>]: insertion order, no
    second copy of the same declaration. *)
Definition setAdd (funs : list FunctionDefinition) (funDef : FunctionDefinition)
  : list FunctionDefinition :=
  if existsb (fun f => Nat.eqb (fd_id f) (fd_id funDef)) funs then funs
  else funs ++ [funDef].

(** The body of the loop over the [using for] directives of one base. *)
Definition usingForStep (fs : gmap nat FunctionSet) (member : string)
  (generalBaseT : SType) (funs : list FunctionDefinition) (usingFor : UsingForDirective)
  : Result (list FunctionDefinition) :=
  rbind (match uf_vTypeName usingFor with
         | None => Ok true
         | Some t => rbind (astTypeNameToSType t) (fun t' => Ok (eq fs t' generalBaseT))
         end) (fun libraryApplies =>
  if libraryApplies : bool then
    match locate (uf_vLibraryName usingFor) with
    | NContract library =>
        Ok (fold_left setAdd
              (List.filter (fun fn => String.eqb (fd_name fn) member) (cd_vFunctions library))
              funs)
    | _ => Err (InternalError "using-for library is not a contract")
    end
  else Ok funs).

Fixpoint rfoldl {A B} (f : A -> B -> Result A) (l : list B) (a : A) : Result A :=
  match l with
  | [] => Ok a
  | x :: xs => rbind (f a x) (rfoldl f xs)
  end.

(** The functions bound to [generalBaseT] by the [using for] directives of
    the bases of the current contract. *)
Definition usingForFunctions (fs : gmap nat FunctionSet) (ctx : STypingCtx)
  (member : string) (generalBaseT : SType) : Result (list FunctionDefinition) :=
  rbind (ctxContract ctx) (fun contract =>
  rfoldl (usingForStep fs member generalBaseT)
    (flat_map cd_vUsingForDirectives (vLinearizedBaseContracts contract)) []).

(** The end of [tcMemberAccess], reached when no rule above it returned or
    threw. *)
Definition tcMemberAccessUsingFor (base : SNode) (member : string) (baseT : SType)
  (ctx : STypingCtx) : M SType :=
  let generalBaseT := despecializeType baseT in
  let* fs := getFunSets in
  let* funs := liftR (usingForFunctions fs ctx member generalBaseT) in
  if (0 <? length funs)%nat then newFunctionSet (map FSFun funs) (Some base)
  else throw (SNoField base member).

Definition tcMemberAccess (expr base : SNode) (member : string) (ctx : STypingCtx)
  : M SType :=
  let* baseT := tc base ctx in
  match baseT with
  | SBuiltinStructType _ members =>
      match getMember member members with
      | Some type => ret type
      | None => throw (SNoField expr member)
      end
  | SPointer baseToT baseLoc =>
      match baseToT with
      | SArrayType _ _ =>
          if String.eqb member "length" then ret (SIntType 256 false)
          else tcMemberAccessUsingFor base member baseT ctx
      | SUserDefinedType _ (Some (DefStruct rawDef)) =>
          match find (fun rawDecl => String.eqb member (vd_name rawDecl)) (sd_vMembers rawDef) with
          | Some rawDecl => liftR (astVarToSType rawDecl baseLoc)
          | None => throw (SNoField expr member)
          end
      | SUserDefinedType _ (Some (DefContract rawDef)) =>
          let funDefs := resolveByName rawDef member in
          if (0 <? length funDefs)%nat then newFunctionSet (map FSFun funDefs) None
          else
            match find (fun varDecl =>
                          String.eqb member (vd_name varDecl)
                          && match vd_visibility varDecl with SVPublic => true | _ => false end)
                    (cd_vStateVariables rawDef) with
            | Some varDecl => newFunctionSet [FSVar varDecl] None
            | None =>
                match BuiltinAddressMembers member with
                | Some type => ret type
                | None => throw (SNoField expr member)
                end
            end
      | _ => tcMemberAccessUsingFor base member baseT ctx
      end
  | SAddressType _ =>
      match BuiltinAddressMembers member with
      | Some type => ret type
      | None => throw (SNoField expr member)
      end
  | SUserDefinedTypeNameType (DefContract definition) =>
      (* [ctx[0]] is [undefined] on an empty context; the loop of
         [resolveTypeDef] does nothing on it, as on no source units. *)
      match resolveTypeDef [default (ScopeUnits []) (ctx !! 0%nat); ScopeContract definition]
              member with
      | Some type => ret (SUserDefinedTypeNameType type)
      | None =>
          let funDefs := resolveByName definition member in
          if (0 <? length funDefs)%nat then newFunctionSet (map FSFun funDefs) None
          else tcMemberAccessUsingFor base member baseT ctx
      end
  | SUserDefinedTypeNameType (DefEnum rawDef) =>
      if existsb (fun enumVal => String.eqb enumVal member) (ed_vMembers rawDef)
      then ret (SUserDefinedType (getUserDefinedTypeFQName (DefEnum rawDef))
                  (Some (DefEnum rawDef)))
      else tcMemberAccessUsingFor base member baseT ctx
  | SFunctionSetType r =>
      if String.eqb member "selector" then
        let* funSet := getFunctionSet r in
        if (length (definitions funSet) =? 1)%nat then ret (SFixedBytes 4)
        else tcMemberAccessUsingFor base member baseT ctx
      else tcMemberAccessUsingFor base member baseT ctx
  | _ => tcMemberAccessUsingFor base member baseT ctx
  end.

Definition tcLet (expr : SNode) (l : SLetNode) (ctx : STypingCtx) : M SType :=
  let* rhsT := tc (let_rhs l) ctx in
  let* _ :=
    match rhsT with
    | STupleType elements =>
        if negb (length (let_lhs l) =? length elements)%nat
        then throw (SExprCountMismatch expr) else ret tt
    | _ =>
        if negb (length (let_lhs l) =? 1)%nat
        then throw (SExprCountMismatch expr) else ret tt
    end in
  tc (let_in l) (ctx ++ [ScopeLet l]).

Definition getFunDefType (fn : FunctionDefinition) : Result SType :=
  rbind (rmapM (fun param => astVarToSType param None) (fd_vParameters fn)) (fun parameters =>
  rbind (rmapM (fun param => astVarToSType param None) (fd_vReturnParameters fn)) (fun returns =>
  Ok (SFunctionType parameters returns (fd_visibility fn) (fd_stateMutability fn)))).

(** [FunctionDefinition | SFunctionType] *)
Inductive Callable :=
| CallableDef (fn : FunctionDefinition)
| CallableType (funT : SType).

Definition funParameters (funT : SType) : list SType :=
  match funT with
  | SFunctionType parameters _ _ _ => parameters
  | _ => []
  end.

(** The loop of [matchArguments] over formals and actuals of equal number. *)
Fixpoint matchFormals (fs : gmap nat FunctionSet) (arg : list SNode) (argTs : list SType)
  (formals : list SType) : bool :=
  match formals, argTs with
  | formalT :: formals', argT :: argTs' =>
      if isImplicitlyCastable fs (default (SOtherNode 0) (head arg)) argT formalT
      then matchFormals fs (tail arg) argTs' formals'
      else false
  | _, _ => true
  end.

Definition matchArguments (fs : gmap nat FunctionSet) (arg : list SNode)
  (argTs : list SType) (callable : Callable) : Result bool :=
  rbind (match callable with
         | CallableDef fn => getFunDefType fn
         | CallableType funT => Ok funT
         end) (fun funT =>
  if negb (length argTs =? length (funParameters funT))%nat then Ok false
  else Ok (matchFormals fs arg argTs (funParameters funT))).

Definition rfilter {A} (f : A -> Result bool) : list A -> Result (list A) :=
  fix go (l : list A) : Result (list A) :=
    match l with
    | [] => Ok []
    | x :: xs =>
        rbind (f x) (fun keep =>
        rbind (go xs) (fun ys => Ok (if keep : bool then x :: ys else ys)))
    end.

(** [(t as SPointer).location] *)
Definition locationOf (t : SType) : option DataLocation :=
  match t with
  | SPointer _ location => location
  | _ => None
  end.

(** The result of a call of type [retTs]. *)
Definition callResult (retTs : list SType) (expr : SNode) : M SType :=
  match retTs with
  | [] => throw (SFunNoReturn expr)
  | [t] => ret t
  | _ => ret (STupleType retTs)
  end.

(** [matchingFunDefs.concat(matchingVarDefs)] of the call rule: the
    functions of the set that [matchArguments] accepts for the arguments
    [args'] (the default argument included) of types [argTs], then the
    state variables of the set when the call is written with no argument. *)
Definition matchingDefinitions (fs : gmap nat FunctionSet) (args args' : list SNode)
  (argTs : list SType) (defs : list FunSetDef) : Result (list FunSetDef) :=
  rbind (rfilter (fun def =>
                    match def with
                    | FSFun fn => matchArguments fs args' argTs (CallableDef fn)
                    | FSVar _ => Ok false
                    end) defs) (fun matchingFunDefs =>
  let matchingVarDefs :=
    List.filter (fun def =>
                   match def with
                   | FSVar _ => (length args =? 0)%nat
                   | FSFun _ => false
                   end) defs in
  Ok (matchingFunDefs ++ matchingVarDefs)).

Definition tcFunctionCall (expr callee : SNode) (args : list SNode) (ctx : STypingCtx)
  : M SType :=
  let* calleeT := tc callee ctx in
  match calleeT with
  | SBuiltinTypeNameType type =>
      let* _ := mapM (fun arg => tc arg ctx) args in
      if negb (length args =? 1)%nat then throw (SExprCountMismatch expr)
      else ret type
  | SUserDefinedTypeNameType definition =>
      let* argTs := mapM (fun arg => tc arg ctx) args in
      let* loc :=
        match definition with
        | DefStruct _ => ret (Some Memory)
        | _ =>
            if negb (length argTs =? 1)%nat then throw (SExprCountMismatch expr)
            else
              match definition with
              | DefContract _ => ret (Some Storage)
              | _ => ret (locationOf (default SBoolType (head argTs)))
              end
        end in
      ret (SPointer
             (SUserDefinedType (getUserDefinedTypeFQName definition) (Some definition))
             loc)
  | SFunctionSetType r =>
      let* funSet := getFunctionSet r in
      let args' :=
        match defaultArg funSet with
        | Some arg => arg :: args
        | None => args
        end in
      let* argTs := mapM (fun arg => tc arg ctx) args' in
      let* funSet' := getFunctionSet r in
      let* fs := getFunSets in
      let* matchingDefs :=
        liftR (matchingDefinitions fs args args' argTs (definitions funSet')) in
      match matchingDefs with
      | [] => throw (SUnresolvedFun expr)
      | [def] =>
          let* _ := setDefinitions r [def] in
          match def with
          | FSFun fn =>
              let* retTs :=
                liftR (rmapM (fun param => astVarToSType param None)
                         (fd_vReturnParameters fn)) in
              callResult retTs expr
          | FSVar v =>
              match vd_vType v with
              | Some (UserDefinedTypeName _) =>
                  throw (InternalError "NYI public getters for user-defined types")
              | _ => liftR (astVarToSType v None)
              end
          end
      | _ => throw (InternalError "Multiple functions / public getters match callsite")
      end
  | SFunctionType _ returns _ _ =>
      let* argTs := mapM (fun arg => tc arg ctx) args in
      let* fs := getFunSets in
      let* ok := liftR (matchArguments fs args argTs (CallableType calleeT)) in
      if ok : bool then callResult returns expr
      else throw (SArgumentMismatch expr)
  | _ => throw (SWrongType callee calleeT)
  end.

(** The dispatch of [tc] on the class of [expr]. *)
Definition tcDispatch (expr : SNode) (ctx : STypingCtx) : M SType :=
  match expr with
  | SNumber _ _ => ret SIntLiteralType
  | SBooleanLiteral _ _ => ret SBoolType
  | SStringLiteral _ _ => ret SStringLiteralType
  | SHexLiteral _ _ => ret SStringLiteralType
  | SAddressLiteral _ _ => ret (SAddressType true)
  | SId _ name => tcId expr name ctx
  | SResult _ => tcResult expr ctx
  | SUnaryOperation _ op subexp => tcUnary expr op subexp ctx
  | SBinaryOperation _ left_ op right_ => tcBinary expr left_ op right_ ctx
  | SConditional _ condition trueExp falseExp =>
      tcConditional expr condition trueExp falseExp ctx
  | SIndexAccess _ base index => tcIndexAccess expr base index ctx
  | SMemberAccess _ base member => tcMemberAccess expr base member ctx
  | SLet id lhs rhs in_ => tcLet expr (mkLet id lhs rhs in_) ctx
  | SFunctionCall _ callee args => tcFunctionCall expr callee args ctx
  | STypeNode _ (SUserDefinedType _ definition) =>
      match definition with
      | Some def => ret (SUserDefinedTypeNameType def)
      | None => throw (InternalError "Type expression is missing def")
      end
  | STypeNode _ t => ret (SBuiltinTypeNameType t)
  | SOtherNode _ => throw (InternalError "NYI type-checking")
  end.

(** The body of [tc]: the cache lookup, the dispatch, and the cache update
    on normal completion. *)
Definition tcBody (expr : SNode) (ctx : STypingCtx) : M SType :=
  fun st =>
    match typeMap st !! nodeId expr with
    | Some type => (Ok type, st)
    | None =>
        (let* type := tcDispatch expr ctx in
         let* _ := setType expr type in
         ret type) st
    end.

End Rules.

(** [tc]: the recursion is bounded by [fuel], the depth of nested calls. *)
Fixpoint tc (fuel : nat) (expr : SNode) (ctx : STypingCtx) : M SType :=
  match fuel with
  | O => throw OutOfFuel
  | S n => tcBody (tc n) expr ctx
  end.

End Checker.

(** ** Node construction (ast/node.ts and the parser's helper)

    [nNodes] is the module-level counter of [node.ts]: the constructor of
    [SNode] gives the new node the current value as its [id] and increments
    the counter. A computation that constructs nodes takes the counter and
    returns it with its result. *)

Definition Alloc (A : Type) : Type := nat -> A * nat.

(** [new SBinaryOperation(left, op, right, src)] *)
Definition newSBinaryOperation (left : SNode) (op : string) (right : SNode) : Alloc SNode :=
  fun nNodes => (SBinaryOperation nNodes left op right, S nNodes).

(** An element of [tail], as the reducer destructures it:
    [[whiteSp, curOp, whiteSP, curVal]]. *)
Definition TailItem : Type := string * string * string * SNode.

Definition curOp (item : TailItem) : string :=
  match item with (_, op, _, _) => op end.

Definition curVal (item : TailItem) : SNode :=
  match item with (_, _, _, val) => val end.

(** [tail.reduce((acc, item) => new SBinaryOperation(acc, curOp, curVal, src), head)] *)
Definition buildBinaryExpression (head : SNode) (tail : list TailItem) : Alloc SNode :=
  fun nNodes =>
    fold_left
      (fun (acc : SNode * nat) (item : TailItem) =>
         newSBinaryOperation (fst acc) (curOp item) (curVal item) (snd acc))
      tail (head, nNodes).

(** ** A sample host program

    A cut of the contract the unit tests check against:
<<
    library Lib  { function ladd(uint32 a, uint32 b) public returns (uint32); }
    library Lib2 { function foo(int128 x) public returns (bool); }
    contract Foo {
      uint sV; bytes sBy; uint8[][] sNestedArr; SFoo sFoo; address sA;
      uint32 u32a; int128 sV1;
      using Lib for uint32;  using Lib2 for *;
      enum FooEnum { D, E, F }
      struct SFoo { uint x; }
      function add(int8 x, uint64 y) public returns (uint64 add);
      function getBytes() public returns (bytes memory);
      function idPair(uint x, uint y) public returns (uint, uint);
      function noReturn() public;
      function dup(uint8 a) public returns (uint8);
      function dup(uint16 a) public returns (uint16);
    }
>>
    Node ids: 0 is the source unit, 1 Foo, 2 Lib, 3 Lib2. *)

Module Sample.

Definition elem (name : string) : TypeName := ElementaryTypeName name "nonpayable".

Definition var (id : nat) (name : string) (t : TypeName) (loc : DataLocation)
  (scope : nat) : VariableDeclaration :=
  mkVariableDeclaration id name (Some t) loc scope SVInternal scope.

Definition ladd : FunctionDefinition :=
  mkFunction 50 "ladd" 2 Public NonPayable
    [var 51 "a" (elem "uint32") Default 50; var 52 "b" (elem "uint32") Default 50]
    [var 53 "" (elem "uint32") Default 50].

Definition Lib : ContractDefinition :=
  mkContract 2 "Lib" 0 [2] [] [] [] [ladd] [].

Definition foo : FunctionDefinition :=
  mkFunction 60 "foo" 3 Public NonPayable
    [var 61 "x" (elem "int128") Default 60]
    [var 62 "" (elem "bool") Default 60].

Definition Lib2 : ContractDefinition :=
  mkContract 3 "Lib2" 0 [3] [] [] [] [foo] [].

Definition SFoo : StructDefinition :=
  mkStruct 20 "SFoo" 1 [var 21 "x" (elem "uint256") Default 20].

Definition FooEnum : EnumDefinition := mkEnum 30 "FooEnum" 1 ["D"; "E"; "F"].

Definition add : FunctionDefinition :=
  mkFunction 40 "add" 1 Public NonPayable
    [var 401 "x" (elem "int8") Default 40; var 402 "y" (elem "uint64") Default 40]
    [var 403 "add" (elem "uint64") Default 40].

Definition getBytes : FunctionDefinition :=
  mkFunction 41 "getBytes" 1 Public NonPayable
    [] [var 411 "" (elem "bytes") Memory 41].

Definition idPair : FunctionDefinition :=
  mkFunction 42 "idPair" 1 Public NonPayable
    [var 421 "x" (elem "uint256") Default 42; var 422 "y" (elem "uint256") Default 42]
    [var 423 "" (elem "uint256") Default 42; var 424 "" (elem "uint256") Default 42].

Definition noReturn : FunctionDefinition :=
  mkFunction 43 "noReturn" 1 Public NonPayable [] [].

Definition dup8 : FunctionDefinition :=
  mkFunction 44 "dup" 1 Public NonPayable
    [var 441 "a" (elem "uint8") Default 44] [var 442 "" (elem "uint8") Default 44].

Definition dup16 : FunctionDefinition :=
  mkFunction 45 "dup" 1 Public NonPayable
    [var 451 "a" (elem "uint16") Default 45] [var 452 "" (elem "uint16") Default 45].

Definition Foo : ContractDefinition :=
  mkContract 1 "Foo" 0 [1]
    [ var 10 "sV" (elem "uint256") Default 1;
      var 11 "sBy" (elem "bytes") Default 1;
      var 12 "sNestedArr" (ArrayTypeName (ArrayTypeName (elem "uint8") None) None) Default 1;
      var 13 "sFoo" (UserDefinedTypeName 20) Default 1;
      var 14 "sA" (elem "address") Default 1;
      var 15 "u32a" (elem "uint32") Default 1;
      var 16 "sV1" (elem "int128") Default 1 ]
    [SFoo] [FooEnum]
    [add; getBytes; idPair; noReturn; dup8; dup16]
    [mkUsingFor 2 (Some (elem "uint32")); mkUsingFor 3 None].

Definition unit : SourceUnit := mkSourceUnit [] [] [Lib; Lib2; Foo].

Definition locateNode (id : nat) : ASTNode :=
  match id with
  | 0 => NSourceUnit
  | 1 => NContract Foo
  | 2 => NContract Lib
  | 3 => NContract Lib2
  | 20 => NStruct SFoo
  | 30 => NEnum FooEnum
  | 40 => NFunction add
  | 41 => NFunction getBytes
  | 42 => NFunction idPair
  | 43 => NFunction noReturn
  | 44 => NFunction dup8
  | 45 => NFunction dup16
  | 50 => NFunction ladd
  | 60 => NFunction foo
  | _ => NOther
  end.

(** The functions called [name] of the linearized bases of the contract. *)
Definition functionsByName (c : ContractDefinition) (name : string)
  : list FunctionDefinition :=
  List.filter (fun fn => String.eqb (fd_name fn) name)
    (flat_map cd_vFunctions
       (omap (fun i => match locateNode i with NContract b => Some b | _ => None end)
          (cd_linearizedBaseContracts c))).

Definition builtinSymbols (name : string) : option SType :=
  if String.eqb name "gasleft"
  then Some (SFunctionType [] [SIntType 256 false] VisDefault View)
  else None.

Definition builtinAddressMembers (name : string) : option SType :=
  if String.eqb name "balance" then Some (SIntType 256 false) else None.

Definition host : Host :=
  {| locate := locateNode;
     BuiltinSymbols := builtinSymbols;
     BuiltinAddressMembers := builtinAddressMembers;
     resolveByName := functionsByName |}.

Definition tc : nat -> SNode -> STypingCtx -> M SType := @tc host.

(** The contexts of the unit tests: annotations of [Foo], and of a function
    of [Foo]. *)
Definition ctxFoo : STypingCtx := [ScopeUnits [unit]; ScopeContract Foo].

Definition ctxIn (fn : FunctionDefinition) : STypingCtx :=
  [ScopeUnits [unit]; ScopeContract Foo; ScopeFunction fn].

Definition st0 : TcState := mkState ∅ ∅ ∅.

End Sample.

(** ** Vocabulary of the properties *)

(** The direct subexpressions of a node. *)
Definition children (e : SNode) : list SNode :=
  match e with
  | SUnaryOperation _ _ subexp => [subexp]
  | SBinaryOperation _ l _ r => [l; r]
  | SConditional _ c t f => [c; t; f]
  | SIndexAccess _ base index => [base; index]
  | SMemberAccess _ base _ => [base]
  | SLet _ _ rhs body => [rhs; body]
  | SFunctionCall _ callee args => callee :: args
  | _ => []
  end.

(** The ids of a node and of all the nodes below it. *)
Fixpoint subIds (e : SNode) : list nat :=
  nodeId e ::
  match e with
  | SUnaryOperation _ _ subexp => subIds subexp
  | SBinaryOperation _ l _ r => subIds l ++ subIds r
  | SConditional _ c t f => subIds c ++ subIds t ++ subIds f
  | SIndexAccess _ base index => subIds base ++ subIds index
  | SMemberAccess _ base _ => subIds base
  | SLet _ _ rhs body => subIds rhs ++ subIds body
  | SFunctionCall _ callee args => subIds callee ++ flat_map subIds args
  | _ => []
  end.

(** The ids below a node, the node itself left out. *)
Definition properSubIds (e : SNode) : list nat := flat_map subIds (children e).

(** The nodes a context can send the checker to: the right-hand sides of
    its [let] scopes. *)
Definition ctxNodes (ctx : STypingCtx) : list SNode :=
  flat_map (fun scope => match scope with ScopeLet l => [let_rhs l] | _ => [] end) ctx.




(** Reference types of the data model. *)
Definition isReferenceType (t : SType) : bool :=
  match t with
  | SArrayType _ _ | SBytes | SString | SMappingType _ _ => true
  | SUserDefinedType _ (Some (DefStruct _)) => true
  | SUserDefinedType _ (Some (DefContract _)) => true
  | _ => false
  end.

(** The well-formedness invariant of expression types: a reference type
    occurs only as the target of a pointer, and the target of a pointer is
    a reference type (so never a value type or a tuple). *)
Fixpoint wellFormed (t : SType) : bool :=
  match t with
  | SPointer to _ =>
      match to with
      | SArrayType elementT _ => wellFormed elementT
      | SMappingType keyType valueType => wellFormed keyType && wellFormed valueType
      | _ => isReferenceType to
      end
  | STupleType elements => forallb wellFormed elements
  | _ => negb (isReferenceType t)
  end.

(** A context whose [let] scopes send the checker to nodes of [okNode]
    only. *)
Definition okCtx (okNode : SNode -> Prop) (ctx : STypingCtx) : Prop :=
  forall n, In n (ctxNodes ctx) -> okNode n.

(** A Hoare triple for the checker monad: from a state in [I] the
    computation ends in a state in [I], with a result in [Q] or a failure in
    [E]. *)
Definition triple {A} (I : TcState -> Prop) (m : M A) (Q : A -> Prop)
  (E : Failure -> Prop) : Prop :=
  forall st, I st ->
    match m st with
    | (Ok a, st') => I st' /\ Q a
    | (Err f, st') => I st' /\ E f
    end.

(** A failure that is a plain [Error], not a diagnostic. *)
Definition isInternal (f : Failure) : Prop := exists msg, f = InternalError msg.

(** The six resolution steps of an identifier all miss. *)
Definition allStepsMiss {host : Host} (name : string) (ctx : STypingCtx)
  (contract : ContractDefinition) : Prop :=
  name <> "this"
  /\ tcIdBuiltinType name = None
  /\ lookupVarDef name ctx = None
  /\ resolveByName contract name = []
  /\ resolveTypeDef ctx name = None
  /\ tcIdBuiltin name = None.

(** The ids a run on [e] in [ctx] and [st] can reach below [e]: the nodes
    under [e], the right-hand sides of the [let] scopes of [ctx], and the
    default arguments of the function sets of [st]. *)
Definition reachBelow (e : SNode) (ctx : STypingCtx) (st : TcState) (k : nat) : Prop :=
  In k (properSubIds e)
  \/ (exists n, In n (ctxNodes ctx) /\ In k (subIds n))
  \/ (exists r f a, funSets st !! r = Some f /\ defaultArg f = Some a /\ In k (subIds a)).

(** The invariant of a run that writes only within a set [S] of node ids:
    outside [S] the type map is [C0], and the default arguments of the
    function sets lie within [S]. *)
Definition frameInv (S : nat -> Prop) (C0 : gmap nat SType) (st : TcState) : Prop :=
  (forall k, ~ S k -> typeMap st !! k = C0 !! k)
  /\ (forall r f a, funSets st !! r = Some f -> defaultArg f = Some a ->
        forall k, In k (subIds a) -> S k).

Definition inReach (S : nat -> Prop) (e : SNode) : Prop :=
  forall k, In k (subIds e) -> S k.

(** A failure that, when it is an [SUnknownId], names an identifier that is
    no variable of the context. *)
Definition unknownIdUnbound {host : Host} (ctx : STypingCtx) (f : Failure) : Prop :=
  forall i name, f = SUnknownId (SId i name) -> lookupVarDef name ctx = None.

(** [m2] has every outcome of [m1] that is not the recursion bound. *)
Definition extends {A} (m1 m2 : M A) : Prop :=
  forall st r st', m1 st = (r, st') -> r <> Err OutOfFuel -> m2 st = (r, st').


Import struct_equality.





(** No white space in a string. *)
Fixpoint noWhiteSpace (s : string) : bool :=
  match s with
  | EmptyString => true
  | String c r => negb (isWhiteSpace c) && noWhiteSpace r
  end.

(** A type that specialization leaves as it is: a value type. *)
Definition valueTemplate (t : SType) : bool :=
  match t with
  | SPointer _ _ | STupleType _ | SBytes | SString | SArrayType _ _ | SMappingType _ _ => false
  | SUserDefinedType _ (Some (DefEnum _)) => true
  | SUserDefinedType _ _ => false
  | _ => true
  end.

(** A type template with no reference type below its top. *)
Definition flatTemplate (t : SType) : bool :=
  match t with
  | SArrayType elementT _ => valueTemplate elementT
  | SMappingType keyType valueType => valueTemplate keyType && valueTemplate valueType
  | _ => true
  end.

(** A type that [specializeType] accepts: no pointer, no tuple and no
    user-defined type without its definition in a place that specialization
    visits. *)
Fixpoint isTemplate (t : SType) : bool :=
  match t with
  | SPointer _ _ | STupleType _ => false
  | SUserDefinedType _ None => false
  | SArrayType elementT _ => isTemplate elementT
  | SMappingType keyType valueType => isTemplate keyType && isTemplate valueType
  | _ => true
  end.

(** The builtin types with a width that the host language has: fixed bytes
    of 1 to 32 bytes, integers of 8 to 256 bits in steps of 8. *)
Definition legalBuiltinType (t : SType) : Prop :=
  match t with
  | SBoolType | SString | SBytes | SAddressType _ => True
  | SFixedBytes size => (1 <= size <= 32)%Z
  | SIntType nBits _ => (8 <= nBits <= 256)%Z /\ (nBits mod 8 = 0)%Z
  | _ => False
  end.

(** The variable [v] is declared by the scope: a parameter or a return
    parameter of a function scope, a state variable of a linearized base of a
    contract scope. *)
Definition declaredIn {host : Host} (v : VariableDeclaration) (scope : SScope) : Prop :=
  match scope with
  | ScopeFunction f => In v (fd_vParameters f) \/ In v (fd_vReturnParameters f)
  | ScopeContract c =>
      exists base, In base (vLinearizedBaseContracts c) /\ In v (cd_vStateVariables base)
  | _ => False
  end.

(** The user-defined type [def] is declared by the scope: a struct or an
    enum of a linearized base of a contract scope; a struct, an enum or a
    contract of a source unit of a global scope. *)
Definition typeDeclaredIn {host : Host} (def : UserDefinition) (scope : SScope) : Prop :=
  match scope with
  | ScopeContract c =>
      exists base, In base (vLinearizedBaseContracts c)
        /\ In def (map DefStruct (cd_vStructs base) ++ map DefEnum (cd_vEnums base))
  | ScopeUnits units =>
      exists su, In su units
        /\ In def (map DefStruct (su_vStructs su) ++ map DefEnum (su_vEnums su)
                   ++ map DefContract (su_vContracts su))
  | _ => False
  end.

(** The scope binds the variable name: a [let] scope by one of its
    bindings, a function or contract scope by a variable it declares. *)
Definition binds {host : Host} (name : string) (scope : SScope) : Prop :=
  match scope with
  | ScopeLet l => In name (map snd (let_lhs l))
  | _ => exists v, declaredIn v scope /\ vd_name v = name
  end.

(** The def-site [def] of the name is a binding of the scope. *)
Definition definedBy {host : Host} (name : string) (def : VarDefSite) (scope : SScope)
  : Prop :=
  match def with
  | VarDecl v => declaredIn v scope /\ vd_name v = name
  | LetBinding l bindingIdx =>
      scope = ScopeLet l /\ exists id, let_lhs l !! bindingIdx = Some (id, name)
  end.

(** A scope that [lookupVarDef] passes on its way out: it does not bind the
    name and is no global scope. *)
Definition passedBy {host : Host} (name : string) (scope : SScope) : Prop :=
  ~ binds name scope /\ forall units, scope <> ScopeUnits units.

(** A scope that [resolveTypeDef] steps over. *)
Definition isLetOrFunction (scope : SScope) : bool :=
  match scope with
  | ScopeLet _ | ScopeFunction _ => true
  | _ => false
  end.

(** The binary operators with a boolean result, and the others. *)
Definition booleanOps : list string :=
  ["<"; ">"; "<="; ">="; "=="; "!="; "||"; "&&"; "==>"].

Definition numericOps : list string :=
  ["**"; "*"; "%"; "/"; "+"; "-"; "<<"; ">>"; "|"; "&"; "^"].

(** The arity check of [tcLet]: as many names as the tuple on the right has
    components, one name for any other type. *)
Definition letArityOk (lhs : list (nat * string)) (rhsT : SType) : bool :=
  match rhsT with
  | STupleType elements => (length lhs =? length elements)%nat
  | _ => (length lhs =? 1)%nat
  end.

(** The type of the binding at [bindingIdx] of a [let] whose right-hand side
    has type [rhsT]. *)
Definition bindingType (lhs : list (nat * string)) (rhsT : SType) (bindingIdx : nat)
  : option SType :=
  if (1 <? length lhs)%nat then
    match rhsT with
    | STupleType elements => elements !! bindingIdx
    | _ => None
    end
  else Some rhsT.



(** The types that [tcFunctionCall] accepts for a callee. *)
Definition isCallable (calleeT : SType) : bool :=
  match calleeT with
  | SBuiltinTypeNameType _ | SUserDefinedTypeNameType _ | SFunctionSetType _
  | SFunctionType _ _ _ _ => true
  | _ => false
  end.

(** The node ids within reach of a run on [e] in [ctx] and [st]: those of
    [e] and of the nodes below it, of the right-hand sides of the [let]
    scopes of [ctx], and of the default arguments of the function sets of
    [st]. *)
Definition withinReach (e : SNode) (ctx : STypingCtx) (st : TcState) (k : nat) : Prop :=
  In k (subIds e)
  \/ (exists n, In n (ctxNodes ctx) /\ In k (subIds n))
  \/ (exists r f a, funSets st !! r = Some f /\ defaultArg f = Some a /\ In k (subIds a)).

(** Reading a chain of [k] binary operations nested to the left back: its
    leftmost operand and the (operator, right operand) pairs from left to
    right. *)
Fixpoint unchain (k : nat) (e : SNode) : SNode * list (string * SNode) :=
  match k, e with
  | S k', SBinaryOperation _ l op r =>
      let (h, t) := unchain k' l in (h, t ++ [(op, r)])
  | _, _ => (e, [])
  end.

(** The ids of the operands that [buildBinaryExpression] is given. *)
Definition operandIds (head : SNode) (tail : list TailItem) : list nat :=
  subIds head ++ flat_map (fun item => subIds (curVal item)) tail.

(** The depth of an expression: the longest chain of nested
    subexpressions. *)
Fixpoint depth (e : SNode) : nat :=
  match e with
  | SUnaryOperation _ _ subexp => S (depth subexp)
  | SBinaryOperation _ l _ r => S (Nat.max (depth l) (depth r))
  | SConditional _ c t f => S (Nat.max (depth c) (Nat.max (depth t) (depth f)))
  | SIndexAccess _ base index => S (Nat.max (depth base) (depth index))
  | SMemberAccess _ base _ => S (depth base)
  | SLet _ _ rhs body => S (Nat.max (depth rhs) (depth body))
  | SFunctionCall _ callee args =>
      S (Nat.max (depth callee) (fold_right Nat.max 0%nat (map depth args)))
  | _ => 0%nat
  end.

(** The default argument of every function set of the state is cached. *)
Definition storeCached (st : TcState) : Prop :=
  forall r f a, funSets st !! r = Some f -> defaultArg f = Some a ->
    is_Some (typeMap st !! nodeId a).

(** The right-hand side of every [let] scope of the context is cached. *)
Definition ctxCached (ctx : STypingCtx) (st : TcState) : Prop :=
  forall n, In n (ctxNodes ctx) -> is_Some (typeMap st !! nodeId n).

(** Every entry of the type map of [s] is an entry of the type map of
    [s'], with the same type, and every function set of [s] is a function
    set of [s'], with the same default argument and with declarations among
    those it had. *)
Definition grows (s s' : TcState) : Prop :=
  (forall k t, typeMap s !! k = Some t -> typeMap s' !! k = Some t)
  /\ (forall r f, funSets s !! r = Some f ->
        exists f', funSets s' !! r = Some f'
                   /\ defaultArg f' = defaultArg f
                   /\ incl (definitions f') (definitions f)).

(** From [s] the computation ends, not on the recursion bound, in a state
    that keeps the entries of the type map, only narrows the function sets
    and keeps the default arguments cached, and with a result in [Q] when
    it returns one. *)
Definition fine {A} (s : TcState) (m : M A) (Q : A -> TcState -> Prop) : Prop :=
  match m s with
  | (Ok a, s') => grows s s' /\ storeCached s' /\ Q a s'
  | (Err f, s') => grows s s' /\ storeCached s' /\ f <> OutOfFuel
  end.

(** * Properties *)

(** ** Rules of the triple *)

Section TripleRules.

Context {A B : Type}.
Variable I : TcState -> Prop.
Variable E : Failure -> Prop.

Lemma triple_ret (a : A) (Q : A -> Prop) : Q a -> triple I (ret a) Q E.
Proof. intros Ha st Hst. simpl. auto. Qed.

Lemma triple_throw (f : Failure) (Q : A -> Prop) : E f -> triple I (throw f) Q E.
Proof. intros Hf st Hst. simpl. auto. Qed.

Lemma triple_liftR (r : Result A) (Q : A -> Prop) :
  (forall a, r = Ok a -> Q a) -> (forall f, r = Err f -> E f) ->
  triple I (liftR r) Q E.
Proof. intros Hok Herr st Hst. unfold liftR. destruct r; auto. Qed.

Lemma triple_bind (m : M A) (k : A -> M B) (Q : A -> Prop) (R : B -> Prop) :
  triple I m Q E -> (forall a, Q a -> triple I (k a) R E) ->
  triple I (bind m k) R E.
Proof.
  intros Hm Hk st Hst. unfold bind.
  specialize (Hm st Hst). destruct (m st) as [[a|f] st1].
  - destruct Hm as [H1 Ha]. apply (Hk a Ha st1 H1).
  - exact Hm.
Qed.

Lemma triple_weaken (m : M A) (Q Q' : A -> Prop) (E' : Failure -> Prop) :
  triple I m Q E' -> (forall a, Q a -> Q' a) -> (forall f, E' f -> E f) ->
  triple I m Q' E.
Proof.
  intros Hm HQ HE st Hst. specialize (Hm st Hst).
  destruct (m st) as [[a|f] st1]; destruct Hm; auto.
Qed.

Lemma triple_getFunSets (Q : gmap nat FunctionSet -> Prop) :
  (forall fs, Q fs) -> triple I getFunSets Q E.
Proof. intros HQ st Hst. simpl. auto. Qed.

End TripleRules.

Lemma triple_mapM {A B} (I : TcState -> Prop) (E : Failure -> Prop)
  (f : A -> M B) (l : list A) :
  (forall x, In x l -> triple I (f x) (fun _ => True) E) ->
  triple I (mapM f l) (fun _ => True) E.
Proof.
  induction l as [|x xs IH]; intros Hf.
  - apply triple_ret. exact Logic.I.
  - simpl. eapply triple_bind; [apply Hf; left; reflexivity|].
    intros y _. eapply triple_bind; [apply IH; intros; apply Hf; right; assumption|].
    intros ys _. apply triple_ret. exact Logic.I.
Qed.

(** ** Failures of the pure part are internal errors *)

Lemma rbind_err {A B} (r : Result A) (k : A -> Result B) (P : Failure -> Prop) :
  (forall f, r = Err f -> P f) -> (forall a f, r = Ok a -> k a = Err f -> P f) ->
  forall f, rbind r k = Err f -> P f.
Proof.
  intros Hr Hk f. destruct r as [a|f0]; simpl.
  - intros H. exact (Hk a f Logic.eq_refl H).
  - intros [= <-]. apply Hr. reflexivity.
Qed.

Lemma rmapM_err {A B} (g : A -> Result B) (l : list A) (P : Failure -> Prop) :
  (forall x f, In x l -> g x = Err f -> P f) ->
  forall f, rmapM g l = Err f -> P f.
Proof.
  induction l as [|x xs IH]; intros Hg f; simpl; [discriminate|].
  apply rbind_err; [intros; eapply Hg; eauto; left; reflexivity|].
  intros y f0 _. apply rbind_err; [|discriminate].
  apply IH. intros; eapply Hg; eauto. right; assumption.
Qed.

Lemma specializeType_err (type : SType) :
  forall loc f, specializeType type loc = Err f -> isInternal f.
Proof.
  induction type; intros loc f; simpl; try discriminate;
    try (intros [= <-]; eexists; reflexivity).
  - apply rbind_err; [eauto|discriminate].
  - apply rbind_err; [eauto|]. intros a f0 _. apply rbind_err; [eauto|discriminate].
  - destruct definition as [[]|]; try discriminate. intros [= <-]; eexists; reflexivity.
Qed.

Section Pure.

Context {host : Host}.

Lemma elementaryToSType_err name mut f :
  elementaryToSType name mut = Err f -> isInternal f.
Proof.
  unfold elementaryToSType.
  repeat (case_match; try discriminate); intros [= <-]; eexists; reflexivity.
Qed.

Lemma getVarLocation_err v b f :
  getVarLocation v b = Err f -> isInternal f.
Proof.
  unfold getVarLocation.
  repeat (case_match; try discriminate); intros [= <-]; eexists; reflexivity.
Qed.

Lemma astTypeNameToSType_err (t : TypeName) :
  forall f, astTypeNameToSType t = Err f -> isInternal f
with astVarToSType_err (v : VariableDeclaration) :
  forall b f, astVarToSType v b = Err f -> isInternal f.
Proof.
  - destruct t; intros f; simpl.
    + apply elementaryToSType_err.
    + apply rbind_err; [apply astTypeNameToSType_err|].
      intros a f0 _. repeat (case_match; try discriminate);
        intros [= <-]; eexists; reflexivity.
    + repeat (case_match; try discriminate); intros [= <-]; eexists; reflexivity.
    + apply rbind_err.
      * induction vParameterTypes as [|p ps IH]; simpl; [discriminate|].
        apply rbind_err; [apply astVarToSType_err|].
        intros y f0 _. apply rbind_err; [apply IH|discriminate].
      * intros a f0 _. apply rbind_err; [|discriminate].
        induction vReturnParameterTypes as [|p ps IH]; simpl; [discriminate|].
        apply rbind_err; [apply astVarToSType_err|].
        intros y f1 _. apply rbind_err; [apply IH|discriminate].
    + apply rbind_err; [apply astTypeNameToSType_err|].
      intros a f0 _. apply rbind_err; [apply astTypeNameToSType_err|discriminate].
    + intros [= <-]; eexists; reflexivity.
  - destruct v as [i n vt sl sc vis par]; intros b f; simpl.
    destruct vt as [t|]; [|intros [= <-]; eexists; reflexivity].
    apply rbind_err; [apply astTypeNameToSType_err|].
    intros a f0 _. apply rbind_err; [apply getVarLocation_err|].
    intros l f1 _. apply specializeType_err.
Qed.

End Pure.

(** ** Facts about name resolution *)

Section Resolution.

Context {host : Host}.

Lemma findBinding_bound name lhs k idx :
  findBinding name lhs k = Some idx -> (idx < k + length lhs)%nat.
Proof.
  revert k. induction lhs as [|b rest IH]; intros k; simpl; [discriminate|].
  destruct (String.eqb (snd b) name).
  - intros [= <-]. lia.
  - intros H. apply IH in H. lia.
Qed.

Lemma lookupVarDefFrom_let name ctx n l idx :
  lookupVarDefFrom name ctx n = Some (LetBinding l idx) ->
  In (ScopeLet l) ctx /\ (idx < length (let_lhs l))%nat.
Proof.
  induction n as [|i IH]; simpl; [discriminate|].
  destruct (ctx !! i) as [scope|] eqn:Hi; [|exact IH].
  destruct (lookupVarDefStep name scope) as [r|] eqn:Hs; [|exact IH].
  intros ->. destruct scope; simpl in Hs; repeat case_match; simplify_eq.
  split.
  - apply list_elem_of_In. eapply list_elem_of_lookup_2. exact Hi.
  - match goal with H : findBinding _ _ _ = Some _ |- _ =>
      apply findBinding_bound in H; lia end.
Qed.

Lemma lookupVarDef_let name ctx l idx :
  lookupVarDef name ctx = Some (LetBinding l idx) ->
  In (ScopeLet l) ctx /\ (idx < length (let_lhs l))%nat.
Proof. apply lookupVarDefFrom_let. Qed.

Lemma lookupVarDefFrom_app name ctx ext n :
  (n <= length ctx)%nat ->
  lookupVarDefFrom name (ctx ++ ext) n = lookupVarDefFrom name ctx n.
Proof.
  induction n as [|i IH]; intros Hn; cbn [lookupVarDefFrom]; [reflexivity|].
  rewrite lookup_app_l by lia. rewrite IH by lia. reflexivity.
Qed.

Lemma lookupVarDef_snoc name ctx scope :
  lookupVarDef name (ctx ++ [scope]) =
  match lookupVarDefStep name scope with
  | Some r => r
  | None => lookupVarDef name ctx
  end.
Proof.
  unfold lookupVarDef. rewrite length_app. cbn [length].
  replace (length ctx + 1)%nat with (S (length ctx)) by lia.
  cbn [lookupVarDefFrom].
  rewrite lookup_app_r by lia. rewrite Nat.sub_diag. cbn [lookup list_lookup].
  rewrite lookupVarDefFrom_app by lia. reflexivity.
Qed.

Lemma lookupVarDef_snoc_let_None name ctx l :
  lookupVarDef name (ctx ++ [ScopeLet l]) = None ->
  lookupVarDef name ctx = None.
Proof.
  rewrite lookupVarDef_snoc. simpl.
  destruct (findBinding name (let_lhs l) 0); [discriminate|auto].
Qed.

Lemma ctxContract_err ctx f : ctxContract ctx = Err f -> isInternal f.
Proof.
  unfold ctxContract. repeat case_match; try discriminate;
    intros [= <-]; eexists; reflexivity.
Qed.

Lemma ctxNodes_snoc ctx l : ctxNodes (ctx ++ [ScopeLet l]) = ctxNodes ctx ++ [let_rhs l].
Proof. unfold ctxNodes. rewrite flat_map_app. reflexivity. Qed.

Lemma ctxNodes_let ctx l : In (ScopeLet l) ctx -> In (let_rhs l) (ctxNodes ctx).
Proof.
  intros H. unfold ctxNodes. apply in_flat_map. exists (ScopeLet l).
  split; [assumption|left; reflexivity].
Qed.

Lemma getFunDefType_err fn f : getFunDefType fn = Err f -> isInternal f.
Proof.
  unfold getFunDefType.
  apply rbind_err; [apply rmapM_err; intros; eapply astVarToSType_err; eauto|].
  intros a f0 _. apply rbind_err; [|discriminate].
  apply rmapM_err; intros; eapply astVarToSType_err; eauto.
Qed.

Lemma matchArguments_err fs arg argTs callable f :
  matchArguments fs arg argTs callable = Err f -> isInternal f.
Proof.
  unfold matchArguments. apply rbind_err.
  - destruct callable; [apply getFunDefType_err|discriminate].
  - intros a f0 _. case_match; discriminate.
Qed.

Lemma rfilter_err {A} (g : A -> Result bool) (l : list A) (P : Failure -> Prop) :
  (forall x f, g x = Err f -> P f) -> forall f, rfilter g l = Err f -> P f.
Proof.
  intros Hg. induction l as [|x xs IH]; intros f; simpl; [discriminate|].
  apply rbind_err; [apply Hg|]. intros k f0 _. apply rbind_err; [apply IH|discriminate].
Qed.

Lemma rfoldl_err {A B} (g : A -> B -> Result A) (l : list B) (P : Failure -> Prop) :
  (forall a x f, g a x = Err f -> P f) -> forall a f, rfoldl g l a = Err f -> P f.
Proof.
  intros Hg. induction l as [|x xs IH]; intros a f; simpl; [discriminate|].
  apply rbind_err; [apply Hg|]. intros a' f0 _. apply IH.
Qed.

Lemma usingForStep_err fs member t funs u f :
  usingForStep fs member t funs u = Err f -> isInternal f.
Proof.
  unfold usingForStep. apply rbind_err.
  - destruct (uf_vTypeName u); [|discriminate].
    apply rbind_err; [apply astTypeNameToSType_err|discriminate].
  - intros a f0 _. repeat case_match; try discriminate.
    all: intros [= <-]; eexists; reflexivity.
Qed.

Lemma usingForFunctions_err fs ctx member t f :
  usingForFunctions fs ctx member t = Err f -> isInternal f.
Proof.
  unfold usingForFunctions. apply rbind_err; [apply ctxContract_err|].
  intros c f0 _. apply rfoldl_err. intros; eapply usingForStep_err; eauto.
Qed.

End Resolution.

(** ** One pass over the rules of the checker

    For a state invariant [I], a set [okNode] of nodes the checker may be
    sent to, and a family [E] of admissible failures, every rule keeps [I]
    and fails in [E] as soon as the recursive calls do. *)

Section Pass.

Context {host : Host}.

Variable I : TcState -> Prop.
Variable okNode : SNode -> Prop.
Variable E : STypingCtx -> Failure -> Prop.

Hypothesis I_setType : forall e t st, okNode e -> I st ->
  I (mkState (<[nodeId e := t]> (typeMap st)) (funSets st) (defSites st)).
Hypothesis I_setDefSite : forall e d st, I st ->
  I (mkState (typeMap st) (funSets st) (<[nodeId e := d]> (defSites st))).
Hypothesis I_newFunctionSet : forall defs a st,
  (forall n, a = Some n -> okNode n) -> I st ->
  I (mkState (typeMap st)
       (<[fresh (dom (funSets st)) := mkFunctionSet defs a]> (funSets st))
       (defSites st)).
Hypothesis I_setDefinitions : forall r f defs st,
  funSets st !! r = Some f -> I st ->
  I (mkState (typeMap st) (<[r := mkFunctionSet defs (defaultArg f)]> (funSets st))
       (defSites st)).
Hypothesis I_defaultArg : forall st r f a,
  I st -> funSets st !! r = Some f -> defaultArg f = Some a -> okNode a.
Hypothesis E_other : forall ctx f, (forall n, f <> SUnknownId n) -> E ctx f.
Hypothesis E_unknown : forall ctx i name,
  lookupVarDef name ctx = None -> E ctx (SUnknownId (SId i name)).
Hypothesis E_let : forall ctx l f, E (ctx ++ [ScopeLet l]) f -> E ctx f.

Local Abbreviation okCtx := (okCtx okNode).

Lemma E_internal ctx f : isInternal f -> E ctx f.
Proof. intros [msg ->]. apply E_other. discriminate. Qed.

Lemma triple_setType ctx e t :
  okNode e -> triple I (setType e t) (fun _ => True) (E ctx).
Proof. intros He st Hst. simpl. auto. Qed.

Lemma triple_setDefSite ctx e d : triple I (setDefSite e d) (fun _ => True) (E ctx).
Proof. intros st Hst. simpl. auto. Qed.

Lemma triple_newFunctionSet ctx defs a :
  (forall n, a = Some n -> okNode n) ->
  triple I (newFunctionSet defs a) (fun _ => True) (E ctx).
Proof. intros Ha st Hst. simpl. auto. Qed.

Lemma triple_getFunctionSet ctx r :
  triple I (getFunctionSet r) (fun f => forall a, defaultArg f = Some a -> okNode a) (E ctx).
Proof.
  intros st Hst. unfold getFunctionSet.
  destruct (funSets st !! r) as [f|] eqn:Hr.
  - split; [assumption|]. intros a Ha. eapply I_defaultArg; eauto.
  - split; [assumption|]. apply E_internal. eexists; reflexivity.
Qed.

Lemma triple_setDefinitions ctx r defs :
  triple I (setDefinitions r defs) (fun _ => True) (E ctx).
Proof.
  intros st Hst. unfold setDefinitions.
  destruct (funSets st !! r) as [f|] eqn:Hr.
  - split; [|exact Logic.I]. eapply I_setDefinitions; eauto.
  - split; [assumption|]. apply E_internal. eexists; reflexivity.
Qed.

Section Rules.

Variable rec : SNode -> STypingCtx -> M SType.
Hypothesis Hrec : forall e ctx, okNode e -> okCtx ctx ->
  triple I (rec e ctx) (fun _ => True) (E ctx).


Ltac internal :=
  first
    [ eapply astVarToSType_err; eassumption
    | eapply astTypeNameToSType_err; eassumption
    | eapply ctxContract_err; eassumption
    | eapply usingForFunctions_err; eassumption
    | eapply matchArguments_err; eassumption
    | eexists; reflexivity ].

Ltac failure :=
  first
    [ exact Logic.I
    | apply E_other; discriminate
    | apply E_internal; internal ].

Ltac tstep :=
  lazymatch goal with
  | |- triple _ (bind (getFunctionSet _) _) _ _ =>
      eapply triple_bind; [apply triple_getFunctionSet|intros ? ?]
  | |- triple _ (bind _ _) _ _ =>
      eapply triple_bind with (Q := fun _ => True); [|intros ? ?]
  | |- triple _ (ret _) _ _ => apply triple_ret; try exact Logic.I
  | |- triple _ (throw _) _ _ => apply triple_throw; failure
  | |- triple _ (liftR _) _ _ =>
      apply triple_liftR; [intros; try exact Logic.I|intros ? ?; failure]
  | |- triple _ getFunSets _ _ => apply triple_getFunSets; intros; exact Logic.I
  | |- triple _ (setDefSite _ _) _ _ => apply triple_setDefSite
  | |- triple _ (setDefinitions _ _) _ _ => apply triple_setDefinitions
  | |- triple _ (getFunctionSet _) _ _ => apply triple_getFunctionSet
  | |- triple _ (newFunctionSet _ _) _ _ =>
      apply triple_newFunctionSet; intros ? ?; simplify_eq; try assumption
  | |- triple _ (rec _ _) _ _ => apply Hrec; try assumption
  | |- triple _ (if ?b then _ else _) _ _ => destruct b eqn:?
  | |- triple _ (match ?x with _ => _ end) _ _ => destruct x eqn:?
  end.

Lemma unifyTypes_triple ctx a ta b tb p :
  triple I (unifyTypes a ta b tb p) (fun _ => True) (E ctx).
Proof. unfold unifyTypes. repeat tstep. Qed.

Lemma callResult_triple ctx retTs expr :
  triple I (callResult retTs expr) (fun _ => True) (E ctx).
Proof. unfold callResult. repeat tstep. Qed.

Lemma tcIdVariable_triple ctx i name :
  okCtx ctx ->
  triple I (tcIdVariable rec (SId i name) name ctx)
    (fun r => r = None -> lookupVarDef name ctx = None) (E ctx).
Proof.
  intros Hctx. unfold tcIdVariable.
  destruct (lookupVarDef name ctx) as [def|] eqn:Hdef; [|tstep; auto].
  tstep; [tstep|]. destruct def as [v|l idx].
  - destruct (vd_vType v); [|tstep].
    tstep; [tstep|]. tstep. discriminate.
  - apply lookupVarDef_let in Hdef. destruct Hdef as [Hin Hidx].
    tstep; [apply Hrec; [apply Hctx, ctxNodes_let, Hin|assumption]|].
    destruct (1 <? length (let_lhs l))%nat; [|tstep; discriminate].
    destruct a0; try (apply triple_throw; failure).
    destruct (length elements =? length (let_lhs l))%nat eqn:Hlen; [|tstep].
    apply triple_ret. intros Hnone. apply Nat.eqb_eq in Hlen.
    apply lookup_ge_None in Hnone. lia.
Qed.

Lemma tcId_triple ctx i name :
  okCtx ctx -> triple I (tcId rec (SId i name) name ctx) (fun _ => True) (E ctx).
Proof.
  intros Hctx. unfold tcId.
  destruct (String.eqb name "this"); [repeat tstep|].
  destruct (tcIdBuiltinType name); [tstep|].
  eapply triple_bind; [apply tcIdVariable_triple; assumption|intros ? ?].
  destruct a as [t|]; [tstep|].
  tstep; [tstep|]. tstep; [repeat tstep|].
  destruct (resolveTypeDef ctx name); [repeat tstep|].
  destruct (tcIdBuiltin name); [tstep|].
  apply triple_throw. apply E_unknown. auto.
Qed.

Lemma tcResult_triple ctx expr : triple I (tcResult expr ctx) (fun _ => True) (E ctx).
Proof.
  unfold tcResult.
  destruct (last ctx) as [[u|c|fn|l]|]; try (apply triple_throw; failure).
  destruct (fd_vReturnParameters fn) as [|p [|q ps]].
  - tstep.
  - destruct (vd_vType p); [|tstep].
    apply triple_liftR; [intros; exact Logic.I|].
    intros f0 Hf. apply E_internal. internal.
  - tstep; [|tstep].
    apply triple_liftR; [intros; exact Logic.I|]. apply rmapM_err.
    intros x f0 _.
    destruct (vd_vType x);
      [intros Hx; apply E_internal; internal
      |intros [= <-]; apply E_internal; internal].
Qed.

Lemma tcUnary_triple ctx expr op subexp :
  okNode subexp -> okCtx ctx ->
  triple I (tcUnary rec expr op subexp ctx) (fun _ => True) (E ctx).
Proof. intros Hs Hctx. unfold tcUnary. repeat tstep. Qed.

Lemma tcBinary_triple ctx expr l op r :
  okNode l -> okNode r -> okCtx ctx ->
  triple I (tcBinary rec expr l op r ctx) (fun _ => True) (E ctx).
Proof.
  intros Hl Hr Hctx. unfold tcBinary.
  tstep; [tstep|]. tstep; [tstep|].
  repeat (first [apply unifyTypes_triple | tstep]).
Qed.

Lemma tcConditional_triple ctx expr c t f :
  okNode c -> okNode t -> okNode f -> okCtx ctx ->
  triple I (tcConditional rec expr c t f ctx) (fun _ => True) (E ctx).
Proof.
  intros Hc Ht Hf Hctx. unfold tcConditional.
  repeat (first [apply unifyTypes_triple | tstep]).
Qed.

Lemma tcIndexAccess_triple ctx expr base index :
  okNode base -> okNode index -> okCtx ctx ->
  triple I (tcIndexAccess rec expr base index ctx) (fun _ => True) (E ctx).
Proof. intros Hb Hi Hctx. unfold tcIndexAccess. repeat tstep. Qed.

Lemma tcMemberAccessUsingFor_triple ctx base member baseT :
  okNode base ->
  triple I (tcMemberAccessUsingFor base member baseT ctx) (fun _ => True) (E ctx).
Proof. intros Hb. unfold tcMemberAccessUsingFor. repeat tstep. Qed.

Lemma tcMemberAccess_triple ctx expr base member :
  okNode base -> okCtx ctx ->
  triple I (tcMemberAccess rec expr base member ctx) (fun _ => True) (E ctx).
Proof.
  intros Hb Hctx. unfold tcMemberAccess.
  tstep; [tstep|].
  repeat (first [apply tcMemberAccessUsingFor_triple; assumption | tstep]).
Qed.

Lemma okCtx_snoc ctx l : okCtx ctx -> okNode (let_rhs l) -> okCtx (ctx ++ [ScopeLet l]).
Proof.
  intros Hctx Hl n. rewrite ctxNodes_snoc, in_app_iff. simpl.
  intros [H|[<-|[]]]; auto.
Qed.

Lemma tcLet_triple ctx expr l :
  okNode (let_rhs l) -> okNode (let_in l) -> okCtx ctx ->
  triple I (tcLet rec expr l ctx) (fun _ => True) (E ctx).
Proof.
  intros Hr Hb Hctx. unfold tcLet.
  tstep; [tstep|]. tstep; [repeat tstep|].
  eapply triple_weaken; [apply Hrec; [assumption|apply okCtx_snoc; assumption]|auto|].
  apply E_let.
Qed.

Lemma mapM_rec_triple ctx args :
  (forall a, In a args -> okNode a) -> okCtx ctx ->
  triple I (mapM (fun arg => rec arg ctx) args) (fun _ => True) (E ctx).
Proof. intros Ha Hctx. apply triple_mapM. intros x Hx. apply Hrec; auto. Qed.

Lemma tcFunctionCall_triple ctx expr callee args :
  okNode callee -> (forall a, In a args -> okNode a) -> okCtx ctx ->
  triple I (tcFunctionCall rec expr callee args ctx) (fun _ => True) (E ctx).
Proof.
  intros Hc Ha Hctx. unfold tcFunctionCall.
  tstep; [tstep|]. destruct a; try (apply triple_throw; failure).
  - tstep; [apply mapM_rec_triple; assumption|]. tstep; [tstep|].
    tstep; [tstep|]. destruct a1; [apply callResult_triple|tstep].
  - tstep; [apply mapM_rec_triple; assumption|]. repeat tstep.
  - tstep; [apply mapM_rec_triple; assumption|]. repeat tstep.
  - tstep. cbv zeta.
    tstep.
    + apply mapM_rec_triple; [|assumption].
      intros x Hx. destruct (defaultArg a) eqn:Hd; [destruct Hx as [<-|Hx]|]; auto.
    + tstep. tstep; [tstep|]. tstep.
      * apply triple_liftR; [intros; exact Logic.I|].
        unfold matchingDefinitions. apply rbind_err; [|discriminate].
        apply rfilter_err.
        intros x f Hx. apply E_internal. destruct x; [internal|discriminate].
      * match goal with
        | |- triple _ (match ?x with _ => _ end) _ _ =>
            destruct x as [|def [|def' rest]]
        end; try (apply triple_throw; failure).
        tstep; [tstep|]. destruct def as [fn|v].
        -- tstep.
           ++ apply triple_liftR; [intros; exact Logic.I|]. apply rmapM_err.
              intros x f _ Hx. apply E_internal. internal.
           ++ apply callResult_triple.
        -- repeat tstep.
Qed.

Lemma tcDispatch_triple ctx e :
  (forall c, In c (children e) -> okNode c) -> okCtx ctx ->
  triple I (tcDispatch rec e ctx) (fun _ => True) (E ctx).
Proof.
  intros Hch Hctx. destruct e; simpl in Hch; cbn [tcDispatch];
    try (apply triple_ret; exact Logic.I); try (apply triple_throw; failure).
  - apply tcId_triple; assumption.
  - apply tcResult_triple.
  - apply tcUnary_triple; auto.
  - apply tcBinary_triple; auto.
  - apply tcConditional_triple; auto 6.
  - apply tcIndexAccess_triple; auto.
  - apply tcMemberAccess_triple; auto.
  - apply tcLet_triple; simpl; auto.
  - apply tcFunctionCall_triple; auto.
  - destruct t; try (apply triple_ret; exact Logic.I). destruct definition; tstep.
Qed.

Lemma tcBody_triple ctx e :
  okNode e -> (forall c, In c (children e) -> okNode c) -> okCtx ctx ->
  triple I (tcBody rec e ctx) (fun _ => True) (E ctx).
Proof.
  intros He Hch Hctx st Hst. unfold tcBody.
  destruct (typeMap st !! nodeId e); [auto|].
  revert st Hst. change (triple I
    (bind (tcDispatch rec e ctx) (fun type => bind (setType e type) (fun _ => ret type)))
    (fun _ => True) (E ctx)).
  tstep; [apply tcDispatch_triple; assumption|].
  tstep; [apply triple_setType; assumption|]. tstep.
Qed.

End Rules.

Hypothesis okNode_children : forall e c, okNode e -> In c (children e) -> okNode c.

Lemma tc_triple fuel : forall e ctx, okNode e -> okCtx ctx ->
  triple I (tc fuel e ctx)
    (fun _ => True) (E ctx).
Proof.
  induction fuel as [|n IH]; intros e ctx He Hctx.
  - apply triple_throw. apply E_other. discriminate.
  - cbn [tc]. apply tcBody_triple; eauto.
Qed.

End Pass.


(** ** Three instances of the pass *)

Section Instances.

Context {host : Host}.


(** *** The type map never loses an entry *)

Lemma tc_typeMap_grows fuel e ctx st r st' :
  tc fuel e ctx st = (r, st') ->
  forall k, is_Some (typeMap st !! k) -> is_Some (typeMap st' !! k).
Proof.
  intros Hrun.
  pose proof (tc_triple
    (fun s => forall k, is_Some (typeMap st !! k) -> is_Some (typeMap s !! k))
    (fun _ => True) (fun _ _ => True)) as H.
  specialize (H ltac:(
    intros e0 t s _ Hs k Hk; cbn; destruct (decide (k = nodeId e0)) as [->|Hne];
    [rewrite lookup_insert_eq; eauto|rewrite lookup_insert_ne by congruence; auto])).
  specialize (H ltac:(intros e0 d s Hs; exact Hs)).
  specialize (H ltac:(intros defs a s _ Hs; exact Hs)).
  specialize (H ltac:(intros r0 f defs s _ Hs; exact Hs)).
  specialize (H ltac:(intros; exact Logic.I)).
  specialize (H ltac:(intros; exact Logic.I)).
  specialize (H ltac:(intros; exact Logic.I)).
  specialize (H ltac:(intros; exact Logic.I)).
  specialize (H ltac:(intros; exact Logic.I)).
  specialize (H fuel e ctx Logic.I ltac:(intros n _; exact Logic.I) st
    ltac:(intros k Hk; exact Hk)).
  rewrite Hrun in H. destruct r; apply H.
Qed.

(** *** Only the nodes within reach are written

    [S] is a set of node ids that contains the ids of every node the
    checker can be sent to. *)

Section Frame.

Variable S : nat -> Prop.
Variable C0 : gmap nat SType.

Lemma subIds_self e : In (nodeId e) (subIds e).
Proof. destruct e; left; reflexivity. Qed.

Lemma subIds_children e c k :
  In c (children e) -> In k (subIds c) -> In k (subIds e).
Proof.
  intros Hc Hk. destruct e; simpl in Hc; try contradiction; simpl; right;
    repeat rewrite in_app_iff.
  - destruct Hc as [<-|[]]. assumption.
  - destruct Hc as [<-|[<-|[]]]; auto.
  - destruct Hc as [<-|[<-|[<-|[]]]]; auto.
  - destruct Hc as [<-|[<-|[]]]; auto.
  - destruct Hc as [<-|[]]. assumption.
  - destruct Hc as [<-|[<-|[]]]; auto.
  - destruct Hc as [<-|Hc]; [auto|]. right. apply in_flat_map. eauto.
Qed.

Lemma tc_frame fuel e ctx st r st' :
  inReach S e -> (forall n, In n (ctxNodes ctx) -> inReach S n) -> frameInv S C0 st ->
  tc fuel e ctx st = (r, st') -> frameInv S C0 st'.
Proof.
  intros He Hctx Hst Hrun.
  pose proof (tc_triple
    (frameInv S C0) (inReach S) (fun _ _ => True)) as H.
  specialize (H ltac:(
    intros e0 t s He0 [Hs1 Hs2]; split; [|exact Hs2]; intros k Hk; cbn;
    rewrite lookup_insert_ne; [auto|];
    intros <-; apply Hk, He0, subIds_self)).
  specialize (H ltac:(intros e0 d s Hs; exact Hs)).
  specialize (H ltac:(
    intros defs a s Ha [Hs1 Hs2]; split; [exact Hs1|]; cbn; intros r0 f a0 Hr0 Hd;
    destruct (decide (r0 = fresh (dom (funSets s)))) as [->|Hne];
    [rewrite lookup_insert_eq in Hr0; injection Hr0 as <-; cbn in Hd; exact (Ha a0 Hd)
    |rewrite lookup_insert_ne in Hr0 by congruence; eapply Hs2; eauto])).
  specialize (H ltac:(
    intros r0 f defs s Hf [Hs1 Hs2]; split; [exact Hs1|]; cbn; intros r1 f1 a1 Hr1 Hd;
    destruct (decide (r1 = r0)) as [->|Hne];
    [rewrite lookup_insert_eq in Hr1; injection Hr1 as <-; cbn in Hd; eapply Hs2; eauto
    |rewrite lookup_insert_ne in Hr1 by congruence; eapply Hs2; eauto])).
  specialize (H ltac:(intros s r0 f a [Hs1 Hs2] Hf Hd; exact (Hs2 r0 f a Hf Hd))).
  specialize (H ltac:(intros; exact Logic.I)).
  specialize (H ltac:(intros; exact Logic.I)).
  specialize (H ltac:(intros; exact Logic.I)).
  specialize (H ltac:(intros e0 c He0 Hc k Hk; eapply He0, subIds_children; eauto)).
  specialize (H fuel e ctx He Hctx st Hst).
  rewrite Hrun in H. destruct r; apply H.
Qed.

End Frame.

(** *** Where an [SUnknownId] comes from *)

Lemma tc_unknownId fuel e ctx st f st' :
  tc fuel e ctx st = (Err f, st') -> unknownIdUnbound ctx f.
Proof.
  intros Hrun.
  pose proof (tc_triple
    (fun _ => True) (fun _ => True) unknownIdUnbound) as H.
  specialize (H ltac:(intros; exact Logic.I)).
  specialize (H ltac:(intros; exact Logic.I)).
  specialize (H ltac:(intros; exact Logic.I)).
  specialize (H ltac:(intros; exact Logic.I)).
  specialize (H ltac:(intros; exact Logic.I)).
  specialize (H ltac:(intros c f0 Hf i name ->; exfalso; eapply Hf; reflexivity)).
  specialize (H ltac:(intros c i name Hl i' name' [= -> ->]; exact Hl)).
  specialize (H ltac:(
    intros c l f0 Hf i name Hi; eapply lookupVarDef_snoc_let_None, Hf, Hi)).
  specialize (H ltac:(intros; exact Logic.I)).
  specialize (H fuel e ctx Logic.I ltac:(intros n _; exact Logic.I) st Logic.I).
  rewrite Hrun in H. apply H.
Qed.

End Instances.

(** ** The recursion bound does not change an outcome *)

Lemma extends_refl {A} (m : M A) : extends m m.
Proof. intros st r st' H _. exact H. Qed.

Lemma extends_bind {A B} (m1 m2 : M A) (k1 k2 : A -> M B) :
  extends m1 m2 -> (forall a, extends (k1 a) (k2 a)) ->
  extends (bind m1 k1) (bind m2 k2).
Proof.
  intros Hm Hk st r st'. unfold bind.
  destruct (m1 st) as [[a|f] s1] eqn:H1.
  - rewrite (Hm _ _ _ H1 ltac:(discriminate)). apply Hk.
  - intros [= <- <-] Hr.
    rewrite (Hm _ _ _ H1 ltac:(intros [= ->]; apply Hr; reflexivity)). reflexivity.
Qed.

Lemma extends_mapM {A B} (f1 f2 : A -> M B) (l : list A) :
  (forall x, extends (f1 x) (f2 x)) -> extends (mapM f1 l) (mapM f2 l).
Proof.
  intros Hf. induction l as [|x xs IH]; simpl; [apply extends_refl|].
  apply extends_bind; [apply Hf|]. intros y.
  apply extends_bind; [exact IH|]. intros ys. apply extends_refl.
Qed.

Section FuelPass.

Context {host : Host}.

Variables rec1 rec2 : SNode -> STypingCtx -> M SType.
Hypothesis Hrec : forall e ctx, extends (rec1 e ctx) (rec2 e ctx).

Ltac estep :=
  lazymatch goal with
  | |- extends (bind _ _) (bind _ _) => apply extends_bind; [|intros ?]
  | |- extends (rec1 _ _) (rec2 _ _) => apply Hrec
  | |- extends (mapM _ _) (mapM _ _) => apply extends_mapM; intros ?
  | |- extends (if ?b then _ else _) _ => destruct b
  | |- extends (match ?x with _ => _ end) _ => destruct x
  | |- extends ?m ?m => apply extends_refl
  end.

Lemma tcDispatch_extends e ctx :
  extends (tcDispatch rec1 e ctx) (tcDispatch rec2 e ctx).
Proof.
  destruct e; cbn [tcDispatch]; try apply extends_refl.
  - unfold tcId. repeat estep. unfold tcIdVariable. repeat estep.
  - unfold tcUnary. repeat estep.
  - unfold tcBinary. repeat estep.
  - unfold tcConditional. repeat estep.
  - unfold tcIndexAccess. repeat estep.
  - unfold tcMemberAccess. repeat estep.
  - unfold tcLet. repeat estep.
  - unfold tcFunctionCall. repeat estep.
Qed.

Lemma tcBody_extends e ctx : extends (tcBody rec1 e ctx) (tcBody rec2 e ctx).
Proof.
  intros st r st'. unfold tcBody.
  destruct (typeMap st !! nodeId e); [auto|].
  apply extends_bind; [apply tcDispatch_extends|]. intros t. apply extends_refl.
Qed.

End FuelPass.

Section Fuel.

Context {host : Host}.

Lemma tc_extends_S fuel : forall e ctx, extends (tc fuel e ctx) (tc (S fuel) e ctx).
Proof.
  induction fuel as [|n IH]; intros e ctx.
  - intros st r st' [= <- <-] H. congruence.
  - cbn [tc]. apply tcBody_extends. exact IH.
Qed.

(** More fuel gives the same outcome, once the outcome is not the bound. *)
Lemma tc_fuel_monotone fuel fuel' e ctx st r st' :
  tc fuel e ctx st = (r, st') -> r <> Err OutOfFuel -> (fuel <= fuel')%nat ->
  tc fuel' e ctx st = (r, st').
Proof.
  intros Hrun Hr Hle. induction Hle as [|m Hle IH]; [exact Hrun|].
  eapply tc_extends_S; eauto.
Qed.

End Fuel.

(** ** The cache *)

Section Cache.

Context {host : Host}.


(** A run on a cached node returns the cached type and leaves the state as
    it is. *)
Lemma tc_cached fuel e ctx st t :
  typeMap st !! nodeId e = Some t -> tc (S fuel) e ctx st = (Ok t, st).
Proof. intros H. cbn [tc]. unfold tcBody. rewrite H. reflexivity. Qed.

(** A run on a node that is not cached is the dispatch, followed on normal
    completion by the cache update. *)
Lemma tc_uncached fuel e ctx st :
  typeMap st !! nodeId e = None ->
  tc (S fuel) e ctx st =
  match tcDispatch (tc fuel) e ctx st with
  | (Ok t, st1) =>
      (Ok t, mkState (<[nodeId e := t]> (typeMap st1)) (funSets st1) (defSites st1))
  | (Err f, st1) => (Err f, st1)
  end.
Proof.
  intros H. cbn [tc]. unfold tcBody. rewrite H. unfold bind.
  destruct (tcDispatch (tc fuel) e ctx st) as [[t|f] st1]; reflexivity.
Qed.

Lemma tc_ok_cached fuel e ctx st t st' :
  tc fuel e ctx st = (Ok t, st') -> typeMap st' !! nodeId e = Some t.
Proof.
  destruct fuel as [|n]; [discriminate|].
  destruct (typeMap st !! nodeId e) as [t0|] eqn:Hc.
  - rewrite (tc_cached _ _ _ _ _ Hc). intros [= <- <-]. exact Hc.
  - rewrite (tc_uncached _ _ _ _ Hc).
    destruct (tcDispatch (tc n) e ctx st) as [[t1|f] st1]; [|discriminate].
    intros [= <- <-]. cbn. apply lookup_insert_eq.
Qed.

Lemma tc_err_uncached fuel e ctx st f st' :
  tc fuel e ctx st = (Err f, st') -> f <> OutOfFuel -> typeMap st !! nodeId e = None.
Proof.
  destruct fuel as [|n]; [intros [= <- <-] H; contradiction|].
  destruct (typeMap st !! nodeId e) as [t0|] eqn:Hc; [|reflexivity].
  rewrite (tc_cached _ _ _ _ _ Hc). discriminate.
Qed.

Lemma mapM_tc_typeMap_grows fuel ctx args : forall st r st',
  mapM (fun arg => tc fuel arg ctx) args st = (r, st') ->
  forall k, is_Some (typeMap st !! k) -> is_Some (typeMap st' !! k).
Proof.
  induction args as [|a args IH]; intros st r st'; simpl.
  - intros [= <- <-]. auto.
  - unfold bind at 1. destruct (tc fuel a ctx st) as [[t|f] st1] eqn:Ha.
    + unfold bind at 1.
      destruct (mapM _ args st1) as [[ts|f] st2] eqn:Hm;
        intros [= <- <-] k Hk; eapply IH; eauto; eapply tc_typeMap_grows; eauto.
    + intros [= <- <-]. eapply tc_typeMap_grows; eauto.
Qed.

Lemma mapM_tc_cached fuel ctx args : forall st ts st',
  mapM (fun arg => tc fuel arg ctx) args st = (Ok ts, st') ->
  forall a, In a args -> is_Some (typeMap st' !! nodeId a).
Proof.
  induction args as [|a args IH]; intros st ts st'; simpl; [intros _ ? []|].
  unfold bind at 1. destruct (tc fuel a ctx st) as [[t|f] st1] eqn:Ha; [|discriminate].
  unfold bind at 1. destruct (mapM _ args st1) as [[ts'|f] st2] eqn:Hm; [|discriminate].
  intros [= <- <-] b [<-|Hb].
  - eapply mapM_tc_typeMap_grows; [exact Hm|]. erewrite tc_ok_cached; eauto.
  - eapply IH; eauto.
Qed.

(** C3. Cache stability: a run never removes an entry of the type map; when
    it returns a type, that type is cached for the node, and every later
    run on the node, in the state the first run left, returns the same type
    and changes nothing (the cached type is returned, nothing is checked
    again); and the outcome is a function of the expression, the context
    and the state: the same run gives the same outcome, and so does a run
    with a larger recursion bound. *)
Theorem tc_cache_stable fuel e ctx st r st' :
  tc fuel e ctx st = (r, st') ->
  (forall k, is_Some (typeMap st !! k) -> is_Some (typeMap st' !! k))
  /\ (forall t, r = Ok t ->
        typeMap st' !! nodeId e = Some t
        /\ forall fuel', tc (S fuel') e ctx st' = (Ok t, st'))
  /\ (forall r2 st2, tc fuel e ctx st = (r2, st2) -> r2 = r /\ st2 = st')
  /\ (r <> Err OutOfFuel ->
      forall fuel', (fuel <= fuel')%nat -> tc fuel' e ctx st = (r, st')).
Proof.
  intros Hrun. split; [|split; [|split]].
  - eapply tc_typeMap_grows; eauto.
  - intros t ->. pose proof (tc_ok_cached _ _ _ _ _ _ Hrun) as Hc.
    split; [exact Hc|]. intros fuel'. apply tc_cached. exact Hc.
  - intros r2 st2 H2. rewrite Hrun in H2. injection H2 as <- <-. auto.
  - intros Hr fuel' Hle. eapply tc_fuel_monotone; eauto.
Qed.

Lemma tcDispatch_frame fuel e ctx st r st' :
  tcDispatch (tc fuel) e ctx st = (r, st') ->
  forall k, ~ reachBelow e ctx st k -> typeMap st' !! k = typeMap st !! k.
Proof.
  intros Hrun k Hk.
  pose proof (tcDispatch_triple
    (frameInv (reachBelow e ctx st) (typeMap st)) (inReach (reachBelow e ctx st))
    (fun _ _ => True)) as H.
  specialize (H ltac:(intros e0 d s Hs; exact Hs)).
  specialize (H ltac:(
    intros defs a s Ha [Hs1 Hs2]; split; [exact Hs1|]; cbn; intros r0 f a0 Hr0 Hd;
    destruct (decide (r0 = fresh (dom (funSets s)))) as [->|Hne];
    [rewrite lookup_insert_eq in Hr0; injection Hr0 as <-; cbn in Hd; exact (Ha a0 Hd)
    |rewrite lookup_insert_ne in Hr0 by congruence; eapply Hs2; eauto])).
  specialize (H ltac:(
    intros r0 f defs s Hf [Hs1 Hs2]; split; [exact Hs1|]; cbn; intros r1 f1 a1 Hr1 Hd;
    destruct (decide (r1 = r0)) as [->|Hne];
    [rewrite lookup_insert_eq in Hr1; injection Hr1 as <-; cbn in Hd; eapply Hs2; eauto
    |rewrite lookup_insert_ne in Hr1 by congruence; eapply Hs2; eauto])).
  specialize (H ltac:(intros s r0 f a [Hs1 Hs2] Hf Hd; exact (Hs2 r0 f a Hf Hd))).
  specialize (H ltac:(intros; exact Logic.I)).
  specialize (H ltac:(intros; exact Logic.I)).
  specialize (H ltac:(intros; exact Logic.I)).
  specialize (H (tc fuel)).
  specialize (H ltac:(
    intros e0 c0 He0 Hc0; unfold triple; intros s Hs;
    destruct (tc fuel e0 c0 s) as [r0 s'] eqn:Hr0;
    pose proof (tc_frame
                  _ _ fuel e0 c0 s r0 s' He0 Hc0 Hs Hr0) as Hf;
    destruct r0; split; auto)).
  specialize (H ctx e).
  specialize (H ltac:(
    intros c Hc k0 Hk0; left; unfold properSubIds; apply in_flat_map; eauto)).
  specialize (H ltac:(intros n Hn k0 Hk0; right; left; eauto)).
  specialize (H st ltac:(
    split; [reflexivity|]; intros r0 f a Hf Ha k0 Hk0; right; right; eauto 6)).
  rewrite Hrun in H. destruct r; destruct H as [[H1 _] _]; apply H1; exact Hk.
Qed.

(** C10. A failed run writes no cache entry for its own node, and does not
    roll the cache back. First part: when a run on [e] fails (with anything
    but the model's recursion bound), the node [e] has no entry afterwards,
    provided the id of [e] is not the id of a node the run can reach below
    [e]; and no entry present before is lost. Second part, the builtin type
    cast: when the callee is a builtin type name and all the arguments
    check, a number of arguments other than one makes the call fail with
    [SExprCountMismatch] in the very state the check of the arguments left,
    where the callee and every argument have their entries. *)
Theorem tc_failure_keeps_cache :
  (forall fuel e ctx st f st',
     tc fuel e ctx st = (Err f, st') -> f <> OutOfFuel ->
     ~ reachBelow e ctx st (nodeId e) ->
     typeMap st' !! nodeId e = None
     /\ forall k, is_Some (typeMap st !! k) -> is_Some (typeMap st' !! k))
  /\ (forall fuel i callee args ctx st type st1 argTs st2,
        typeMap st !! i = None ->
        tc fuel callee ctx st = (Ok (SBuiltinTypeNameType type), st1) ->
        mapM (fun arg => tc fuel arg ctx) args st1 = (Ok argTs, st2) ->
        length args <> 1%nat ->
        tc (S fuel) (SFunctionCall i callee args) ctx st
        = (Err (SExprCountMismatch (SFunctionCall i callee args)), st2)
        /\ is_Some (typeMap st2 !! nodeId callee)
        /\ forall arg, In arg args -> is_Some (typeMap st2 !! nodeId arg)).
Proof.
  split.
  - intros fuel e ctx st f st' Hrun Hf Hfresh. split.
    + pose proof (tc_err_uncached _ _ _ _ _ _ Hrun Hf) as Hnone.
      destruct fuel as [|n]; [injection Hrun as <- <-; contradiction|].
      rewrite (tc_uncached _ _ _ _ Hnone) in Hrun.
      destruct (tcDispatch (tc n) e ctx st) as [[t|f0] st1] eqn:Hd; [discriminate|].
      injection Hrun as <- <-.
      rewrite (tcDispatch_frame _ _ _ _ _ _ Hd _ Hfresh). exact Hnone.
    + eapply tc_typeMap_grows; eauto.
  - intros fuel i callee args ctx st type st1 argTs st2 Hnone Hcallee Hargs Hlen.
    split; [|split].
    + rewrite tc_uncached by exact Hnone. cbn [tcDispatch].
      unfold tcFunctionCall. unfold bind at 1. rewrite Hcallee.
      unfold bind at 1. rewrite Hargs.
      apply Nat.eqb_neq in Hlen. rewrite Hlen. reflexivity.
    + eapply mapM_tc_typeMap_grows; [exact Hargs|].
      erewrite tc_ok_cached; eauto.
    + eapply mapM_tc_cached; eauto.
Qed.

End Cache.

(** ** The [using for] directives *)

Section UsingFor.

Context {host : Host}.










End UsingFor.

(** ** Builtin type names against ingestion *)

Section Detectors.

Context {host : Host}.

Lemma stripPrefix_Some p : forall s d, stripPrefix p s = Some d -> s = (p +:+ d)%string.
Proof.
  induction p as [|a p IH]; intros s d; simpl.
  - intros [= <-]. reflexivity.
  - destruct s as [|b s]; [discriminate|].
    destruct (Ascii.eqb a b) eqn:Hab; [|discriminate].
    apply Ascii.eqb_eq in Hab. subst b. intros H. rewrite (IH _ _ H). reflexivity.
Qed.

Lemma stripPrefix_append p : forall q s,
  stripPrefix (p +:+ q)%string (p +:+ s)%string = stripPrefix q s.
Proof.
  induction p as [|a p IH]; intros q s; [reflexivity|].
  change (stripPrefix (String a (p +:+ q)%string) (String a (p +:+ s)%string)
          = stripPrefix q s).
  cbn [stripPrefix]. rewrite Ascii.eqb_refl. apply IH.
Qed.

Lemma isDigit_not_space c : isDigit c = true -> isWhiteSpace c = false.
Proof.
  unfold isDigit, isWhiteSpace. intros H.
  apply andb_true_iff in H. destruct H as [H1 H2].
  apply Nat.leb_le in H1. apply Nat.leb_le in H2.
  apply orb_false_iff. split.
  - apply Nat.eqb_neq. lia.
  - apply andb_false_iff. right. apply Nat.leb_gt. lia.
Qed.

Lemma allDigits_noWhiteSpace d : allDigits d = true -> noWhiteSpace d = true.
Proof.
  induction d as [|c d IH]; simpl; [reflexivity|].
  intros H. apply andb_true_iff in H. destruct H as [H1 H2].
  rewrite (isDigit_not_space _ H1), (IH H2). reflexivity.
Qed.

Lemma trimStart_noWhiteSpace s : noWhiteSpace s = true -> trimStart s = s.
Proof.
  destruct s as [|c s]; simpl; [reflexivity|].
  intros H. apply andb_true_iff in H. destruct H as [H _].
  apply negb_true_iff in H. rewrite H. reflexivity.
Qed.

Lemma revString_noWhiteSpace s : forall acc,
  noWhiteSpace acc = true -> noWhiteSpace s = true ->
  noWhiteSpace (revString acc s) = true.
Proof.
  induction s as [|c s IH]; intros acc Ha Hs; simpl; [exact Ha|].
  simpl in Hs. apply andb_true_iff in Hs. destruct Hs as [Hc Hs].
  apply IH; [|exact Hs]. simpl. rewrite Hc, Ha. reflexivity.
Qed.

Lemma revString_revString s : forall a b,
  revString a (revString b s) = revString (s +:+ a)%string b.
Proof.
  induction s as [|c s IH]; intros a b; simpl; [reflexivity|]. apply IH.
Qed.

Lemma append_empty_r (s : string) : (s +:+ "")%string = s.
Proof.
  induction s as [|c s IH]; [reflexivity|].
  change (String c (s +:+ "")%string = String c s). f_equal. exact IH.
Qed.

Lemma trim_noWhiteSpace s : noWhiteSpace s = true -> trim s = s.
Proof.
  intros H. unfold trim. rewrite (trimStart_noWhiteSpace _ H).
  rewrite trimStart_noWhiteSpace by (apply revString_noWhiteSpace; auto).
  rewrite revString_revString. cbn [revString]. apply append_empty_r.
Qed.

Lemma isDigit_cases c :
  isDigit c = true ->
  isWhiteSpace c = false /\ Ascii.eqb c "-" = false /\ Ascii.eqb c "+" = false
  /\ Ascii.eqb "x" c = false /\ Ascii.eqb "X" c = false.
Proof.
  destruct c as [[] [] [] [] [] [] [] []]; try discriminate; intros _;
    repeat split; reflexivity.
Qed.

Lemma parseInt_digits c d :
  isDigit c = true -> allDigits d = true ->
  parseInt (String c d) = toNumber false (parseDigits 0 (String c d)).
Proof.
  intros Hc Hd. unfold parseInt. cbn [trimStart].
  destruct (isDigit_cases c Hc) as (Hw & Hm & Hp & _).
  rewrite Hw. cbn [startsWith]. rewrite Hm, Hp. cbn [orb].
  assert (Hneg : Ascii.eqb "-" c = false) by (rewrite Ascii.eqb_sym; exact Hm).
  rewrite Hneg.
  assert (Hx : stripPrefix "0x" (String c d) = None
               /\ stripPrefix "0X" (String c d) = None).
  { cbn [stripPrefix]. destruct (Ascii.eqb "0" c); [|split; reflexivity].
    destruct d as [|b d']; [split; reflexivity|].
    cbn [allDigits] in Hd. apply andb_true_iff in Hd. destruct Hd as [Hb _].
    destruct (isDigit_cases b Hb) as (_ & _ & _ & -> & ->). split; reflexivity. }
  destruct Hx as [-> ->]. cbn [startsWith]. rewrite Hc. reflexivity.
Qed.

(** [parseInt] on number literals as they are written: decimal,
    hexadecimal, after white space, up to the first character that is no
    digit, and beyond the integers a double holds exactly. *)
Lemma parseInt_literals :
  parseInt "16" = Num 16
  /\ parseInt "0x10" = Num 16
  /\ parseInt " 16" = Num 16
  /\ parseInt "1e3" = Num 1
  /\ parseInt "0x" = NaN
  /\ parseInt "9007199254740993" = Num 9007199254740992.
Proof. repeat split; vm_compute; reflexivity. Qed.

Lemma groupNotEq_empty g :
  (g = None \/ g = Some "payable") -> groupNotEq g "" = true.
Proof. intros [->| ->]; reflexivity. Qed.

Lemma matchAddressRE_group name g :
  matchAddressRE name = Some g -> g = None \/ g = Some "payable".
Proof.
  unfold matchAddressRE. destruct (stripPrefix "address" name); [|discriminate].
  repeat case_match; intros; simplify_eq; auto.
Qed.

(** On a name that a detector accepts, and that is not an address, the
    ingestion of the elementary type name gives the detected type; on an
    address name, with or without [payable], the detector says payable. *)
Lemma detectors_against_ingestion name stateMutability t :
  findFirst (fun detector => detector name) BuiltinTypeDetectors = Some t ->
  match matchAddressRE name with
  | Some _ => t = SAddressType true
  | None => elementaryToSType name stateMutability = Ok t
  end.
Proof.
  unfold BuiltinTypeDetectors. cbn [findFirst].
  unfold detectBool. destruct (String.eqb name "bool") eqn:Hbool.
  { apply String.eqb_eq in Hbool. subst name. intros [= <-]. reflexivity. }
  unfold detectString. destruct (String.eqb name "string") eqn:Hstring.
  { apply String.eqb_eq in Hstring. subst name. intros [= <-]. reflexivity. }
  unfold detectAddress. destruct (matchAddressRE name) as [g|] eqn:Haddr.
  { intros [= <-]. f_equal. apply groupNotEq_empty. eapply matchAddressRE_group; eauto. }
  unfold detectBytes, matchDetectBytesRE.
  destruct (stripPrefix "bytes" name) as [d|] eqn:Hbytes.
  { apply stripPrefix_Some in Hbytes. subst name.
    destruct (allDigits d) eqn:Hd; simpl.
    - destruct (String.length d <=? 2)%nat; simpl.
      + destruct d as [|c d'].
        * intros [= <-]. reflexivity.
        * simpl String.eqb. cbv iota. pose proof Hd as Hd'. simpl in Hd'.
          apply andb_true_iff in Hd'. destruct Hd' as [Hc Hd'].
          rewrite (parseInt_digits _ _ Hc Hd').
          destruct (toNumber false _) as [width| |negative] eqn:Hw; try discriminate.
          destruct (_ || _); [discriminate|]. intros [= <-].
          unfold elementaryToSType.
          rewrite trim_noWhiteSpace
            by (simpl; rewrite (isDigit_not_space _ Hc), (allDigits_noWhiteSpace _ Hd');
                reflexivity).
          assert (Hm : matchBytesRE ("bytes" +:+ String c d')%string = Some (String c d'))
            by (unfold matchBytesRE; simpl; rewrite Hc, Hd'; reflexivity).
          cbn -[parseInt] in Haddr |- *. rewrite Hm.
          rewrite (parseInt_digits _ _ Hc Hd'), Hw.
          reflexivity.
      + discriminate.
    - discriminate. }
  unfold detectByte. destruct (String.eqb name "byte") eqn:Hbyte.
  { apply String.eqb_eq in Hbyte. subst name. intros [= <-]. reflexivity. }
  unfold detectInt, matchDetectIntRE.
  assert (Hint : forall p isSigned d t',
    (p = "uint" /\ isSigned = false \/ p = "int" /\ isSigned = true) ->
    allDigits d = true ->
    (if String.eqb d "" then Some (SIntType 256 isSigned)
     else
       match parseInt d with
       | Num width =>
           if negb (width mod 8 =? 0)%Z || (width <? 8)%Z || (width >? 256)%Z
           then None
           else Some (SIntType width isSigned)
       | NaN | Infinity _ => None
       end) = Some t' ->
    elementaryToSType (p +:+ d)%string stateMutability = Ok t').
  { intros p isSigned d t' Hp Hd. destruct d as [|c d'].
    - destruct Hp as [[-> ->]|[-> ->]]; intros [= <-]; reflexivity.
    - simpl String.eqb. cbv iota. pose proof Hd as Hd'. simpl in Hd'.
      apply andb_true_iff in Hd'. destruct Hd' as [Hc Hd'].
      rewrite (parseInt_digits _ _ Hc Hd').
      destruct (toNumber false _) as [width| |negative] eqn:Hw; try discriminate.
      destruct (_ || _); [discriminate|]. intros [= <-].
      unfold elementaryToSType.
      assert (Hdigit : forall a, isDigit a = false -> Ascii.eqb a c = false).
      { intros a Ha. apply Ascii.eqb_neq. intros ->. congruence. }
      destruct Hp as [[-> ->]|[-> ->]].
      + rewrite trim_noWhiteSpace
          by (simpl; rewrite (isDigit_not_space _ Hc), (allDigits_noWhiteSpace _ Hd');
              reflexivity).
        assert (Hm : matchIntTypeRE ("uint" +:+ String c d')%string
                     = Some ("u", String c d'))
          by (unfold matchIntTypeRE; simpl; rewrite Hc, Hd'; reflexivity).
        simpl. rewrite Hm. cbn -[parseInt].
        rewrite (parseInt_digits _ _ Hc Hd'), Hw. reflexivity.
      + rewrite trim_noWhiteSpace
          by (simpl; rewrite (isDigit_not_space _ Hc), (allDigits_noWhiteSpace _ Hd');
              reflexivity).
        assert (Hl : matchIntLiteralRE ("int" +:+ String c d')%string = None).
        { unfold matchIntLiteralRE.
          change "int_const" with ("int" +:+ "_const")%string.
          rewrite stripPrefix_append. cbn [stripPrefix].
          rewrite (Hdigit "_"%char Logic.eq_refl). reflexivity. }
        assert (Hm : matchIntTypeRE ("int" +:+ String c d')%string
                     = Some ("", String c d'))
          by (unfold matchIntTypeRE; simpl; rewrite Hc, Hd'; reflexivity).
        simpl. rewrite Hl, Hm. cbn -[parseInt].
        rewrite (parseInt_digits _ _ Hc Hd'), Hw. reflexivity. }
  destruct (stripPrefix "uint" name) as [d|] eqn:Huint.
  { apply stripPrefix_Some in Huint. subst name.
    destruct (allDigits d) eqn:Hd; simpl; [|discriminate].
    destruct (String.length d <=? 3)%nat; simpl; [|discriminate].
    intros Ht. apply (Hint "uint" false d t); [auto|exact Hd|].
    match type of Ht with
    | match ?X with _ => _ end = _ => destruct X; [exact Ht|discriminate]
    end. }
  destruct (stripPrefix "int" name) as [d|] eqn:Hi; [|discriminate].
  apply stripPrefix_Some in Hi. subst name.
  destruct (allDigits d) eqn:Hd; simpl; [|discriminate].
  destruct (String.length d <=? 3)%nat; simpl; [|discriminate].
  intros Ht. apply (Hint "int" true d t); [auto|exact Hd|].
  match type of Ht with
  | match ?X with _ => _ end = _ => destruct X; [exact Ht|discriminate]
  end.
Qed.

End Detectors.

(** ** The rules *)

Section RuleTheorems.

Context {host : Host}.

(** The state after [typeMap.set] for the node with id [i]. *)
Local Abbreviation cached st i t :=
  (mkState (<[i := t]> (typeMap st)) (funSets st) (defSites st)).

(** The state after the def-site of the identifier with id [i] is set. *)
Local Abbreviation stamped st i d :=
  (mkState (typeMap st) (funSets st) (<[i := d]> (defSites st))).

Lemma bind_ok {A B} (m : M A) (k : A -> M B) st a st1 :
  m st = (Ok a, st1) -> bind m k st = k a st1.
Proof. intros H. unfold bind. rewrite H. reflexivity. Qed.

Lemma bind_err {A B} (m : M A) (k : A -> M B) st f st1 :
  m st = (Err f, st1) -> bind m k st = (Err f, st1).
Proof. intros H. unfold bind. rewrite H. reflexivity. Qed.

Lemma last_snoc_scope (ctx : STypingCtx) (scope : SScope) :
  last (ctx ++ [scope]) = Some scope.
Proof. apply last_snoc. Qed.

(** [rmapM] returns a list exactly when [f] returns on every element, and
    the list is then that of the results, position by position. *)
Lemma rmapM_Forall2 {A B} (f : A -> Result B) (l : list A) : forall ys,
  rmapM f l = Ok ys <-> Forall2 (fun x y => f x = Ok y) l ys.
Proof.
  induction l as [|x xs IH]; intros ys; simpl.
  - split.
    + intros [= <-]. constructor.
    + intros H. inversion H. reflexivity.
  - split.
    + destruct (f x) as [y|e] eqn:Hx; simpl; [|discriminate].
      destruct (rmapM f xs) as [ys'|e] eqn:Hxs; simpl; [|discriminate].
      intros [= <-]. constructor; [exact Hx|]. apply IH. reflexivity.
    + intros H. inversion H as [|x0 y l0 ys' Hx Hxs]; subst.
      rewrite Hx. simpl. apply IH in Hxs.
      change (rbind (rmapM f xs) (fun ys0 => Ok (y :: ys0)) = Ok (y :: ys')).
      rewrite Hxs. reflexivity.
Qed.

(** C9. [$result]: on a node that is not cached, the check fails with
    [SInvalidKeyword] when the innermost scope of the context is not a
    function (so also when the context is empty, and when a [let] scope sits
    on top of a function scope) and when it is a function with no return
    parameter; with one return parameter the result is the ingestion of
    its type name; with several, the result is the tuple that has one
    component for each return parameter, in their order, the component of a
    parameter being the ingestion of its type name. *)
Theorem tcResult_rule fuel i ctx st :
  typeMap st !! i = None ->
  let expr := SResult i in
  let out := tc (S fuel) expr ctx st in
  ((forall fn, last ctx <> Some (ScopeFunction fn)) ->
     out = (Err (SInvalidKeyword expr), st))
  /\ (forall ctx0 l, ctx = ctx0 ++ [ScopeLet l] ->
        out = (Err (SInvalidKeyword expr), st))
  /\ (forall fn, last ctx = Some (ScopeFunction fn) -> fd_vReturnParameters fn = [] ->
        out = (Err (SInvalidKeyword expr), st))
  /\ (forall fn param T t,
        last ctx = Some (ScopeFunction fn) -> fd_vReturnParameters fn = [param] ->
        vd_vType param = Some T -> astTypeNameToSType T = Ok t ->
        out = (Ok t, cached st i t))
  /\ (forall fn ts,
        last ctx = Some (ScopeFunction fn) ->
        (2 <= length (fd_vReturnParameters fn))%nat ->
        Forall2 (fun param t =>
                   exists T, vd_vType param = Some T /\ astTypeNameToSType T = Ok t)
          (fd_vReturnParameters fn) ts ->
        out = (Ok (STupleType ts), cached st i (STupleType ts))).
Proof.
  intros Hnone expr out.
  assert (Hout : out =
    match tcResult expr ctx st with
    | (Ok t, st1) => (Ok t, cached st1 i t)
    | (Err f, st1) => (Err f, st1)
    end) by (subst out; rewrite tc_uncached by exact Hnone; reflexivity).
  assert (Hnf : (forall fn, last ctx <> Some (ScopeFunction fn)) ->
                out = (Err (SInvalidKeyword expr), st)).
  { intros Hl. rewrite Hout. unfold tcResult.
    destruct (last ctx) as [[u|c|fn|l]|]; try reflexivity.
    exfalso. apply (Hl fn). reflexivity. }
  split; [exact Hnf|]. split; [|split; [|split]].
  - intros ctx0 l ->. apply Hnf. intros fn. rewrite last_snoc_scope. discriminate.
  - intros fn Hl Hr. rewrite Hout. unfold tcResult. rewrite Hl, Hr. reflexivity.
  - intros fn param T t Hl Hr HT Ht. rewrite Hout. unfold tcResult.
    rewrite Hl, Hr, HT. unfold liftR. rewrite Ht. reflexivity.
  - intros fn ts Hl Hlen Hts. rewrite Hout. unfold tcResult. rewrite Hl.
    assert (Hmap : rmapM (fun param =>
                     match vd_vType param with
                     | None => Err (InternalError "Internal error: return vars should always have a type.")
                     | Some t => astTypeNameToSType t
                     end) (fd_vReturnParameters fn) = Ok ts).
    { apply rmapM_Forall2. eapply Forall2_impl; [exact Hts|].
      intros param t (T & -> & Ht). exact Ht. }
    destruct (fd_vReturnParameters fn) as [|p [|q ps]] eqn:Hr; simpl in Hlen; try lia.
    unfold bind, liftR. rewrite Hmap. reflexivity.
Qed.

Lemma mapM_length {A B} (f : A -> M B) (l : list A) : forall st ys st',
  mapM f l st = (Ok ys, st') -> length ys = length l.
Proof.
  induction l as [|x xs IH]; intros st ys st'; simpl.
  - intros [= <- <-]. reflexivity.
  - unfold bind at 1. destruct (f x st) as [[y|e] st1]; [|discriminate].
    unfold bind at 1. destruct (mapM f xs st1) as [[ys'|e] st2] eqn:Hm; [|discriminate].
    intros [= <- <-]. simpl. f_equal. eapply IH; eauto.
Qed.

(** C8. A call whose callee is the type name of an enum: once the callee
    and the arguments have checked, a number of arguments other than one
    fails with [SExprCountMismatch]; with one argument, the result is a
    pointer to the user-defined type of the enum: when the type of the
    argument is a pointer, in any location, the result has that location;
    when it is any other type, the result has no location. *)
Theorem tcFunctionCall_enum_cast fuel i callee args ctx st e st1 argTs st2 :
  typeMap st !! i = None ->
  tc fuel callee ctx st = (Ok (SUserDefinedTypeNameType (DefEnum e)), st1) ->
  mapM (fun arg => tc fuel arg ctx) args st1 = (Ok argTs, st2) ->
  let call := SFunctionCall i callee args in
  (length args <> 1%nat ->
     tc (S fuel) call ctx st = (Err (SExprCountMismatch call), st2))
  /\ (forall argT, argTs = [argT] ->
        let enumT := SUserDefinedType (getUserDefinedTypeFQName (DefEnum e))
                       (Some (DefEnum e)) in
        (forall to loc, argT = SPointer to loc ->
           tc (S fuel) call ctx st
           = (Ok (SPointer enumT loc), cached st2 i (SPointer enumT loc)))
        /\ ((forall to loc, argT <> SPointer to loc) ->
            tc (S fuel) call ctx st
            = (Ok (SPointer enumT None), cached st2 i (SPointer enumT None)))).
Proof.
  intros Hnone Hcallee Hargs call. pose proof (mapM_length _ _ _ _ _ Hargs) as Hlen.
  assert (Hout : tc (S fuel) call ctx st =
    match tcFunctionCall (tc fuel) call callee args ctx st with
    | (Ok t, s) => (Ok t, cached s i t)
    | (Err f, s) => (Err f, s)
    end) by (rewrite tc_uncached by exact Hnone; reflexivity).
  rewrite Hout. unfold tcFunctionCall. rewrite (bind_ok _ _ _ _ _ Hcallee).
  rewrite (bind_ok _ _ _ _ _ Hargs). split.
  - intros Hne. rewrite Hlen. apply Nat.eqb_neq in Hne.
    unfold bind, throw. rewrite Hne. reflexivity.
  - intros argT ->. cbv zeta. split.
    + intros to loc ->. reflexivity.
    + intros Hnp. destruct argT; try reflexivity.
      exfalso. eapply Hnp. reflexivity.
Qed.

Lemma rfilter_In {A} (g : A -> Result bool) (l : list A) : forall ys,
  rfilter g l = Ok ys -> forall x, In x ys <-> In x l /\ g x = Ok true.
Proof.
  induction l as [|a l IH]; intros ys; simpl.
  - intros [= <-] x. simpl. tauto.
  - destruct (g a) as [keep|f] eqn:Ha; simpl; [|discriminate].
    destruct (rfilter g l) as [ys'|f] eqn:Hl; simpl; [|discriminate].
    intros [= <-] x. specialize (IH _ Logic.eq_refl x).
    destruct keep; simpl; rewrite IH; split.
    + intros [<-|[H1 H2]]; auto.
    + intros [[<-|H1] H2]; auto.
    + intros [H1 H2]; auto.
    + intros [[<-|H1] H2]; [congruence|auto].
Qed.

(** [matchArguments] accepts a function when the numbers of formals and
    actuals agree and every actual casts implicitly to its formal. *)
Lemma matchFormals_Forall2 fs arg argTs formals :
  length argTs = length formals ->
  matchFormals fs arg argTs formals = true <->
  Forall2 (fun argT formalT => isImplicitlyCastable fs (SOtherNode 0) argT formalT = true)
    argTs formals.
Proof.
  revert arg argTs. induction formals as [|p ps IH]; intros arg [|a argTs]; simpl;
    try discriminate.
  - intros _. split; [constructor|reflexivity].
  - intros [= Hlen].
    change (isImplicitlyCastable fs (default (SOtherNode 0) (head arg)) a p)
      with (isImplicitlyCastable fs (SOtherNode 0) a p).
    destruct (isImplicitlyCastable fs (SOtherNode 0) a p) eqn:Hc.
    + rewrite (IH _ _ Hlen). split; [constructor; assumption|].
      intros H. apply Forall2_cons_1 in H. tauto.
    + split; [discriminate|]. intros H. apply Forall2_cons_1 in H.
      destruct H as [H _]. congruence.
Qed.


Lemma matchingDefinitions_In fs args args' argTs defs matching :
  matchingDefinitions fs args args' argTs defs = Ok matching ->
  forall def, In def matching <->
    In def defs
    /\ match def with
       | FSFun fn => matchArguments fs args' argTs (CallableDef fn) = Ok true
       | FSVar _ => args = []
       end.
Proof.
  unfold matchingDefinitions.
  destruct (rfilter _ defs) as [funDefs|f] eqn:Hf; simpl; [|discriminate].
  intros [= <-] def. rewrite in_app_iff, filter_In.
  rewrite (rfilter_In _ _ _ Hf def).
  destruct def as [fn|v].
  - split; [intros [H|[_ H]]; [exact H|discriminate]|auto].
  - split.
    + intros [[_ H]|[H1 H2]]; [discriminate|].
      split; [exact H1|]. destruct args; [reflexivity|discriminate].
    + intros [H1 ->]. right. auto.
Qed.

Lemma matchingDefinitions_err fs args args' argTs defs f :
  matchingDefinitions fs args args' argTs defs = Err f -> isInternal f.
Proof.
  unfold matchingDefinitions. apply rbind_err; [|discriminate].
  apply rfilter_err. intros x f0. destruct x; [apply matchArguments_err|discriminate].
Qed.











Lemma ctxContract_ok ctx contract :
  ctx !! 1%nat = Some (ScopeContract contract) -> ctxContract ctx = Ok contract.
Proof. intros H. unfold ctxContract. rewrite H. reflexivity. Qed.

Lemma findVar_first name l1 v l2 :
  vd_name v = name -> (forall p, In p l1 -> vd_name p <> name) ->
  findVar name (l1 ++ v :: l2) = Some v.
Proof.
  intros Hv. unfold findVar. induction l1 as [|q l1 IH]; intros Hl1; simpl.
  - rewrite Hv, String.eqb_refl. reflexivity.
  - destruct (String.eqb (vd_name q) name) eqn:Hq.
    + apply String.eqb_eq in Hq. exfalso. exact (Hl1 q (or_introl Logic.eq_refl) Hq).
    + apply IH. intros p Hp. apply Hl1. right. exact Hp.
Qed.

Lemma findVar_absent name vars :
  (forall p, In p vars -> vd_name p <> name) -> findVar name vars = None.
Proof.
  unfold findVar. induction vars as [|q vars IH]; intros H; simpl; [reflexivity|].
  destruct (String.eqb (vd_name q) name) eqn:Hq.
  - apply String.eqb_eq in Hq. exfalso. exact (H q (or_introl Logic.eq_refl) Hq).
  - apply IH. intros p Hp. apply H. right. exact Hp.
Qed.

(** C5. The resolution of an identifier [name], in a context whose second
    scope is the contract: the six steps are tried in order and the first
    hit decides.
    - [this]: a storage pointer to the contract; the def-site is [this].
    - a builtin type name: its type name type; the state is unchanged, so
      the identifier gets no def-site.
    - a variable found by [lookupVarDef]: the def-site is the variable,
      whether or not a function of the contract has the same name; a host
      variable has the type of [astVarToSType] (a variable without type is
      [SMissingSolidityType]); a [let] binding has the type of the
      right-hand side, or its component for a tuple of the expected arity.
      What [lookupVarDef] finds in the innermost scope of a context: in a
      function, the first parameter of that name; when no parameter has
      the name, the first return parameter of that name; in a contract, the
      first state variable of that name of the first linearized base that
      has one; a function or contract that declares no variable of the name
      passes the search on to the scopes around it.
    - a function of the contract by name: a new function set; the def-site
      is [function_name].
    - a user-defined type name: its type name type; the def-site is
      [type_name].
    - a builtin symbol: its registered type; the state is unchanged, so
      the identifier gets no def-site.
    [SUnknownId] on the identifier is raised exactly when all six steps
    miss. *)
Theorem tcId_resolution fuel i name ctx contract st :
  ctx !! 1%nat = Some (ScopeContract contract) ->
  let expr := SId i name in
  let out := tcId (tc fuel) expr name ctx st in
  (name = "this" ->
     out = (Ok (SPointer
                  (SUserDefinedType (getUserDefinedTypeFQName (DefContract contract))
                     (Some (DefContract contract)))
                  (Some Storage)),
            stamped st i DSThis))
  /\ (name <> "this" -> forall t, tcIdBuiltinType name = Some t -> out = (Ok t, st))
  /\ (name <> "this" -> tcIdBuiltinType name = None ->
      forall def, lookupVarDef name ctx = Some def ->
        match def with
        | VarDecl v =>
            (vd_vType v = None ->
               out = (Err (SMissingSolidityType expr), stamped st i (DSVar def)))
            /\ (forall t, vd_vType v <> None -> astVarToSType v None = Ok t ->
                  out = (Ok t, stamped st i (DSVar def)))
        | LetBinding l bindingIdx =>
            forall rhsT st1,
              tc fuel (let_rhs l) ctx (stamped st i (DSVar def)) = (Ok rhsT, st1) ->
              ((length (let_lhs l) <= 1)%nat -> out = (Ok rhsT, st1))
              /\ (forall elements,
                    (1 < length (let_lhs l))%nat -> rhsT = STupleType elements ->
                    length elements = length (let_lhs l) ->
                    exists t, elements !! bindingIdx = Some t /\ out = (Ok t, st1))
        end)
  /\ (forall ctx0 fn,
        (forall l1 v l2,
           fd_vParameters fn = l1 ++ v :: l2 ->
           vd_name v = name -> (forall p, In p l1 -> vd_name p <> name) ->
           lookupVarDef name (ctx0 ++ [ScopeFunction fn]) = Some (VarDecl v))
        /\ (forall l1 v l2,
              (forall p, In p (fd_vParameters fn) -> vd_name p <> name) ->
              fd_vReturnParameters fn = l1 ++ v :: l2 ->
              vd_name v = name -> (forall p, In p l1 -> vd_name p <> name) ->
              lookupVarDef name (ctx0 ++ [ScopeFunction fn]) = Some (VarDecl v))
        /\ ((forall p, In p (fd_vParameters fn ++ fd_vReturnParameters fn) ->
                       vd_name p <> name) ->
            lookupVarDef name (ctx0 ++ [ScopeFunction fn]) = lookupVarDef name ctx0))
  /\ (forall ctx0 c,
        (forall bs1 b bs2 l1 v l2,
           vLinearizedBaseContracts c = bs1 ++ b :: bs2 ->
           (forall b' p, In b' bs1 -> In p (cd_vStateVariables b') -> vd_name p <> name) ->
           cd_vStateVariables b = l1 ++ v :: l2 ->
           vd_name v = name -> (forall p, In p l1 -> vd_name p <> name) ->
           lookupVarDef name (ctx0 ++ [ScopeContract c]) = Some (VarDecl v))
        /\ ((forall b p, In b (vLinearizedBaseContracts c) ->
                         In p (cd_vStateVariables b) -> vd_name p <> name) ->
            lookupVarDef name (ctx0 ++ [ScopeContract c]) = lookupVarDef name ctx0))
  /\ (name <> "this" -> tcIdBuiltinType name = None -> lookupVarDef name ctx = None ->
      resolveByName contract name <> [] ->
      out = (Ok (SFunctionSetType (fresh (dom (funSets st)))),
             mkState (typeMap st)
               (<[fresh (dom (funSets st)) :=
                    mkFunctionSet (map FSFun (resolveByName contract name)) None]>
                  (funSets st))
               (<[i := DSFunctionName]> (defSites st))))
  /\ (name <> "this" -> tcIdBuiltinType name = None -> lookupVarDef name ctx = None ->
      resolveByName contract name = [] ->
      forall userDef, resolveTypeDef ctx name = Some userDef ->
      out = (Ok (SUserDefinedTypeNameType userDef), stamped st i DSTypeName))
  /\ (name <> "this" -> tcIdBuiltinType name = None -> lookupVarDef name ctx = None ->
      resolveByName contract name = [] -> resolveTypeDef ctx name = None ->
      forall t, tcIdBuiltin name = Some t -> out = (Ok t, st))
  /\ ((exists st', out = (Err (SUnknownId expr), st')) <-> allStepsMiss name ctx contract).
Proof.
  intros Hctx expr out. apply ctxContract_ok in Hctx.
  assert (Hthis : name = "this" ->
     out = (Ok (SPointer
                  (SUserDefinedType (getUserDefinedTypeFQName (DefContract contract))
                     (Some (DefContract contract)))
                  (Some Storage)),
            stamped st i DSThis)).
  { intros ->. subst out. unfold tcId. simpl String.eqb. cbv iota.
    unfold bind, liftR. rewrite Hctx. reflexivity. }
  assert (Hnot : name <> "this" -> String.eqb name "this" = false)
    by (intros H; apply String.eqb_neq; exact H).
  assert (Hmiss : name <> "this" -> tcIdBuiltinType name = None ->
    lookupVarDef name ctx = None ->
    out =
      (if (0 <? length (resolveByName contract name))%nat then
         bind (setDefSite expr DSFunctionName)
           (fun _ => newFunctionSet (map FSFun (resolveByName contract name)) None) st
       else
         match resolveTypeDef ctx name with
         | Some userDef =>
             (Ok (SUserDefinedTypeNameType userDef), stamped st i DSTypeName)
         | None =>
             match tcIdBuiltin name with
             | Some t => (Ok t, st)
             | None => (Err (SUnknownId expr), st)
             end
         end)).
  { intros H1 H2 H3. subst out. unfold tcId. rewrite (Hnot H1), H2.
    unfold tcIdVariable. rewrite H3. unfold bind at 1. unfold ret at 1.
    unfold bind at 1. unfold liftR at 1. rewrite Hctx.
    destruct (0 <? length (resolveByName contract name))%nat; [reflexivity|].
    destruct (resolveTypeDef ctx name); [reflexivity|].
    destruct (tcIdBuiltin name); reflexivity. }
  assert (Hlen0 : resolveByName contract name = [] ->
                  (0 <? length (resolveByName contract name))%nat = false)
    by (intros ->; reflexivity).
  assert (Hlen1 : resolveByName contract name <> [] ->
                  (0 <? length (resolveByName contract name))%nat = true)
    by (destruct (resolveByName contract name); [congruence|reflexivity]).
  assert (Hbt : name <> "this" -> forall t, tcIdBuiltinType name = Some t ->
                out = (Ok t, st)).
  { intros H1 t H2. subst out. unfold tcId. rewrite (Hnot H1), H2. reflexivity. }
  assert (Hsome : name <> "this" -> tcIdBuiltinType name = None -> forall t s,
    tcIdVariable (tc fuel) expr name ctx st = (Ok (Some t), s) -> out = (Ok t, s)).
  { intros H1 H2 t s Hrun. subst out. unfold tcId. rewrite (Hnot H1), H2.
    rewrite (bind_ok _ _ _ _ _ Hrun). reflexivity. }
  assert (Herr : name <> "this" -> tcIdBuiltinType name = None -> forall f s,
    tcIdVariable (tc fuel) expr name ctx st = (Err f, s) -> out = (Err f, s)).
  { intros H1 H2 f s Hrun. subst out. unfold tcId. rewrite (Hnot H1), H2.
    rewrite (bind_err _ _ _ _ _ Hrun). reflexivity. }
  assert (Hof : forall ctx0 fn,
        (forall l1 v l2,
           fd_vParameters fn = l1 ++ v :: l2 ->
           vd_name v = name -> (forall p, In p l1 -> vd_name p <> name) ->
           lookupVarDef name (ctx0 ++ [ScopeFunction fn]) = Some (VarDecl v))
        /\ (forall l1 v l2,
              (forall p, In p (fd_vParameters fn) -> vd_name p <> name) ->
              fd_vReturnParameters fn = l1 ++ v :: l2 ->
              vd_name v = name -> (forall p, In p l1 -> vd_name p <> name) ->
              lookupVarDef name (ctx0 ++ [ScopeFunction fn]) = Some (VarDecl v))
        /\ ((forall p, In p (fd_vParameters fn ++ fd_vReturnParameters fn) ->
                       vd_name p <> name) ->
            lookupVarDef name (ctx0 ++ [ScopeFunction fn]) = lookupVarDef name ctx0)).
  { intros ctx0 fn. rewrite lookupVarDef_snoc. cbn [lookupVarDefStep].
    split; [|split].
    - intros l1 v l2 Hp Hv Hl1. rewrite Hp, (findVar_first _ _ _ _ Hv Hl1). reflexivity.
    - intros l1 v l2 Hno Hr Hv Hl1.
      rewrite (findVar_absent _ _ Hno), Hr, (findVar_first _ _ _ _ Hv Hl1). reflexivity.
    - intros Hno. rewrite !findVar_absent; [reflexivity| |].
      + intros p Hp. apply Hno. apply in_or_app. right. exact Hp.
      + intros p Hp. apply Hno. apply in_or_app. left. exact Hp. }
  assert (Hoc : forall ctx0 c,
        (forall bs1 b bs2 l1 v l2,
           vLinearizedBaseContracts c = bs1 ++ b :: bs2 ->
           (forall b' p, In b' bs1 -> In p (cd_vStateVariables b') -> vd_name p <> name) ->
           cd_vStateVariables b = l1 ++ v :: l2 ->
           vd_name v = name -> (forall p, In p l1 -> vd_name p <> name) ->
           lookupVarDef name (ctx0 ++ [ScopeContract c]) = Some (VarDecl v))
        /\ ((forall b p, In b (vLinearizedBaseContracts c) ->
                         In p (cd_vStateVariables b) -> vd_name p <> name) ->
            lookupVarDef name (ctx0 ++ [ScopeContract c]) = lookupVarDef name ctx0)).
  { intros ctx0 c. rewrite lookupVarDef_snoc. cbn [lookupVarDefStep]. split.
    - intros bs1 b bs2 l1 v l2 Hb Hbs1 Hvars Hv Hl1.
      rewrite Hb, flat_map_app. cbn [flat_map]. rewrite Hvars.
      rewrite <- (List.app_assoc l1 (v :: l2)), List.app_assoc.
      rewrite <- List.app_comm_cons.
      rewrite (findVar_first name (flat_map cd_vStateVariables bs1 ++ l1) v _ Hv);
        [reflexivity|].
      intros p Hp. apply in_app_or in Hp. destruct Hp as [Hp|Hp]; [|exact (Hl1 p Hp)].
      apply in_flat_map in Hp. destruct Hp as (b' & Hb' & Hp). exact (Hbs1 b' p Hb' Hp).
    - intros Hno. rewrite findVar_absent; [reflexivity|].
      intros p Hp. apply in_flat_map in Hp. destruct Hp as (b & Hb & Hp).
      exact (Hno b p Hb Hp). }
  split; [exact Hthis|]. split; [exact Hbt|].
  split; [|split; [exact Hof|split; [exact Hoc|split; [|split; [|split]]]]].
  - intros H1 H2 def H3. specialize (Hsome H1 H2). specialize (Herr H1 H2).
    destruct def as [v|l bindingIdx].
    + split.
      * intros Hv. apply Herr. unfold tcIdVariable. rewrite H3.
        unfold bind, setDefSite. rewrite Hv. reflexivity.
      * intros t Hv Ht. apply Hsome. unfold tcIdVariable. rewrite H3.
        unfold bind, setDefSite, liftR. destruct (vd_vType v); [|congruence].
        rewrite Ht. reflexivity.
    + intros rhsT st1 Hrhs. split.
      * intros Hle. apply Hsome. unfold tcIdVariable. rewrite H3.
        unfold bind at 1. unfold setDefSite at 1. cbn [nodeId expr].
        rewrite (bind_ok _ _ _ _ _ Hrhs).
        assert ((1 <? length (let_lhs l))%nat = false) as -> by (apply Nat.ltb_ge; lia).
        reflexivity.
      * intros elements Hlt -> Hlen.
        destruct (lookupVarDef_let _ _ _ _ H3) as [_ Hidx].
        destruct (elements !! bindingIdx) as [t|] eqn:Hel;
          [|apply lookup_ge_None in Hel; lia].
        exists t. split; [reflexivity|].
        apply Hsome. unfold tcIdVariable. rewrite H3.
        unfold bind at 1. unfold setDefSite at 1. cbn [nodeId expr].
        rewrite (bind_ok _ _ _ _ _ Hrhs).
        assert ((1 <? length (let_lhs l))%nat = true) as -> by (apply Nat.ltb_lt; lia).
        assert ((length elements =? length (let_lhs l))%nat = true) as ->
          by (apply Nat.eqb_eq; exact Hlen).
        unfold ret. rewrite Hel. reflexivity.
  - intros H1 H2 H3 H4. rewrite (Hmiss H1 H2 H3), (Hlen1 H4). reflexivity.
  - intros H1 H2 H3 H4 userDef H5. rewrite (Hmiss H1 H2 H3), (Hlen0 H4), H5.
    reflexivity.
  - intros H1 H2 H3 H4 H5 t H6. rewrite (Hmiss H1 H2 H3), (Hlen0 H4), H5, H6.
    reflexivity.
  - split.
    + intros [st' Hout].
      destruct (decide (name = "this")) as [Ht|Ht];
        [rewrite (Hthis Ht) in Hout; discriminate|].
      destruct (tcIdBuiltinType name) as [t|] eqn:Hb;
        [rewrite (Hbt Ht t Logic.eq_refl) in Hout; discriminate|].
      specialize (Hsome Ht Logic.eq_refl). specialize (Herr Ht Logic.eq_refl).
      destruct (lookupVarDef name ctx) as [def|] eqn:Hv.
      { exfalso.
        destruct (tcIdVariable (tc fuel) expr name ctx st) as [[[t|]|f] s] eqn:Hrun.
        - rewrite (Hsome _ _ Logic.eq_refl) in Hout. discriminate.
        - pose proof (tcIdVariable_triple (fun _ => True) (fun _ => True)
            (fun _ _ => True)) as Htr.
          specialize (Htr ltac:(intros; exact Logic.I)).
          specialize (Htr ltac:(intros; exact Logic.I)).
          specialize (Htr (tc fuel)).
          specialize (Htr ltac:(
            intros e0 c0 _ _ s0 _; destruct (tc fuel e0 c0 s0) as [[]]; auto)).
          specialize (Htr ctx i name ltac:(intros n _; exact Logic.I) st Logic.I).
          fold expr in Htr. rewrite Hrun in Htr. destruct Htr as [_ Htr].
          rewrite (Htr Logic.eq_refl) in Hv. discriminate.
        - rewrite (Herr _ _ Logic.eq_refl) in Hout. injection Hout as -> <-.
          revert Hrun. unfold tcIdVariable. rewrite Hv.
          unfold bind at 1. unfold setDefSite at 1.
          destruct def as [v|l bindingIdx].
          + destruct (vd_vType v); [|discriminate].
            unfold bind, liftR. destruct (astVarToSType v None) as [ty|f0] eqn:Hf;
              [discriminate|].
            intros [= -> <-]. apply astVarToSType_err in Hf. destruct Hf; discriminate.
          + unfold bind at 1.
            destruct (tc fuel (let_rhs l) ctx _) as [[rhsT|f] s1] eqn:Hrhs.
            * repeat case_match; discriminate.
            * intros [= -> <-]. apply tc_unknownId in Hrhs.
              rewrite (Hrhs i name Logic.eq_refl) in Hv. discriminate. }
      rewrite (Hmiss Ht Logic.eq_refl Logic.eq_refl) in Hout.
      destruct (resolveByName contract name) as [|fn fns] eqn:Hf; [|discriminate].
      simpl in Hout.
      destruct (resolveTypeDef ctx name) eqn:Hty; [discriminate|].
      destruct (tcIdBuiltin name) eqn:Hsym; [discriminate|].
      repeat split; assumption.
    + intros (H1 & H2 & H3 & H4 & H5 & H6). exists st.
      rewrite (Hmiss H1 H2 H3), (Hlen0 H4), H5, H6. reflexivity.
Qed.




End RuleTheorems.

(** ** Specialization and despecialization of a flat template *)

Lemma specializeType_value t L : valueTemplate t = true -> specializeType t L = Ok t.
Proof.
  destruct t; simpl; try discriminate; try reflexivity.
  destruct definition as [[]|]; try discriminate; reflexivity.
Qed.

(** On a template with no reference type below its top,
    [despecializeType] undoes [specializeType]. *)
Lemma despecialize_specialize_flat T L t :
  flatTemplate T = true -> specializeType T L = Ok t -> despecializeType t = T.
Proof.
  destruct T; simpl; try discriminate; try (intros _ [= <-]; reflexivity).
  - intros Hv. rewrite (specializeType_value _ _ Hv). simpl. intros [= <-]. reflexivity.
  - intros Hv. apply andb_true_iff in Hv. destruct Hv as [Hk Hv].
    rewrite (specializeType_value _ _ Hk), (specializeType_value _ _ Hv). simpl.
    intros [= <-]. reflexivity.
  - intros _. destruct definition as [[]|]; intros [= <-]; reflexivity.
Qed.

(** ** The sample program: the rules at work *)

Module SampleFacts.

Import Sample.

#[local] Existing Instance host.

(** C1. [uint8[][]], the type of [sNestedArr]: its storage specialization
    wraps the inner array in a pointer too, and [despecializeType] strips
    the outer pointer only, so the round trip does not give the type back
    (it differs from it under structural equality); the same happens for a
    mapping whose value is [bytes]. *)
Theorem despecialize_specialize_nested :
  let T := SArrayType (SArrayType (SIntType 8 false) None) None in
  let M := SMappingType (SIntType 256 false) SBytes in
  @astTypeNameToSType host (ArrayTypeName (ArrayTypeName (elem "uint8") None) None) = Ok T
  /\ @astTypeNameToSType host (Mapping (elem "uint256") (elem "bytes")) = Ok M
  /\ (forall L,
        rbind (specializeType T L) (fun t => Ok (despecializeType t))
        = Ok (SArrayType (SPointer (SArrayType (SIntType 8 false) None) (Some L)) None))
  /\ (forall L fs,
        eq fs (SArrayType (SPointer (SArrayType (SIntType 8 false) None) (Some L)) None) T
        = false)
  /\ (forall L,
        rbind (specializeType M L) (fun t => Ok (despecializeType t))
        = Ok (SMappingType (SIntType 256 false) (SPointer SBytes (Some Storage))))
  /\ (forall fs,
        eq fs (SMappingType (SIntType 256 false) (SPointer SBytes (Some Storage))) M = false).
Proof.
  repeat split; try reflexivity.
Qed.

(** C2. [$result] in [getBytes], which returns [bytes memory], has the type
    [bytes] outside any pointer; the cast [FooEnum(1)] has a pointer to the
    enum, with no location: neither type is well formed. *)
Theorem tc_result_not_wellFormed :
  fst (tc 1 (SResult 1) (ctxIn getBytes) st0) = Ok SBytes
  /\ wellFormed SBytes = false
  /\ fst (tc 3 (SFunctionCall 1 (SId 2 "FooEnum") [SNumber 3 1]) ctxFoo st0)
     = Ok (SPointer (SUserDefinedType "Foo.FooEnum" (Some (DefEnum FooEnum))) None)
  /\ wellFormed (SPointer (SUserDefinedType "Foo.FooEnum" (Some (DefEnum FooEnum))) None)
     = false.
Proof. repeat split; vm_compute; reflexivity. Qed.

(** C7. The identifier [address] is detected as a payable address, where
    ingestion of the type name [address] gives a non-payable one; [address
    payable] is payable for both, and the out-of-range names are rejected. *)
Theorem detect_address_payable :
  tcIdBuiltinType "address" = Some (SBuiltinTypeNameType (SAddressType true))
  /\ @astTypeNameToSType host (ElementaryTypeName "address" "nonpayable")
     = Ok (SAddressType false)
  /\ tcIdBuiltinType "address payable" = Some (SBuiltinTypeNameType (SAddressType true))
  /\ @astTypeNameToSType host (ElementaryTypeName "address payable" "payable")
     = Ok (SAddressType true)
  /\ tcIdBuiltinType "bytes33" = None
  /\ tcIdBuiltinType "int264" = None
  /\ tcIdBuiltinType "uint255" = None.
Proof. repeat split; vm_compute; reflexivity. Qed.

(** The state a run leaves. *)
Local Abbreviation after fuel e ctx := (snd (tc fuel e ctx st0)).

(** [sBy[1]] is checked once; checked again, the cached type comes back
    and the state stays. *)
Lemma tc_cache_stable_witness :
  let e := SIndexAccess 1 (SId 2 "sBy") (SNumber 3 1) in
  tc 3 e ctxFoo st0 = (Ok (SIntType 8 false), after 3 e ctxFoo)
  /\ typeMap (after 3 e ctxFoo) !! 1%nat = Some (SIntType 8 false)
  /\ forall fuel',
       tc (S fuel') e ctxFoo (after 3 e ctxFoo)
       = (Ok (SIntType 8 false), after 3 e ctxFoo).
Proof.
  intros e.
  assert (Hrun : tc 3 e ctxFoo st0 = (Ok (SIntType 8 false), after 3 e ctxFoo))
    by (vm_compute; reflexivity).
  split; [exact Hrun|].
  destruct (tc_cache_stable (host := host) 3 e ctxFoo st0 _ _ Hrun) as (_ & H & _ & _).
  exact (H _ Logic.eq_refl).
Defined.

(** [uint256(1, 2)] fails on the number of arguments; the call has no
    entry, the callee and both arguments keep theirs. *)
Lemma tc_failure_keeps_cache_witness :
  let callee := SId 2 "uint256" in
  let args := [SNumber 3 1; SNumber 4 2] in
  let call := SFunctionCall 1 callee args in
  tc 2 call ctxFoo st0 = (Err (SExprCountMismatch call), after 2 call ctxFoo)
  /\ typeMap (after 2 call ctxFoo) !! 1%nat = None
  /\ is_Some (typeMap (after 2 call ctxFoo) !! 2%nat)
  /\ is_Some (typeMap (after 2 call ctxFoo) !! 3%nat)
  /\ is_Some (typeMap (after 2 call ctxFoo) !! 4%nat).
Proof.
  intros callee args call.
  assert (Hrun : tc 2 call ctxFoo st0
                 = (Err (SExprCountMismatch call), after 2 call ctxFoo))
    by (vm_compute; reflexivity).
  destruct (tc_failure_keeps_cache (host := host)) as [Hfail Hcast].
  split; [exact Hrun|]. split.
  - apply (Hfail 2%nat call ctxFoo st0 _ _ Hrun); [discriminate|].
    intros [H|[(n & [] & _)|(r & f & a & H & _)]].
    + vm_compute in H. intuition discriminate.
    + unfold st0 in H. cbn [funSets] in H. rewrite lookup_empty in H. discriminate.
  - assert (Hcallee : tc 1 callee ctxFoo st0
                      = (Ok (SBuiltinTypeNameType (SIntType 256 false)),
                         after 1 callee ctxFoo)) by (vm_compute; reflexivity).
    assert (Hargs : mapM (fun arg => tc 1 arg ctxFoo) args (after 1 callee ctxFoo)
                    = (Ok [SIntLiteralType; SIntLiteralType], after 2 call ctxFoo))
      by (vm_compute; reflexivity).
    destruct (Hcast 1%nat 1%nat callee args ctxFoo st0 _ _ _ _
                Logic.eq_refl Hcallee Hargs ltac:(discriminate)) as (_ & H2 & H3).
    split; [exact H2|].
    split; [apply (H3 (SNumber 3 1))|apply (H3 (SNumber 4 2))]; simpl; auto.
Defined.

(** [$result] in [add] is the ingestion of [uint64]; in [idPair], which
    returns [(uint, uint)], it is the pair of the ingestions of [uint] and
    [uint]. *)
Lemma tcResult_rule_witness :
  let pair := STupleType [SIntType 256 false; SIntType 256 false] in
  typeMap st0 !! 1%nat = None
  /\ tc 1 (SResult 1) (ctxIn add) st0
     = (Ok (SIntType 64 false), mkState (<[1%nat := SIntType 64 false]> ∅) ∅ ∅)
  /\ tc 1 (SResult 1) (ctxIn idPair) st0
     = (Ok pair, mkState (<[1%nat := pair]> ∅) ∅ ∅).
Proof.
  intros pair. split; [reflexivity|]. split.
  - destruct (tcResult_rule (host := host) 0 1 (ctxIn add) st0 Logic.eq_refl)
      as (_ & _ & _ & H & _).
    apply (H add (var 403 "add" (elem "uint64") Default 40) (elem "uint64"));
      reflexivity.
  - destruct (tcResult_rule (host := host) 0 1 (ctxIn idPair) st0 Logic.eq_refl)
      as (_ & _ & _ & _ & H).
    apply (H idPair [SIntType 256 false; SIntType 256 false]).
    + reflexivity.
    + simpl. lia.
    + repeat constructor; exists (elem "uint256"); split; reflexivity.
Defined.

(** Three casts to [FooEnum]: of the storage pointer [sBy], the result is
    in storage; of the struct [SFoo(1)], which is in memory, the result is
    in memory; of the literal [1], whose type is no pointer, the result has
    no location. *)
Lemma tcFunctionCall_enum_cast_witness :
  let callee := SId 2 "FooEnum" in
  let enumT := SUserDefinedType "Foo.FooEnum" (Some (DefEnum FooEnum)) in
  let fromStorage := SFunctionCall 1 callee [SId 3 "sBy"] in
  let fromMemory :=
    SFunctionCall 1 callee [SFunctionCall 3 (SId 4 "SFoo") [SNumber 5 1]] in
  let fromLiteral := SFunctionCall 1 callee [SNumber 3 1] in
  tc 3 callee ctxFoo st0
  = (Ok (SUserDefinedTypeNameType (DefEnum FooEnum)), after 3 callee ctxFoo)
  /\ fst (tc 4 fromStorage ctxFoo st0) = Ok (SPointer enumT (Some Storage))
  /\ fst (tc 4 fromMemory ctxFoo st0) = Ok (SPointer enumT (Some Memory))
  /\ fst (tc 4 fromLiteral ctxFoo st0) = Ok (SPointer enumT None).
Proof.
  intros callee enumT fromStorage fromMemory fromLiteral.
  assert (Hcallee : tc 3 callee ctxFoo st0
                    = (Ok (SUserDefinedTypeNameType (DefEnum FooEnum)),
                       after 3 callee ctxFoo)) by (vm_compute; reflexivity).
  split; [exact Hcallee|]. split; [|split].
  - assert (Hargs : mapM (fun arg => tc 3 arg ctxFoo) [SId 3 "sBy"]
                      (after 3 callee ctxFoo)
                    = (Ok [SPointer SBytes (Some Storage)],
                       snd (mapM (fun arg => tc 3 arg ctxFoo) [SId 3 "sBy"]
                              (after 3 callee ctxFoo))))
      by (vm_compute; reflexivity).
    destruct (tcFunctionCall_enum_cast (host := host) 3 1 callee _ ctxFoo st0 _ _ _ _
                Logic.eq_refl Hcallee Hargs) as [_ H].
    destruct (H _ Logic.eq_refl) as [H1 _].
    exact (f_equal fst (H1 _ _ Logic.eq_refl)).
  - assert (Hargs : mapM (fun arg => tc 3 arg ctxFoo)
                      [SFunctionCall 3 (SId 4 "SFoo") [SNumber 5 1]]
                      (after 3 callee ctxFoo)
                    = (Ok [SPointer (SUserDefinedType "Foo.SFoo" (Some (DefStruct SFoo)))
                             (Some Memory)],
                       snd (mapM (fun arg => tc 3 arg ctxFoo)
                              [SFunctionCall 3 (SId 4 "SFoo") [SNumber 5 1]]
                              (after 3 callee ctxFoo))))
      by (vm_compute; reflexivity).
    destruct (tcFunctionCall_enum_cast (host := host) 3 1 callee _ ctxFoo st0 _ _ _ _
                Logic.eq_refl Hcallee Hargs) as [_ H].
    destruct (H _ Logic.eq_refl) as [H1 _].
    exact (f_equal fst (H1 _ _ Logic.eq_refl)).
  - assert (Hargs : mapM (fun arg => tc 3 arg ctxFoo) [SNumber 3 1]
                      (after 3 callee ctxFoo)
                    = (Ok [SIntLiteralType],
                       snd (mapM (fun arg => tc 3 arg ctxFoo) [SNumber 3 1]
                              (after 3 callee ctxFoo))))
      by (vm_compute; reflexivity).
    destruct (tcFunctionCall_enum_cast (host := host) 3 1 callee _ ctxFoo st0 _ _ _ _
                Logic.eq_refl Hcallee Hargs) as [_ H].
    destruct (H _ Logic.eq_refl) as [_ H2].
    exact (f_equal fst (H2 ltac:(discriminate))).
Defined.



(** In [add], the name [add] is no parameter, it is the return variable
    and a function of the contract: the identifier resolves to the return
    variable. The name [sV] is declared by neither the parameters nor the
    returns of [add]; it is a state variable of [Foo], the only linearized
    base, and the identifier resolves to it. *)
Lemma tcId_resolution_witness :
  let v := var 403 "add" (elem "uint64") Default 40 in
  let sV := var 10 "sV" (elem "uint256") Default 1 in
  ctxIn add !! 1%nat = Some (ScopeContract Foo)
  /\ @lookupVarDef host "add" (ctxIn add) = Some (VarDecl v)
  /\ functionsByName Foo "add" = [add]
  /\ tcId (tc 0) (SId 1 "add") "add" (ctxIn add) st0
     = (Ok (SIntType 64 false), mkState ∅ ∅ (<[1%nat := DSVar (VarDecl v)]> ∅))
  /\ @lookupVarDef host "sV" (ctxIn add) = Some (VarDecl sV)
  /\ tcId (tc 0) (SId 1 "sV") "sV" (ctxIn add) st0
     = (Ok (SIntType 256 false), mkState ∅ ∅ (<[1%nat := DSVar (VarDecl sV)]> ∅)).
Proof.
  intros v sV. split; [reflexivity|].
  destruct (tcId_resolution (host := host) 0 1 "add" (ctxIn add) Foo st0 Logic.eq_refl)
    as (_ & _ & H & Hof & _).
  assert (Hadd : @lookupVarDef host "add" (ctxIn add) = Some (VarDecl v)).
  { apply (proj1 (proj2 (Hof [ScopeUnits [unit]; ScopeContract Foo] add)) [] v []).
    - intros p [<-|[<-|[]]]; discriminate.
    - reflexivity.
    - reflexivity.
    - intros p []. }
  split; [exact Hadd|]. split; [reflexivity|]. split.
  { specialize (H ltac:(discriminate) Logic.eq_refl (VarDecl v) Hadd).
    destruct H as [_ H]. apply H; [discriminate|reflexivity]. }
  destruct (tcId_resolution (host := host) 0 1 "sV" (ctxIn add) Foo st0 Logic.eq_refl)
    as (_ & _ & H' & Hof' & Hoc' & _).
  assert (HsV : @lookupVarDef host "sV" (ctxIn add) = Some (VarDecl sV)).
  { change (ctxIn add) with ([ScopeUnits [unit]; ScopeContract Foo] ++ [ScopeFunction add]).
    rewrite (proj2 (proj2 (Hof' [ScopeUnits [unit]; ScopeContract Foo] add))).
    - apply (proj1 (Hoc' [ScopeUnits [unit]] Foo) [] Foo [] [] sV
               (tl (cd_vStateVariables Foo))).
      + reflexivity.
      + intros b' p [].
      + reflexivity.
      + reflexivity.
      + intros p [].
    - intros p [<-|[<-|[<-|[]]]]; discriminate. }
  split; [exact HsV|].
  specialize (H' ltac:(discriminate) Logic.eq_refl (VarDecl sV) HsV).
  destruct H' as [_ H']. apply H'; [discriminate|reflexivity].
Defined.

(** C5, the claim as stated, on the identifiers [uint256] and [gasleft]:
    the first hit is the builtin type name, for the one, and the builtin
    symbol, for the other; the check returns their types, and the identifier
    is left without a def-site. *)
Lemma tcId_builtin_counterexample :
  let typeName := SId 1 "uint256" in
  let symbol := SId 1 "gasleft" in
  fst (tc 1 typeName ctxFoo st0) = Ok (SBuiltinTypeNameType (SIntType 256 false))
  /\ defSites (snd (tc 1 typeName ctxFoo st0)) !! 1%nat = None
  /\ fst (tc 1 symbol ctxFoo st0)
     = Ok (SFunctionType [] [SIntType 256 false] VisDefault View)
  /\ defSites (snd (tc 1 symbol ctxFoo st0)) !! 1%nat = None.
Proof. repeat split; vm_compute; reflexivity. Qed.



End SampleFacts.

(** * Further properties of the code *)

(** ** Ingestion, specialization and the location of a variable *)

Section Ingestion.

Context {host : Host}.

Lemma specializeType_wf T : forall L t, specializeType T L = Ok t -> wellFormed t = true.
Proof.
  induction T; intros L t; simpl; try discriminate; try (intros [= <-]; reflexivity).
  - destruct (specializeType T L) as [e|] eqn:He; simpl; [|discriminate].
    intros [= <-]. simpl. eauto.
  - destruct (specializeType T1 Memory) as [k|] eqn:Hk; simpl; [|discriminate].
    destruct (specializeType T2 Storage) as [v|] eqn:Hv; simpl; [|discriminate].
    intros [= <-]. simpl. rewrite (IHT1 _ _ Hk), (IHT2 _ _ Hv). reflexivity.
  - destruct definition as [[]|]; try discriminate; intros [= <-]; reflexivity.
Qed.

Lemma astVarToSType_Ok v baseLoc t :
  astVarToSType v baseLoc = Ok t ->
  exists T type loc,
    vd_vType v = Some T /\ astTypeNameToSType T = Ok type
    /\ getVarLocation v baseLoc = Ok loc /\ specializeType type loc = Ok t.
Proof.
  destruct v as [i n vt sl sc vis par]. cbn [astVarToSType vd_vType].
  destruct vt as [T|]; [|discriminate].
  destruct (astTypeNameToSType T) as [type|] eqn:HT; simpl; [|discriminate].
  destruct (getVarLocation _ baseLoc) as [loc|] eqn:Hl; simpl; [|discriminate].
  intros H. exists T, type, loc. auto.
Qed.

Lemma astVarToSType_wf v baseLoc t :
  astVarToSType v baseLoc = Ok t -> wellFormed t = true.
Proof.
  intros H. apply astVarToSType_Ok in H.
  destruct H as (T & type & loc & _ & _ & _ & H). eapply specializeType_wf; eauto.
Qed.

(** X1. The type of a variable is well formed: whatever [specializeType]
    returns, and so whatever [astVarToSType] returns for a declaration of
    the host program, has its reference types inside pointers and nothing
    else inside a pointer. *)
Theorem variable_types_wellFormed :
  (forall T L t, specializeType T L = Ok t -> wellFormed t = true)
  /\ (forall v baseLoc t, astVarToSType v baseLoc = Ok t -> wellFormed t = true).
Proof. split; [exact specializeType_wf|exact astVarToSType_wf]. Qed.

Lemma specializeType_template T : forall L,
  (exists t, specializeType T L = Ok t) <-> isTemplate T = true.
Proof.
  induction T; intros L; simpl;
    try (split; [reflexivity|intros _; eexists; reflexivity]);
    try (split; [intros [t Ht]; discriminate|discriminate]).
  - rewrite <- (IHT L). split.
    + intros [t Ht]. destruct (specializeType T L) as [e|]; [eauto|discriminate].
    + intros [e He]. rewrite He. simpl. eauto.
  - rewrite andb_true_iff, <- (IHT1 Memory), <- (IHT2 Storage). split.
    + intros [t Ht]. destruct (specializeType T1 Memory) as [k|]; [|discriminate].
      destruct (specializeType T2 Storage) as [v|]; [eauto|discriminate].
    + intros [[k Hk] [v Hv]]. rewrite Hk, Hv. simpl. eauto.
  - destruct definition as [[]|];
      try (split; [reflexivity|intros _; eexists; reflexivity]).
    split; [intros [t Ht]; discriminate|discriminate].
Qed.

Lemma astTypeNameToSType_template t : forall T,
  astTypeNameToSType t = Ok T -> isTemplate T = true.
Proof.
  induction t; intros T; simpl.
  - unfold elementaryToSType. repeat case_match; intros; simplify_eq; reflexivity.
  - destruct (astTypeNameToSType t) as [e|] eqn:He; simpl; [|discriminate].
    repeat case_match; intros; simplify_eq; simpl; eauto.
  - repeat case_match; intros; simplify_eq; reflexivity.
  - destruct (rmapM _ vParameterTypes); simpl; [|discriminate].
    destruct (rmapM _ vReturnParameterTypes); simpl; [|discriminate].
    intros [= <-]. reflexivity.
  - destruct (astTypeNameToSType t1) as [k|] eqn:Hk; simpl; [|discriminate].
    destruct (astTypeNameToSType t2) as [v|] eqn:Hv; simpl; [|discriminate].
    intros [= <-]. simpl. rewrite (IHt1 _ Logic.eq_refl), (IHt2 _ Logic.eq_refl).
    reflexivity.
  - discriminate.
Qed.

(** X2. The assertions of [specializeType] never fail on an ingested type
    name: specialization succeeds exactly on the types with no pointer, no
    tuple and no user-defined type without definition where it looks, every
    type that [astTypeNameToSType] returns is one, and so [astVarToSType]
    fails only with the failure of the ingestion of the type name or of
    [getVarLocation], or on a declaration without a type. *)
Theorem specializeType_accepts_ingested :
  (forall T L, (exists t, specializeType T L = Ok t) <-> isTemplate T = true)
  /\ (forall t T, astTypeNameToSType t = Ok T -> isTemplate T = true)
  /\ (forall v baseLoc f,
        astVarToSType v baseLoc = Err f ->
        vd_vType v = None
        \/ (exists t, vd_vType v = Some t /\ astTypeNameToSType t = Err f)
        \/ getVarLocation v baseLoc = Err f).
Proof.
  split; [exact specializeType_template|]. split; [exact astTypeNameToSType_template|].
  intros v baseLoc f. destruct v as [i n vt sl sc vis par].
  cbn [astVarToSType vd_vType]. destruct vt as [t|]; [|auto].
  destruct (astTypeNameToSType t) as [T|f0] eqn:HT; simpl.
  - destruct (getVarLocation _ baseLoc) as [loc|f1] eqn:Hl; simpl.
    + intros H. exfalso.
      destruct (proj2 (specializeType_template T loc)
                  (astTypeNameToSType_template _ _ HT)) as [t' Ht'].
      congruence.
    + intros [= <-]. auto.
  - intros [= <-]. right. left. eauto.
Qed.

Lemma specializeType_reference T : forall L t,
  specializeType T L = Ok t -> valueTemplate T = false ->
  exists to loc, t = SPointer to loc.
Proof.
  destruct T; intros L t; simpl; try discriminate; try (intros [= <-]; eauto).
  - destruct (specializeType T L); simpl; [|discriminate]. intros [= <-]; eauto.
  - destruct (specializeType T1 Memory); simpl; [|discriminate].
    destruct (specializeType T2 Storage); simpl; [|discriminate]. intros [= <-]; eauto.
  - destruct definition as [[]|]; try discriminate; intros [= <-]; eauto.
Qed.

Lemma specializeType_not_pointer T L t to loc :
  specializeType T L = Ok t -> T <> SPointer to loc.
Proof. intros H ->. discriminate. Qed.

(** X3. The round trip through specialization gives the template back
    exactly when the template has no reference type below its top: for
    every type [T] that specializes to [t], [despecializeType t] is [T] if
    and only if [T] is not an array of, or a mapping from or to, a reference
    type. *)
Theorem despecialize_specialize_iff_flat T L t :
  specializeType T L = Ok t -> (despecializeType t = T <-> flatTemplate T = true).
Proof.
  intros Hs. split; [|intros Hf; eapply despecialize_specialize_flat; eauto].
  destruct T; try reflexivity; simpl in Hs |- *.
  - destruct (specializeType T L) as [e|] eqn:He; simpl in Hs; [|discriminate].
    injection Hs as <-. simpl. intros [= Heq]. subst e.
    destruct (valueTemplate T) eqn:Hv; [reflexivity|].
    destruct (specializeType_reference _ _ _ He Hv) as (to & loc & ->). discriminate.
  - destruct (specializeType T1 Memory) as [k|] eqn:Hk; simpl in Hs; [|discriminate].
    destruct (specializeType T2 Storage) as [v|] eqn:Hv; simpl in Hs; [|discriminate].
    injection Hs as <-. simpl. intros [= -> ->]. apply andb_true_iff. split.
    + destruct (valueTemplate T1) eqn:H1; [reflexivity|].
      destruct (specializeType_reference _ _ _ Hk H1) as (to & loc & ->). discriminate.
    + destruct (valueTemplate T2) eqn:H2; [reflexivity|].
      destruct (specializeType_reference _ _ _ Hv H2) as (to & loc & ->). discriminate.
Qed.

(** X4. The data location of a variable is never [Default]: as long as the
    base location passed in is not [Default] itself, [getVarLocation]
    returns a concrete location; a state variable declared without a
    location lives in storage whatever the base location, and a declared
    location always wins. *)
Theorem getVarLocation_concrete v baseLoc :
  baseLoc <> Some Default ->
  (forall loc, getVarLocation v baseLoc = Ok loc -> loc <> Default)
  /\ (vd_storageLocation v <> Default ->
        getVarLocation v baseLoc = Ok (vd_storageLocation v))
  /\ (forall c, vd_storageLocation v = Default -> locate (vd_scope v) = NContract c ->
        getVarLocation v baseLoc = Ok Storage).
Proof.
  intros Hb. unfold getVarLocation. split; [|split].
  - intros loc. repeat case_match; intros; simplify_eq; try discriminate; congruence.
  - destruct (vd_storageLocation v); congruence.
  - intros c -> ->. reflexivity.
Qed.

End Ingestion.

(** ** Scopes: the resolution of variable and type names *)

Section Scopes.

Context {host : Host}.

Lemma findFirst_app {A B} (f : A -> option B) (l1 l2 : list A) :
  findFirst f (l1 ++ l2) =
  match findFirst f l1 with Some y => Some y | None => findFirst f l2 end.
Proof.
  induction l1 as [|x xs IH]; simpl; [reflexivity|].
  destruct (f x); [reflexivity|exact IH].
Qed.

Lemma findFirst_None {A B} (f : A -> option B) (l : list A) :
  Forall (fun x => f x = None) l -> findFirst f l = None.
Proof. induction 1 as [|x xs Hx _ IH]; simpl; [reflexivity|]. rewrite Hx. exact IH. Qed.

Lemma findFirst_Some {A B} (f : A -> option B) (l : list A) y :
  findFirst f l = Some y -> exists x, In x l /\ f x = Some y.
Proof.
  induction l as [|x xs IH]; simpl; [discriminate|].
  destruct (f x) as [y'|] eqn:Hx.
  - intros [= <-]. eauto.
  - intros H. destruct (IH H) as (x' & Hin & Hx'). eauto.
Qed.

(** The two loops, read as a search from the innermost scope outwards. *)
Lemma lookupVarDefFrom_rev name ctx : forall n, (n <= length ctx)%nat ->
  lookupVarDefFrom name ctx n =
  match findFirst (lookupVarDefStep name) (rev (take n ctx)) with
  | Some r => r
  | None => None
  end.
Proof.
  induction n as [|i IH]; intros Hn; [reflexivity|]. cbn [lookupVarDefFrom].
  destruct (ctx !! i) as [scope|] eqn:Hi;
    [|apply lookup_ge_None in Hi; lia].
  rewrite (take_S_r _ _ _ Hi), rev_unit. cbn [findFirst].
  destruct (lookupVarDefStep name scope); [reflexivity|]. apply IH. lia.
Qed.

Lemma lookupVarDef_rev name ctx :
  lookupVarDef name ctx =
  match findFirst (lookupVarDefStep name) (rev ctx) with
  | Some r => r
  | None => None
  end.
Proof.
  unfold lookupVarDef. rewrite lookupVarDefFrom_rev by lia.
  rewrite firstn_all. reflexivity.
Qed.

Lemma resolveTypeDefFrom_rev ctx name : forall n, (n <= length ctx)%nat ->
  resolveTypeDefFrom ctx name n =
  findFirst (fun scope => resolveTypeDefStep name (Some scope)) (rev (take n ctx)).
Proof.
  induction n as [|i IH]; intros Hn; [reflexivity|]. cbn [resolveTypeDefFrom].
  destruct (ctx !! i) as [scope|] eqn:Hi;
    [|apply lookup_ge_None in Hi; lia].
  rewrite (take_S_r _ _ _ Hi), rev_unit. cbn [findFirst].
  destruct (resolveTypeDefStep name (Some scope)); [reflexivity|]. apply IH. lia.
Qed.

(** The first iteration of the loop of the source reads [ctx[ctx.length]],
    which is [undefined]: it finds nothing. *)
Lemma resolveTypeDef_rev ctx name :
  resolveTypeDef ctx name =
  findFirst (fun scope => resolveTypeDefStep name (Some scope)) (rev ctx).
Proof.
  unfold resolveTypeDef. cbn [resolveTypeDefFrom].
  rewrite (proj2 (lookup_ge_None ctx (length ctx))) by lia. cbn [resolveTypeDefStep].
  rewrite resolveTypeDefFrom_rev by lia. rewrite firstn_all. reflexivity.
Qed.

Lemma findVar_Some name vars v :
  findVar name vars = Some v -> In v vars /\ vd_name v = name.
Proof.
  unfold findVar. intros H. apply find_some in H. destruct H as [Hin Hn].
  split; [exact Hin|]. apply String.eqb_eq. exact Hn.
Qed.

Lemma findVar_None name vars :
  findVar name vars = None -> forall v, In v vars -> vd_name v <> name.
Proof.
  unfold findVar. intros H v Hin Hn. pose proof (find_none _ _ H v Hin) as Hf.
  simpl in Hf. rewrite Hn, String.eqb_refl in Hf. discriminate.
Qed.

Lemma findBinding_Some name lhs : forall k idx,
  findBinding name lhs k = Some idx ->
  (k <= idx)%nat /\ exists id, lhs !! (idx - k)%nat = Some (id, name).
Proof.
  induction lhs as [|[id n] rest IH]; intros k idx; simpl; [discriminate|].
  destruct (String.eqb n name) eqn:Hn.
  - intros [= <-]. apply String.eqb_eq in Hn. subst n.
    split; [lia|]. exists id. rewrite Nat.sub_diag. reflexivity.
  - intros H. destruct (IH _ _ H) as (Hle & id' & Hl). split; [lia|]. exists id'.
    replace (idx - k)%nat with (S (idx - S k)) by lia. exact Hl.
Qed.

Lemma findBinding_None name lhs : forall k,
  findBinding name lhs k = None -> ~ In name (map snd lhs).
Proof.
  induction lhs as [|[id n] rest IH]; intros k; simpl; [tauto|].
  destruct (String.eqb n name) eqn:Hn; [discriminate|].
  apply String.eqb_neq in Hn. intros H [Heq|Hin]; [congruence|]. exact (IH _ H Hin).
Qed.

Lemma lookupVarDefStep_hit name scope def :
  lookupVarDefStep name scope = Some (Some def) -> definedBy name def scope.
Proof.
  destruct scope as [units|c|f|l]; simpl.
  - discriminate.
  - destruct (findVar name _) as [v|] eqn:Hv; [|discriminate].
    intros [= <-]. apply findVar_Some in Hv. destruct Hv as [Hin Hn].
    apply in_flat_map in Hin. destruct Hin as (base & Hb & Hin).
    split; [exists base; auto|exact Hn].
  - destruct (findVar name (fd_vParameters f)) as [v|] eqn:Hv.
    + intros [= <-]. apply findVar_Some in Hv. destruct Hv as [Hin Hn].
      split; [left; exact Hin|exact Hn].
    + destruct (findVar name (fd_vReturnParameters f)) as [v|] eqn:Hr; [|discriminate].
      intros [= <-]. apply findVar_Some in Hr. destruct Hr as [Hin Hn].
      split; [right; exact Hin|exact Hn].
  - destruct (findBinding name (let_lhs l) 0) as [idx|] eqn:Hb; [|discriminate].
    intros [= <-]. apply findBinding_Some in Hb. destruct Hb as (_ & id & Hl).
    rewrite Nat.sub_0_r in Hl. split; [reflexivity|eauto].
Qed.

Lemma lookupVarDefStep_pass name scope :
  passedBy name scope -> lookupVarDefStep name scope = None.
Proof.
  intros [Hb Hu]. destruct scope as [units|c|f|l]; simpl.
  - exfalso. eapply Hu. reflexivity.
  - destruct (findVar name _) as [v|] eqn:Hv; [|reflexivity].
    exfalso. apply Hb. apply findVar_Some in Hv. destruct Hv as [Hin Hn].
    apply in_flat_map in Hin. destruct Hin as (base & Hbase & Hin).
    exists v. split; [exists base; auto|exact Hn].
  - destruct (findVar name (fd_vParameters f)) as [v|] eqn:Hv.
    + exfalso. apply Hb. apply findVar_Some in Hv. destruct Hv as [Hin Hn].
      exists v. split; [left; exact Hin|exact Hn].
    + destruct (findVar name (fd_vReturnParameters f)) as [v|] eqn:Hr; [|reflexivity].
      exfalso. apply Hb. apply findVar_Some in Hr. destruct Hr as [Hin Hn].
      exists v. split; [right; exact Hin|exact Hn].
  - destruct (findBinding name (let_lhs l) 0) as [idx|] eqn:Hl; [|reflexivity].
    exfalso. apply Hb. apply findBinding_Some in Hl. destruct Hl as (_ & id & Hl).
    simpl. apply in_map_iff. exists (id, name). split; [reflexivity|].
    apply list_elem_of_In. eapply list_elem_of_lookup_2. exact Hl.
Qed.

Lemma lookupVarDefStep_binds name scope :
  binds name scope ->
  exists def, lookupVarDefStep name scope = Some (Some def).
Proof.
  destruct scope as [units|c|f|l]; simpl.
  - intros (v & [] & _).
  - intros (v & (base & Hb & Hin) & Hn).
    destruct (findVar name _) as [v'|] eqn:Hv; [eauto|].
    exfalso. eapply findVar_None; [exact Hv| |exact Hn].
    apply in_flat_map. eauto.
  - intros (v & Hin & Hn).
    destruct (findVar name (fd_vParameters f)) as [v'|] eqn:Hv; [eauto|].
    destruct (findVar name (fd_vReturnParameters f)) as [v'|] eqn:Hr; [eauto|].
    exfalso. destruct Hin as [Hin|Hin];
      [eapply findVar_None; [exact Hv|exact Hin|exact Hn]
      |eapply findVar_None; [exact Hr|exact Hin|exact Hn]].
  - intros Hin. destruct (findBinding name (let_lhs l) 0) as [idx|] eqn:Hl; [eauto|].
    exfalso. eapply findBinding_None; eauto.
Qed.

(** X5. A variable name resolves to a binding of that name in a scope of
    the context: a parameter or return parameter of a function scope, a
    state variable of a linearized base of a contract scope, or the binding
    of a [let] scope at the index given. *)
Theorem lookupVarDef_sound name ctx def :
  lookupVarDef name ctx = Some def ->
  exists scope, In scope ctx /\ definedBy name def scope.
Proof.
  rewrite lookupVarDef_rev.
  destruct (findFirst _ (rev ctx)) as [r|] eqn:Hf; [|discriminate].
  intros ->. apply findFirst_Some in Hf. destruct Hf as (scope & Hin & Hs).
  exists scope. split; [apply in_rev; exact Hin|]. apply lookupVarDefStep_hit. exact Hs.
Qed.

(** X6. Scoping of variable names. When no scope of [inner] binds the name
    or is a global scope: the name is unbound in [inner]; it is unbound in
    any context that ends with a global scope followed by [inner], whatever
    lies outside of the global scope; and in a context that ends with a
    scope binding the name followed by [inner], the name resolves to a
    binding of that scope, whatever lies outside of it. *)
Theorem lookupVarDef_scoping name inner :
  Forall (passedBy name) inner ->
  lookupVarDef name inner = None
  /\ (forall outer units,
        lookupVarDef name (outer ++ ScopeUnits units :: inner) = None)
  /\ (forall outer scope, binds name scope ->
        exists def, lookupVarDef name (outer ++ scope :: inner) = Some def
                    /\ definedBy name def scope).
Proof.
  intros Hin.
  assert (Hnone : findFirst (lookupVarDefStep name) (rev inner) = None).
  { apply findFirst_None. apply List.Forall_forall. intros s Hs.
    apply lookupVarDefStep_pass. rewrite List.Forall_forall in Hin. apply Hin.
    apply in_rev. exact Hs. }
  split; [|split].
  - rewrite lookupVarDef_rev, Hnone. reflexivity.
  - intros outer units. rewrite lookupVarDef_rev, rev_app_distr. cbn [rev].
    rewrite <- app_assoc, findFirst_app, Hnone. reflexivity.
  - intros outer scope Hb. destruct (lookupVarDefStep_binds _ _ Hb) as [def Hd].
    exists def. split; [|apply lookupVarDefStep_hit; exact Hd].
    rewrite lookupVarDef_rev, rev_app_distr. cbn [rev].
    rewrite <- app_assoc, findFirst_app, Hnone. cbn [app findFirst].
    rewrite Hd. reflexivity.
Qed.

Lemma findStructOrEnum_Some name structs enums def :
  findStructOrEnum name structs enums = Some def ->
  In def (map DefStruct structs ++ map DefEnum enums) /\ ud_name def = name.
Proof.
  unfold findStructOrEnum. intros H. apply find_some in H. destruct H as [Hin Hn].
  split; [exact Hin|]. apply String.eqb_eq. exact Hn.
Qed.

Lemma resolveTypeDefStep_hit name scope def :
  resolveTypeDefStep name (Some scope) = Some def ->
  ud_name def = name /\ typeDeclaredIn def scope.
Proof.
  destruct scope as [units|c|f|l]; simpl; try discriminate.
  - destruct (findFirst _ units) as [d|] eqn:Hs.
    + intros [= <-]. apply findFirst_Some in Hs. destruct Hs as (su & Hin & Hs).
      apply findStructOrEnum_Some in Hs. destruct Hs as [Hd Hn].
      split; [exact Hn|]. exists su. split; [exact Hin|].
      rewrite app_assoc. apply in_or_app. left. exact Hd.
    + intros H. apply findFirst_Some in H. destruct H as (su & Hin & Hc).
      destruct (find _ (su_vContracts su)) as [c|] eqn:Hfind; [|discriminate].
      injection Hc as <-. apply find_some in Hfind. destruct Hfind as [Hc Hn].
      split; [apply String.eqb_eq; exact Hn|]. exists su. split; [exact Hin|].
      apply in_or_app. right. apply in_or_app. right. apply in_map. exact Hc.
  - intros H. apply findFirst_Some in H. destruct H as (base & Hin & Hs).
    apply findStructOrEnum_Some in Hs. destruct Hs as [Hd Hn].
    split; [exact Hn|]. exists base. auto.
Qed.

(** X7. A type name resolves to a declaration of that name in a scope of
    the context (a struct or enum of a linearized base of a contract scope;
    a struct, enum or contract of a source unit of a global scope), and
    [let] and function scopes do not take part: removing them from the
    context, or adding one anywhere, leaves every resolution as it is. *)
Theorem resolveTypeDef_scopes ctx name :
  (forall def, resolveTypeDef ctx name = Some def ->
     ud_name def = name /\ exists scope, In scope ctx /\ typeDeclaredIn def scope)
  /\ (forall outer scope inner, ctx = outer ++ scope :: inner ->
        isLetOrFunction scope = true ->
        resolveTypeDef ctx name = resolveTypeDef (outer ++ inner) name).
Proof.
  split.
  - intros def. rewrite resolveTypeDef_rev. intros H. apply findFirst_Some in H.
    destruct H as (scope & Hin & Hs). apply resolveTypeDefStep_hit in Hs.
    destruct Hs as [Hn Hd]. split; [exact Hn|]. exists scope.
    split; [apply in_rev; exact Hin|exact Hd].
  - intros outer scope inner -> Hs. rewrite !resolveTypeDef_rev, !rev_app_distr.
    cbn [rev]. rewrite <- app_assoc, !findFirst_app. cbn [app findFirst].
    destruct scope; try discriminate; reflexivity.
Qed.

End Scopes.

(** ** Builtin type names *)

Section BuiltinTypeNames.

Context {host : Host}.

Lemma detected_legal name t :
  findFirst (fun detector => detector name) BuiltinTypeDetectors = Some t ->
  legalBuiltinType t.
Proof.
  unfold BuiltinTypeDetectors. cbn [findFirst].
  unfold detectBool, detectString, detectAddress, detectBytes, detectByte, detectInt.
  repeat case_match; intros; simplify_eq; simpl; try exact Logic.I; try lia.
  all: split; [lia|reflexivity].
Qed.

(** X8. A name that the detector table takes for a builtin type stands
    for a type of the host language: the detected type is bool, string,
    bytes, an address, fixed bytes of 1 to 32 bytes or an integer of 8 to
    256 bits, a multiple of 8; and when it is not an address, the
    ingestion of the same name as an elementary type name gives the same
    type, whatever the state mutability. *)
Theorem tcIdBuiltinType_detects name t :
  tcIdBuiltinType name = Some t ->
  exists type,
    t = SBuiltinTypeNameType type
    /\ legalBuiltinType type
    /\ ((forall payable, type <> SAddressType payable) ->
        forall stateMutability,
          astTypeNameToSType (ElementaryTypeName name stateMutability) = Ok type).
Proof.
  unfold tcIdBuiltinType.
  destruct (findFirst _ BuiltinTypeDetectors) as [type|] eqn:Hd; [|discriminate].
  intros [= <-]. exists type. split; [reflexivity|].
  split; [eapply detected_legal; eauto|].
  intros Haddr stateMutability.
  pose proof (detectors_against_ingestion name stateMutability type Hd) as H.
  destruct (matchAddressRE name); [|exact H].
  exfalso. eapply Haddr. exact H.
Qed.

End BuiltinTypeNames.

(** ** The rules of operators, conditionals and index accesses *)

Section OperatorRules.

Context {host : Host}.

(** The state after [typeMap.set] for the node with id [i]. *)
Local Abbreviation cached st i t :=
  (mkState (<[i := t]> (typeMap st)) (funSets st) (defSites st)).

Lemma bind_inv {A B} (m : M A) (k : A -> M B) st r st' :
  bind m k st = (r, st') ->
  (exists a st1, m st = (Ok a, st1) /\ k a st1 = (r, st'))
  \/ (exists f, m st = (Err f, st') /\ r = Err f).
Proof.
  unfold bind. destruct (m st) as [[a|f] st1].
  - intros H. left. eauto.
  - intros [= <- <-]. right. eauto.
Qed.

Lemma tc_uncached_inv fuel e ctx st r st' :
  typeMap st !! nodeId e = None ->
  tc (S fuel) e ctx st = (r, st') ->
  (exists t st1, tcDispatch (tc fuel) e ctx st = (Ok t, st1)
                 /\ r = Ok t /\ st' = cached st1 (nodeId e) t)
  \/ (exists f, tcDispatch (tc fuel) e ctx st = (Err f, st') /\ r = Err f).
Proof.
  intros Hnone. rewrite tc_uncached by exact Hnone.
  destruct (tcDispatch (tc fuel) e ctx st) as [[t|f] st1].
  - intros [= <- <-]. left. eauto.
  - intros [= <- <-]. right. eauto.
Qed.

Lemma unifyTypes_inv a ta b tb p st r st' :
  unifyTypes a ta b tb p st = (r, st') ->
  st' = st
  /\ (r = Ok tb \/ r = Ok ta \/ r = Err (IncompatibleTypes a ta b tb)).
Proof.
  unfold unifyTypes, bind, getFunSets, ret, throw.
  repeat case_match; intros; simplify_eq; auto.
Qed.

(** X9. A unary operation that checks has the type of its operand: [!]
    asks for a boolean, [-] for an integer or an integer literal, and any
    other operator ([old]) passes the type of the operand on as it is. When
    it fails, the failure is that of the operand, or [SWrongType] on the
    operand for [!] and [-]. *)
Theorem tcUnary_type fuel i op subexp ctx st :
  typeMap st !! i = None ->
  let expr := SUnaryOperation i op subexp in
  (forall t st', tc (S fuel) expr ctx st = (Ok t, st') ->
     exists st1, tc fuel subexp ctx st = (Ok t, st1) /\ st' = cached st1 i t
       /\ (op = "!" -> t = SBoolType) /\ (op = "-" -> isInty t = true))
  /\ (forall f st', tc (S fuel) expr ctx st = (Err f, st') ->
        tc fuel subexp ctx st = (Err f, st')
        \/ exists innerT, tc fuel subexp ctx st = (Ok innerT, st')
             /\ f = SWrongType subexp innerT
             /\ (op = "!" /\ innerT <> SBoolType \/ op = "-" /\ isInty innerT = false)).
Proof.
  intros Hnone expr. subst expr. split.
  - intros t st' Hrun.
    destruct (tc_uncached_inv _ (SUnaryOperation i op subexp) _ _ _ _ Hnone Hrun)
      as [(t' & st1 & Hd & [= <-] & ->)|(f & _ & [=])].
    cbn [tcDispatch] in Hd. unfold tcUnary in Hd.
    destruct (String.eqb op "!") eqn:Hnot;
      [|destruct (String.eqb op "-") eqn:Hneg].
    + apply String.eqb_eq in Hnot. subst op.
      apply bind_inv in Hd. destruct Hd as [(innerT & s & Hs & Hk)|(f & _ & [=])].
      destruct innerT; try discriminate. injection Hk as <- <-.
      exists s. split; [exact Hs|]. split; [reflexivity|].
      split; [reflexivity|discriminate].
    + apply String.eqb_eq in Hneg. subst op.
      apply bind_inv in Hd. destruct Hd as [(innerT & s & Hs & Hk)|(f & _ & [=])].
      destruct (isInty innerT) eqn:Hi; [|discriminate]. injection Hk as <- <-.
      exists s. split; [exact Hs|]. split; [reflexivity|].
      split; [discriminate|intros _; exact Hi].
    + exists st1. split; [exact Hd|]. split; [reflexivity|].
      split; intros ->; discriminate.
  - intros f st' Hrun.
    destruct (tc_uncached_inv _ (SUnaryOperation i op subexp) _ _ _ _ Hnone Hrun)
      as [(t' & st1 & _ & [=] & _)|(f' & Hd & [= <-])].
    cbn [tcDispatch] in Hd. unfold tcUnary in Hd.
    destruct (String.eqb op "!") eqn:Hnot;
      [|destruct (String.eqb op "-") eqn:Hneg].
    + apply String.eqb_eq in Hnot. subst op.
      apply bind_inv in Hd. destruct Hd as [(innerT & s & Hs & Hk)|(f' & Hs & [= <-])];
        [|auto].
      right. exists innerT.
      destruct innerT; try discriminate; injection Hk as <- <-;
        (split; [exact Hs|]; split; [reflexivity|]; left; split;
         [reflexivity|discriminate]).
    + apply String.eqb_eq in Hneg. subst op.
      apply bind_inv in Hd. destruct Hd as [(innerT & s & Hs & Hk)|(f' & Hs & [= <-])];
        [|auto].
      right. exists innerT. destruct (isInty innerT) eqn:Hi; [discriminate|].
      injection Hk as <- <-. auto.
    + auto.
Qed.

Lemma opIn_mono op ops ops' :
  opIn op ops = true -> forallb (fun x => opIn x ops') ops = true ->
  opIn op ops' = true.
Proof.
  unfold opIn at 1. intros H Hall. apply existsb_exists in H.
  destruct H as (x & Hin & Hx). apply String.eqb_eq in Hx. subst x.
  rewrite forallb_forall in Hall. apply Hall. exact Hin.
Qed.

Lemma literal_or_left lhsT rhsT :
  let t := match lhsT with SIntLiteralType => rhsT | _ => lhsT end in
  (t = lhsT \/ t = rhsT)
  /\ (isIntyOrFixedBytes lhsT = true -> isInty rhsT = true ->
      isIntyOrFixedBytes t = true).
Proof.
  destruct lhsT; simpl; split; auto.
  intros _. destruct rhsT; simpl; auto.
Qed.

Lemma isInty_numeric t : isInty t = true -> isIntyOrFixedBytes t = true.
Proof. destruct t; simpl; auto. Qed.

(** X10. A binary operation that checks has both operands checked, the
    left one first, and its type is boolean for the comparison, equality
    and logical operators; for every other operator that checks (power,
    arithmetic, shift, bitwise) it is the type of one of the two operands,
    and that type is an integer, an integer literal or fixed bytes. *)
Theorem tcBinary_type fuel i l op r ctx st t st' :
  typeMap st !! i = None ->
  tc (S fuel) (SBinaryOperation i l op r) ctx st = (Ok t, st') ->
  exists lhsT rhsT st1 st2,
    tc fuel l ctx st = (Ok lhsT, st1)
    /\ tc fuel r ctx st1 = (Ok rhsT, st2)
    /\ st' = cached st2 i t
    /\ (opIn op booleanOps = true /\ t = SBoolType
        \/ opIn op numericOps = true /\ (t = lhsT \/ t = rhsT)
           /\ isIntyOrFixedBytes t = true).
Proof.
  intros Hnone Hrun.
  destruct (tc_uncached_inv _ (SBinaryOperation i l op r) _ _ _ _ Hnone Hrun)
    as [(t' & s & Hd & [= <-] & ->)|(f & _ & [=])].
  cbn [tcDispatch] in Hd. unfold tcBinary in Hd.
  apply bind_inv in Hd. destruct Hd as [(lhsT & st1 & Hl & Hd)|(f & _ & [=])].
  apply bind_inv in Hd. destruct Hd as [(rhsT & st2 & Hr & Hd)|(f & _ & [=])].
  exists lhsT, rhsT, st1, st2. split; [exact Hl|]. split; [exact Hr|].
  assert (Hunify : forall s0, unifyTypes l lhsT r rhsT (SBinaryOperation i l op r) st2
                              = (Ok t, s0) -> s0 = st2 /\ (t = lhsT \/ t = rhsT)).
  { intros s0 H. apply unifyTypes_inv in H. destruct H as [-> [H|[H|H]]];
      simplify_eq; auto. }
  destruct (String.eqb op "**") eqn:Hpow.
  { apply String.eqb_eq in Hpow. subst op.
    destruct (negb (isInty rhsT) || _ || _) eqn:Hc; [discriminate|].
    destruct (isInty lhsT) eqn:Hli; simpl in Hd; [|discriminate].
    injection Hd as <- <-. split; [reflexivity|]. right.
    apply orb_false_iff in Hc. destruct Hc as [Hc _].
    apply orb_false_iff in Hc. destruct Hc as [Hc _].
    apply negb_false_iff in Hc.
    destruct (literal_or_left lhsT rhsT) as [H1 H2].
    split; [reflexivity|]. split; [exact H1|].
    apply H2; [apply isInty_numeric; exact Hli|exact Hc]. }
  destruct (opIn op ["*"; "%"; "/"; "+"; "-"]) eqn:Harith.
  { destruct (isInty lhsT) eqn:Hli; simpl in Hd; [|discriminate].
    destruct (isInty rhsT) eqn:Hri; simpl in Hd; [|discriminate].
    destruct (Hunify _ Hd) as [-> Ht]. split; [reflexivity|]. right.
    split; [eapply opIn_mono; [exact Harith|reflexivity]|]. split; [exact Ht|].
    destruct Ht as [-> | ->]; apply isInty_numeric; assumption. }
  destruct (opIn op ["<<"; ">>"]) eqn:Hshift.
  { destruct (isIntyOrFixedBytes lhsT) eqn:Hli; simpl in Hd; [|discriminate].
    destruct (isInty rhsT) eqn:Hri; simpl in Hd; [|discriminate].
    injection Hd as <- <-. split; [reflexivity|]. right.
    destruct (literal_or_left lhsT rhsT) as [H1 H2].
    split; [eapply opIn_mono; [exact Hshift|reflexivity]|]. split; [exact H1|].
    apply H2; assumption. }
  destruct (opIn op ["<"; ">"; "<="; ">="]) eqn:Hcmp.
  { destruct (isIntyOrFixedBytes lhsT) eqn:Hli; simpl in Hd; [|discriminate].
    destruct (isIntyOrFixedBytes rhsT) eqn:Hri; simpl in Hd; [|discriminate].
    apply bind_inv in Hd. destruct Hd as [(u & s0 & Hu & Hd)|(f & _ & [=])].
    apply unifyTypes_inv in Hu. destruct Hu as [-> _]. injection Hd as <- <-.
    split; [reflexivity|]. left.
    split; [eapply opIn_mono; [exact Hcmp|reflexivity]|reflexivity]. }
  destruct (opIn op ["=="; "!="]) eqn:Heq.
  { apply bind_inv in Hd. destruct Hd as [(u & s0 & Hu & Hd)|(f & _ & [=])].
    apply unifyTypes_inv in Hu. destruct Hu as [-> _]. injection Hd as <- <-.
    split; [reflexivity|]. left.
    split; [eapply opIn_mono; [exact Heq|reflexivity]|reflexivity]. }
  destruct (opIn op ["|"; "&"; "^"]) eqn:Hbit.
  { destruct (isIntyOrFixedBytes lhsT) eqn:Hli; simpl in Hd; [|discriminate].
    destruct (isIntyOrFixedBytes rhsT) eqn:Hri; simpl in Hd; [|discriminate].
    destruct (Hunify _ Hd) as [-> Ht]. split; [reflexivity|]. right.
    split; [eapply opIn_mono; [exact Hbit|reflexivity]|]. split; [exact Ht|].
    destruct Ht as [-> | ->]; assumption. }
  destruct (opIn op ["||"; "&&"; "==>"]) eqn:Hlog; [|discriminate].
  destruct lhsT; try discriminate. destruct rhsT; try discriminate.
  injection Hd as <- <-. split; [reflexivity|]. left.
  split; [eapply opIn_mono; [exact Hlog|reflexivity]|reflexivity].
Qed.

Lemma opIn_cases op ops :
  opIn op ops = true -> In op ops.
Proof.
  unfold opIn. intros H. apply existsb_exists in H.
  destruct H as (x & Hin & Hx). apply String.eqb_eq in Hx. subst x. exact Hin.
Qed.

Lemma unifyTypes_ints a b p st n s m s' :
  unifyTypes a (SIntType n s) b (SIntType m s') p st =
  (if Bool.eqb s s' then Ok (SIntType (Z.max n m) s)
   else Err (IncompatibleTypes a (SIntType n s) b (SIntType m s')), st).
Proof.
  unfold unifyTypes, bind, getFunSets, isImplicitlyCastable. cbn [eq].
  destruct (Z.eqb_spec n m) as [Heq|Hne]; destruct s, s';
    destruct (Z.leb_spec n m); destruct (Z.leb_spec m n); cbn;
    try (rewrite Z.max_r by lia); try (rewrite Z.max_l by lia);
    try reflexivity; try lia.
  all: destruct (m =? n)%Z; reflexivity.
Qed.

Lemma unifyTypes_literal_left a b p st rhsT :
  isInty rhsT = true ->
  unifyTypes a SIntLiteralType b rhsT p st = (Ok rhsT, st).
Proof. destruct rhsT; try discriminate; reflexivity. Qed.

Lemma unifyTypes_literal_right a b p st lhsT :
  isInty lhsT = true ->
  unifyTypes a lhsT b SIntLiteralType p st = (Ok lhsT, st).
Proof. destruct lhsT; try discriminate; reflexivity. Qed.

(** X11. Arithmetic and bitwise operators on integers. When both operands
    check to integer types, the operation has the wider of the two types if
    they agree on signedness, and fails with [IncompatibleTypes] if they do
    not; an integer literal on one side takes the type of the other side. *)
Theorem tcBinary_integers fuel i l op r ctx st lhsT st1 rhsT st2 :
  typeMap st !! i = None ->
  opIn op ["*"; "%"; "/"; "+"; "-"; "|"; "&"; "^"] = true ->
  tc fuel l ctx st = (Ok lhsT, st1) ->
  tc fuel r ctx st1 = (Ok rhsT, st2) ->
  let out := tc (S fuel) (SBinaryOperation i l op r) ctx st in
  (forall n s m s', lhsT = SIntType n s -> rhsT = SIntType m s' ->
     out = if Bool.eqb s s'
           then (Ok (SIntType (Z.max n m) s), cached st2 i (SIntType (Z.max n m) s))
           else (Err (IncompatibleTypes l lhsT r rhsT), st2))
  /\ (lhsT = SIntLiteralType -> isInty rhsT = true -> out = (Ok rhsT, cached st2 i rhsT))
  /\ (isInty lhsT = true -> rhsT = SIntLiteralType -> out = (Ok lhsT, cached st2 i lhsT)).
Proof.
  intros Hnone Hop Hl Hr out.
  assert (Hout : isInty lhsT = true -> isInty rhsT = true ->
    out = match unifyTypes l lhsT r rhsT (SBinaryOperation i l op r) st2 with
          | (Ok t, s) => (Ok t, cached s i t)
          | (Err f, s) => (Err f, s)
          end).
  { intros Hli Hri. subst out.
    rewrite (tc_uncached _ (SBinaryOperation i l op r)) by exact Hnone.
    cbn [tcDispatch]. unfold tcBinary.
    rewrite (bind_ok _ _ _ _ _ Hl), (bind_ok _ _ _ _ _ Hr).
    assert (Hnum : isIntyOrFixedBytes lhsT = true /\ isIntyOrFixedBytes rhsT = true)
      by (split; apply isInty_numeric; assumption).
    destruct Hnum as [Hln Hrn].
    apply opIn_cases in Hop. simpl in Hop.
    repeat (destruct Hop as [<-|Hop]); try contradiction;
      cbn; rewrite ?Hli, ?Hri, ?Hln, ?Hrn; cbn; reflexivity. }
  split; [|split].
  - intros n s m s' -> ->. rewrite (Hout Logic.eq_refl Logic.eq_refl).
    rewrite unifyTypes_ints. destruct (Bool.eqb s s'); reflexivity.
  - intros -> Hri. rewrite (Hout Logic.eq_refl Hri).
    rewrite unifyTypes_literal_left by exact Hri. reflexivity.
  - intros Hli ->. rewrite (Hout Hli Logic.eq_refl).
    rewrite unifyTypes_literal_right by exact Hli. reflexivity.
Qed.

(** X12. A conditional that checks has a boolean condition and the type of
    one of its branches; the condition and both branches are checked, in
    that order, before the type of the condition is looked at. *)
Theorem tcConditional_type fuel i c a b ctx st t st' :
  typeMap st !! i = None ->
  tc (S fuel) (SConditional i c a b) ctx st = (Ok t, st') ->
  exists trueT falseT st1 st2 st3,
    tc fuel c ctx st = (Ok SBoolType, st1)
    /\ tc fuel a ctx st1 = (Ok trueT, st2)
    /\ tc fuel b ctx st2 = (Ok falseT, st3)
    /\ st' = cached st3 i t
    /\ (t = trueT \/ t = falseT).
Proof.
  intros Hnone Hrun.
  destruct (tc_uncached_inv _ (SConditional i c a b) _ _ _ _ Hnone Hrun)
    as [(t' & s & Hd & [= <-] & ->)|(f & _ & [=])].
  cbn [tcDispatch] in Hd. unfold tcConditional in Hd.
  apply bind_inv in Hd. destruct Hd as [(condT & st1 & Hc & Hd)|(f & _ & [=])].
  apply bind_inv in Hd. destruct Hd as [(trueT & st2 & Ha & Hd)|(f & _ & [=])].
  apply bind_inv in Hd. destruct Hd as [(falseT & st3 & Hb & Hd)|(f & _ & [=])].
  destruct condT; try discriminate.
  apply unifyTypes_inv in Hd. destruct Hd as [-> Ht].
  exists trueT, falseT, st1, st2, st3. repeat (split; [assumption || reflexivity|]).
  destruct Ht as [Ht|[Ht|Ht]]; simplify_eq; auto.
Qed.

(** X13. An index access that checks is on fixed bytes or on a pointer to
    bytes, where it gives [uint8], on a pointer to an array, where it gives
    the element type, or on a pointer to a mapping, where it gives the value
    type; the index is an integer or an integer literal, and for a mapping a
    type that casts implicitly to the key type. A string cannot be
    indexed. *)
Theorem tcIndexAccess_type fuel i base index ctx st t st' :
  typeMap st !! i = None ->
  tc (S fuel) (SIndexAccess i base index) ctx st = (Ok t, st') ->
  exists baseT indexT st1 st2,
    tc fuel base ctx st = (Ok baseT, st1)
    /\ tc fuel index ctx st1 = (Ok indexT, st2)
    /\ st' = cached st2 i t
    /\ ((exists size, baseT = SFixedBytes size) /\ t = SIntType 8 false
           /\ isInty indexT = true
        \/ (exists loc, baseT = SPointer SBytes loc) /\ t = SIntType 8 false
           /\ isInty indexT = true
        \/ (exists size loc, baseT = SPointer (SArrayType t size) loc)
           /\ isInty indexT = true
        \/ (exists keyType loc, baseT = SPointer (SMappingType keyType t) loc
              /\ isImplicitlyCastable (funSets st2) index indexT keyType = true)).
Proof.
  intros Hnone Hrun.
  destruct (tc_uncached_inv _ (SIndexAccess i base index) _ _ _ _ Hnone Hrun)
    as [(t' & s & Hd & [= <-] & ->)|(f & _ & [=])].
  cbn [tcDispatch] in Hd. unfold tcIndexAccess in Hd.
  apply bind_inv in Hd. destruct Hd as [(baseT & st1 & Hb & Hd)|(f & _ & [=])].
  apply bind_inv in Hd. destruct Hd as [(indexT & st2 & Hi & Hd)|(f & _ & [=])].
  exists baseT, indexT, st1, st2. split; [exact Hb|]. split; [exact Hi|].
  destruct baseT; try discriminate.
  - destruct (isInty indexT) eqn:Hin; [|discriminate]. injection Hd as <- <-.
    split; [reflexivity|]. left. eauto.
  - destruct baseT; try discriminate.
    + destruct (isInty indexT) eqn:Hin; [|discriminate]. injection Hd as <- <-.
      split; [reflexivity|]. right. left. eauto.
    + destruct (isInty indexT) eqn:Hin; [|discriminate]. injection Hd as <- <-.
      split; [reflexivity|]. right. right. left. eauto.
    + unfold bind, getFunSets in Hd.
      destruct (isImplicitlyCastable _ index indexT baseT1) eqn:Hc; [|discriminate].
      injection Hd as <- <-. split; [reflexivity|]. right. right. right. eauto.
Qed.

End OperatorRules.

(** ** The rules of [let] and of calls *)

Section LetAndCallRules.

Context {host : Host}.

Local Abbreviation cached st i t :=
  (mkState (<[i := t]> (typeMap st)) (funSets st) (defSites st)).

Local Abbreviation stamped st i d :=
  (mkState (typeMap st) (funSets st) (<[i := d]> (defSites st))).

(** The state after [definitions] of the function set [r] is reassigned. *)
Local Abbreviation narrowed st r defs arg :=
  (mkState (typeMap st) (<[r := mkFunctionSet defs arg]> (funSets st)) (defSites st)).

Lemma findBinding_first name lhs : forall idx id k,
  lhs !! idx = Some (id, name) ->
  (forall j b, (j < idx)%nat -> lhs !! j = Some b -> snd b <> name) ->
  findBinding name lhs k = Some (k + idx)%nat.
Proof.
  induction lhs as [|[id0 n0] rest IH]; intros idx id k; [discriminate|].
  destruct idx as [|idx]; simpl.
  - intros [= -> ->] _. rewrite String.eqb_refl. f_equal. lia.
  - intros Hl Hfirst.
    destruct (String.eqb n0 name) eqn:Hn.
    + apply String.eqb_eq in Hn. exfalso.
      apply (Hfirst 0%nat (id0, n0)); [lia|reflexivity|exact Hn].
    + rewrite (IH idx id (S k) Hl).
      * f_equal. lia.
      * intros j b Hj Hb. apply (Hfirst (S j) b); [lia|exact Hb].
Qed.

Lemma arity_check expr lhs rhsT st :
  (match rhsT with
   | STupleType elements =>
       if negb (length lhs =? length elements)%nat
       then throw (SExprCountMismatch expr) else ret tt
   | _ =>
       if negb (length lhs =? 1)%nat
       then throw (SExprCountMismatch expr) else ret tt
   end) st
  = if letArityOk lhs rhsT then (Ok tt, st) else (Err (SExprCountMismatch expr), st).
Proof. destruct rhsT; simpl; destruct (_ =? _)%nat; reflexivity. Qed.

Lemma tcLet_run fuel i lhs rhs body ctx st rhsT st1 :
  typeMap st !! i = None ->
  tc fuel rhs ctx st = (Ok rhsT, st1) ->
  tc (S fuel) (SLet i lhs rhs body) ctx st =
  if letArityOk lhs rhsT then
    match tc fuel body (ctx ++ [ScopeLet (mkLet i lhs rhs body)]) st1 with
    | (Ok t, s) => (Ok t, cached s i t)
    | (Err f, s) => (Err f, s)
    end
  else (Err (SExprCountMismatch (SLet i lhs rhs body)), st1).
Proof.
  intros Hnone Hrhs.
  rewrite (tc_uncached _ (SLet i lhs rhs body)) by exact Hnone.
  cbn [tcDispatch]. unfold tcLet. cbn [let_rhs let_lhs let_in].
  rewrite (bind_ok _ _ _ _ _ Hrhs). unfold bind at 1.
  rewrite arity_check. destruct (letArityOk lhs rhsT); reflexivity.
Qed.

(** X14. [let]. Once the right-hand side has checked to [rhsT]: if the
    number of names is not the number of components of the tuple [rhsT]
    (not one, when [rhsT] is no tuple), the [let] fails with
    [SExprCountMismatch] whatever its body, which is not checked; otherwise
    the [let] has the type of its body, checked with the [let] pushed on the
    context; and when the body is an identifier that the [let] binds (its
    first binding of that name, the name being neither [this] nor a builtin
    type name), the [let] has the type of the right-hand side, or of its
    component at the index of the binding when there are several names,
    and the identifier is stamped with the binding. *)
Theorem tcLet_binding fuel i lhs rhs ctx st rhsT st1 :
  typeMap st !! i = None ->
  tc fuel rhs ctx st = (Ok rhsT, st1) ->
  (letArityOk lhs rhsT = false ->
     forall body,
       tc (S fuel) (SLet i lhs rhs body) ctx st
       = (Err (SExprCountMismatch (SLet i lhs rhs body)), st1))
  /\ (letArityOk lhs rhsT = true ->
      forall body,
        tc (S fuel) (SLet i lhs rhs body) ctx st =
        match tc fuel body (ctx ++ [ScopeLet (mkLet i lhs rhs body)]) st1 with
        | (Ok t, s) => (Ok t, cached s i t)
        | (Err f, s) => (Err f, s)
        end)
  /\ (letArityOk lhs rhsT = true ->
      forall k name idx id,
        lhs !! idx = Some (id, name) ->
        (forall j b, (j < idx)%nat -> lhs !! j = Some b -> snd b <> name) ->
        name <> "this" -> tcIdBuiltinType name = None ->
        typeMap st1 !! k = None ->
        let body := SId k name in
        let site := DSVar (LetBinding (mkLet i lhs rhs body) idx) in
        exists t,
          bindingType lhs rhsT idx = Some t
          /\ tc (S (S fuel)) (SLet i lhs rhs body) ctx st
             = (Ok t, cached (cached (stamped st1 k site) k t) i t)).
Proof.
  intros Hnone Hrhs. split; [|split].
  - intros Har body. rewrite (tcLet_run _ _ _ _ _ _ _ _ _ Hnone Hrhs), Har. reflexivity.
  - intros Har body. rewrite (tcLet_run _ _ _ _ _ _ _ _ _ Hnone Hrhs), Har. reflexivity.
  - intros Har k name idx id Hidx Hfirst Hthis Hbt Hk body site.
    set (l := mkLet i lhs rhs body). set (ctx' := ctx ++ [ScopeLet l]).
    assert (Hrhs' : tc (S fuel) rhs ctx st = (Ok rhsT, st1))
      by (eapply tc_fuel_monotone; [exact Hrhs|discriminate|lia]).
    assert (Hcached : typeMap st1 !! nodeId rhs = Some rhsT)
      by (eapply tc_ok_cached; exact Hrhs).
    assert (Hfuel : exists n, fuel = S n)
      by (destruct fuel; [discriminate|eauto]).
    destruct Hfuel as [n ->].
    assert (Hlook : lookupVarDef name ctx' = Some (LetBinding l idx)).
    { unfold ctx'. rewrite lookupVarDef_snoc. cbn [lookupVarDefStep let_lhs l].
      rewrite (findBinding_first name lhs idx id 0%nat Hidx Hfirst). reflexivity. }
    assert (Hlen : (idx < length lhs)%nat)
      by (eapply lookup_lt_Some; exact Hidx).
    assert (Ht : exists t, bindingType lhs rhsT idx = Some t
                 /\ tcIdVariable (tc (S n)) body name ctx' st1
                    = (Ok (Some t), stamped st1 k site)).
    { unfold tcIdVariable. rewrite Hlook. unfold bind at 1, setDefSite.
      cbn [nodeId body]. unfold bind at 1.
      rewrite (tc_cached n (let_rhs l) ctx' (stamped st1 k site) rhsT)
        by exact Hcached.
      cbn [let_lhs l]. unfold bindingType.
      destruct (1 <? length lhs)%nat eqn:Hmany.
      - destruct rhsT; simpl in Har;
          try (apply Nat.eqb_eq in Har; apply Nat.ltb_lt in Hmany; lia).
        apply Nat.eqb_eq in Har. rewrite <- Har, Nat.eqb_refl.
        destruct (elements !! idx) as [t|] eqn:He.
        + exists t. split; reflexivity.
        + apply lookup_ge_None in He. lia.
      - exists rhsT. split; reflexivity. }
    destruct Ht as (t & Hbt' & Hvar). exists t. split; [exact Hbt'|].
    rewrite (tcLet_run _ _ _ _ _ _ _ _ _ Hnone Hrhs'), Har.
    fold l. fold ctx'.
    rewrite (tc_uncached _ body) by exact Hk. cbn [tcDispatch body].
    unfold tcId. apply String.eqb_neq in Hthis. rewrite Hthis, Hbt.
    rewrite (bind_ok _ _ _ _ _ Hvar). reflexivity.
Qed.

Lemma tcFunctionCall_run fuel i callee args ctx st :
  typeMap st !! i = None ->
  tc (S fuel) (SFunctionCall i callee args) ctx st =
  match tcFunctionCall (tc fuel) (SFunctionCall i callee args) callee args ctx st with
  | (Ok t, s) => (Ok t, cached s i t)
  | (Err f, s) => (Err f, s)
  end.
Proof. intros Hnone. rewrite (tc_uncached _ (SFunctionCall i callee args)) by exact Hnone. reflexivity. Qed.

(** X15. Casts and constructors. Once the callee has checked to a type
    name and the arguments have checked: a cast to a builtin type with one
    argument has that type, whatever the type of the argument; a call of a
    struct name is a memory pointer to the struct, whatever the number and
    the types of the arguments; a cast to a contract is a storage pointer
    to the contract with one argument and [SExprCountMismatch] otherwise.
    And a callee whose type is no type name, function set or function type
    fails with [SWrongType] on the callee, before any argument is checked. *)
Theorem tcFunctionCall_casts fuel i callee args ctx st calleeT st1 :
  typeMap st !! i = None ->
  tc fuel callee ctx st = (Ok calleeT, st1) ->
  let call := SFunctionCall i callee args in
  (forall argTs st2,
     mapM (fun arg => tc fuel arg ctx) args st1 = (Ok argTs, st2) ->
     (forall type, calleeT = SBuiltinTypeNameType type -> length args = 1%nat ->
        tc (S fuel) call ctx st = (Ok type, cached st2 i type))
     /\ (forall s, calleeT = SUserDefinedTypeNameType (DefStruct s) ->
           let t := SPointer
                      (SUserDefinedType (getUserDefinedTypeFQName (DefStruct s))
                         (Some (DefStruct s)))
                      (Some Memory) in
           tc (S fuel) call ctx st = (Ok t, cached st2 i t))
     /\ (forall c, calleeT = SUserDefinedTypeNameType (DefContract c) ->
           let t := SPointer
                      (SUserDefinedType (getUserDefinedTypeFQName (DefContract c))
                         (Some (DefContract c)))
                      (Some Storage) in
           tc (S fuel) call ctx st =
           if (length args =? 1)%nat then (Ok t, cached st2 i t)
           else (Err (SExprCountMismatch call), st2)))
  /\ (isCallable calleeT = false ->
        tc (S fuel) call ctx st = (Err (SWrongType callee calleeT), st1)).
Proof.
  intros Hnone Hcallee call. subst call. split.
  - intros argTs st2 Hargs. pose proof (mapM_length _ _ _ _ _ Hargs) as Hlen.
    split; [|split].
    + intros type -> H1. rewrite (tcFunctionCall_run _ _ _ _ _ _ Hnone).
      unfold tcFunctionCall. rewrite (bind_ok _ _ _ _ _ Hcallee).
      rewrite (bind_ok _ _ _ _ _ Hargs). rewrite H1. reflexivity.
    + intros s -> t. rewrite (tcFunctionCall_run _ _ _ _ _ _ Hnone).
      unfold tcFunctionCall. rewrite (bind_ok _ _ _ _ _ Hcallee).
      rewrite (bind_ok _ _ _ _ _ Hargs). reflexivity.
    + intros c -> t. rewrite (tcFunctionCall_run _ _ _ _ _ _ Hnone).
      unfold tcFunctionCall. rewrite (bind_ok _ _ _ _ _ Hcallee).
      rewrite (bind_ok _ _ _ _ _ Hargs). unfold bind. rewrite Hlen.
      destruct (length args =? 1)%nat; reflexivity.
  - intros Hc. rewrite (tcFunctionCall_run _ _ _ _ _ _ Hnone).
    unfold tcFunctionCall. rewrite (bind_ok _ _ _ _ _ Hcallee).
    destruct calleeT; try discriminate; reflexivity.
Qed.

(** X16. A call of a value of function type (a builtin function). Once
    the callee and the arguments have checked: the call is accepted exactly
    when there are as many arguments as parameters and the type of every
    argument casts implicitly to the type of its parameter; an accepted call
    has the return type of the function type, the tuple of its return types
    when there are several, and fails with [SFunNoReturn] when there is
    none; a call that is not accepted fails with [SArgumentMismatch]. *)
Theorem tcFunctionCall_function_type fuel i callee args ctx st st1 argTs st2
    parameters returns visibility mutability :
  typeMap st !! i = None ->
  tc fuel callee ctx st
  = (Ok (SFunctionType parameters returns visibility mutability), st1) ->
  mapM (fun arg => tc fuel arg ctx) args st1 = (Ok argTs, st2) ->
  let call := SFunctionCall i callee args in
  let accepted :=
    length argTs = length parameters
    /\ Forall2 (fun argT formalT =>
                  isImplicitlyCastable (funSets st2) (SOtherNode 0) argT formalT = true)
         argTs parameters in
  (accepted ->
     tc (S fuel) call ctx st =
     match returns with
     | [] => (Err (SFunNoReturn call), st2)
     | [t] => (Ok t, cached st2 i t)
     | _ => (Ok (STupleType returns), cached st2 i (STupleType returns))
     end)
  /\ (~ accepted -> tc (S fuel) call ctx st = (Err (SArgumentMismatch call), st2)).
Proof.
  intros Hnone Hcallee Hargs call accepted. subst call.
  rewrite (tcFunctionCall_run _ _ _ _ _ _ Hnone).
  unfold tcFunctionCall. rewrite (bind_ok _ _ _ _ _ Hcallee).
  rewrite (bind_ok _ _ _ _ _ Hargs).
  unfold bind, getFunSets, liftR, matchArguments. cbn [rbind funParameters].
  destruct (length argTs =? length parameters)%nat eqn:Hlen; cbn [negb].
  - apply Nat.eqb_eq in Hlen.
    pose proof (matchFormals_Forall2 (funSets st2) args argTs parameters Hlen) as Hm.
    destruct (matchFormals (funSets st2) args argTs parameters) eqn:Hf.
    + split.
      * intros _. unfold callResult. destruct returns as [|t [|t' ts]]; reflexivity.
      * intros Hn. exfalso. apply Hn. split; [exact Hlen|]. apply Hm. reflexivity.
    + split.
      * intros [_ Hacc]. apply Hm in Hacc. discriminate.
      * intros _. reflexivity.
  - apply Nat.eqb_neq in Hlen. split.
    + intros [Hacc _]. contradiction.
    + intros _. reflexivity.
Qed.

(** X17. The type of a call of a function set. Whenever such a call
    returns a type, the set has been narrowed to one declaration, and the
    type is read off that declaration: for a function, the type of its
    return parameter, or the tuple of the types of its return parameters
    when there are several; for a public state variable, the type of the
    variable. These types are those of variables: the type of the call is
    well formed. *)
Theorem tcFunctionCall_resolved fuel i callee args ctx st r st1 t st' :
  typeMap st !! i = None ->
  tc fuel callee ctx st = (Ok (SFunctionSetType r), st1) ->
  tc (S fuel) (SFunctionCall i callee args) ctx st = (Ok t, st') ->
  wellFormed t = true
  /\ exists def arg,
       funSets st' !! r = Some (mkFunctionSet [def] arg)
       /\ match def with
          | FSFun fn =>
              exists retTs,
                rmapM (fun param => astVarToSType param None) (fd_vReturnParameters fn)
                = Ok retTs
                /\ (retTs = [t] \/ (2 <= length retTs)%nat /\ t = STupleType retTs)
          | FSVar v => astVarToSType v None = Ok t
          end.
Proof.
  intros Hnone Hcallee. rewrite (tcFunctionCall_run _ _ _ _ _ _ Hnone).
  unfold tcFunctionCall. rewrite (bind_ok _ _ _ _ _ Hcallee).
  destruct (bind _ _ st1) as [[t0|f] s] eqn:Hrun; [|discriminate].
  intros [= <- <-].
  apply bind_inv in Hrun. destruct Hrun as [(funSet & s1 & _ & Hrun)|(f & _ & [=])].
  cbv zeta in Hrun.
  apply bind_inv in Hrun. destruct Hrun as [(argTs & s2 & _ & Hrun)|(f & _ & [=])].
  apply bind_inv in Hrun. destruct Hrun as [(funSet' & s3 & _ & Hrun)|(f & _ & [=])].
  apply bind_inv in Hrun. destruct Hrun as [(fs & s4 & _ & Hrun)|(f & _ & [=])].
  apply bind_inv in Hrun. destruct Hrun as [(matching & s5 & _ & Hrun)|(f & _ & [=])].
  destruct matching as [|def [|def' rest]]; try discriminate.
  apply bind_inv in Hrun. destruct Hrun as [([] & s6 & Hset & Hrun)|(f & _ & [=])].
  unfold setDefinitions in Hset.
  destruct (funSets s5 !! r) as [f0|] eqn:Hr; [|discriminate].
  injection Hset as <-.
  assert (Hwf : forall params retTs,
    rmapM (fun param => astVarToSType param None) params = Ok retTs ->
    forallb wellFormed retTs = true).
  { induction params as [|p ps IH]; intros retTs; simpl.
    - intros [= <-]. reflexivity.
    - destruct (astVarToSType p None) as [tp|] eqn:Hp; simpl; [|discriminate].
      destruct (rmapM _ ps) as [tps|] eqn:Hps; simpl; [|discriminate].
      intros [= <-]. simpl.
      rewrite (astVarToSType_wf _ _ _ Hp), (IH _ Logic.eq_refl).
      reflexivity. }
  destruct def as [fn|v].
  - apply bind_inv in Hrun. destruct Hrun as [(retTs & s7 & Hret & Hrun)|(f & _ & [=])].
    unfold liftR in Hret.
    destruct (rmapM _ (fd_vReturnParameters fn)) as [retTs'|] eqn:Hrets; [|discriminate].
    injection Hret as <- <-. pose proof (Hwf _ _ Hrets) as Hall.
    unfold callResult in Hrun. destruct retTs' as [|t1 [|t2 ts]]; try discriminate.
    + injection Hrun as <- <-. split.
      * simpl in Hall. apply andb_true_iff in Hall. tauto.
      * exists (FSFun fn), (defaultArg f0). cbn. rewrite lookup_insert_eq.
        split; [reflexivity|]. exists [t1]. auto.
    + injection Hrun as <- <-. split.
      * exact Hall.
      * exists (FSFun fn), (defaultArg f0). cbn. rewrite lookup_insert_eq.
        split; [reflexivity|]. exists (t1 :: t2 :: ts). split; [exact Hrets|].
        right. split; [simpl; lia|reflexivity].
  - assert (Hv : astVarToSType v None = Ok t0
                 /\ s = narrowed s5 r [FSVar v] (defaultArg f0)).
    { destruct (vd_vType v) as [[]|]; try discriminate;
        unfold liftR in Hrun; injection Hrun as Hv <-; auto. }
    destruct Hv as [Hv ->]. split.
    + eapply astVarToSType_wf; eauto.
    + exists (FSVar v), (defaultArg f0). cbn. rewrite lookup_insert_eq. auto.
Qed.

End LetAndCallRules.

(** ** What a run leaves untouched *)

Section Footprint.

Context {host : Host}.

(** X18. A run deletes nothing from the store of function sets and from
    the def-sites: a function set that exists before the run exists after
    it, under the same reference and with the same default argument (only
    its [definitions] can have been reassigned), and an identifier that has
    a def-site keeps one. *)
Theorem tc_keeps_function_sets fuel e ctx st r st' :
  tc fuel e ctx st = (r, st') ->
  (forall ref f, funSets st !! ref = Some f ->
     exists f', funSets st' !! ref = Some f' /\ defaultArg f' = defaultArg f)
  /\ (forall k, is_Some (defSites st !! k) -> is_Some (defSites st' !! k)).
Proof.
  intros Hrun.
  pose proof (tc_triple
    (fun s =>
       (forall ref f, funSets st !! ref = Some f ->
          exists f', funSets s !! ref = Some f' /\ defaultArg f' = defaultArg f)
       /\ (forall k, is_Some (defSites st !! k) -> is_Some (defSites s !! k)))
    (fun _ => True) (fun _ _ => True)) as H.
  specialize (H ltac:(intros e0 t s _ Hs; exact Hs)).
  specialize (H ltac:(
    intros e0 d s [Hs1 Hs2]; split; [exact Hs1|]; intros k Hk; cbn;
    destruct (decide (k = nodeId e0)) as [->|Hne];
    [rewrite lookup_insert_eq; eauto|rewrite lookup_insert_ne by congruence; auto])).
  specialize (H ltac:(
    intros defs a s _ [Hs1 Hs2]; split; [|exact Hs2]; intros ref f Hf; cbn;
    destruct (Hs1 ref f Hf) as (f' & Hf' & Ha); exists f'; split; [|exact Ha];
    rewrite lookup_insert_ne; [exact Hf'|];
    intros <-; apply (is_fresh (dom (funSets s)));
    apply elem_of_dom; eauto)).
  specialize (H ltac:(
    intros r0 f0 defs s Hr0 [Hs1 Hs2]; split; [|exact Hs2]; intros ref f Hf; cbn;
    destruct (Hs1 ref f Hf) as (f' & Hf' & Ha);
    destruct (decide (ref = r0)) as [->|Hne];
    [rewrite lookup_insert_eq; eexists; split; [reflexivity|]; cbn; congruence
    |rewrite lookup_insert_ne by congruence; eauto])).
  specialize (H ltac:(intros; exact Logic.I)).
  specialize (H ltac:(intros; exact Logic.I)).
  specialize (H ltac:(intros; exact Logic.I)).
  specialize (H ltac:(intros; exact Logic.I)).
  specialize (H ltac:(intros; exact Logic.I)).
  specialize (H fuel e ctx Logic.I ltac:(intros n _; exact Logic.I) st
    ltac:(split; [intros ref f Hf; eauto|intros k Hk; exact Hk])).
  rewrite Hrun in H. destruct r; apply H.
Qed.

(** X19. The footprint of a run on the cache. A run writes the type map
    only at nodes within its reach (the node checked and the nodes below
    it, the right-hand sides of the [let] scopes of the context, the
    default arguments of the function sets of the state): the entry of
    every other node is after the run what it was before. And the default
    argument of every function set that exists after the run is a node
    within that reach. *)
Theorem tc_footprint fuel e ctx st r st' :
  tc fuel e ctx st = (r, st') ->
  (forall k, ~ withinReach e ctx st k -> typeMap st' !! k = typeMap st !! k)
  /\ (forall ref f a, funSets st' !! ref = Some f -> defaultArg f = Some a ->
        forall k, In k (subIds a) -> withinReach e ctx st k).
Proof.
  intros Hrun.
  pose proof (tc_frame (withinReach e ctx st) (typeMap st) fuel e ctx st r st') as H.
  apply H in Hrun.
  - exact Hrun.
  - intros k Hk. left. exact Hk.
  - intros n Hn k Hk. right. left. eauto.
  - split; [reflexivity|]. intros ref f a Hf Ha k Hk. right. right. eauto 6.
Qed.

(** X20. Where an unknown identifier comes from: when a run fails with
    [SUnknownId], the node named by the failure is an identifier, and no
    scope of the context the run started in binds its name as a variable,
    even when the failure arose under [let] scopes pushed by the run. *)
Theorem tc_unknown_identifier fuel e ctx st n st' :
  tc fuel e ctx st = (Err (SUnknownId n), st') ->
  exists i name, n = SId i name /\ lookupVarDef name ctx = None.
Proof.
  intros Hrun.
  pose proof (tc_triple
    (fun _ => True) (fun _ => True)
    (fun c f => forall n0, f = SUnknownId n0 ->
                  exists i name, n0 = SId i name /\ lookupVarDef name c = None)) as H.
  specialize (H ltac:(intros; exact Logic.I)).
  specialize (H ltac:(intros; exact Logic.I)).
  specialize (H ltac:(intros; exact Logic.I)).
  specialize (H ltac:(intros; exact Logic.I)).
  specialize (H ltac:(intros; exact Logic.I)).
  specialize (H ltac:(intros c f0 Hf n0 ->; exfalso; eapply Hf; reflexivity)).
  specialize (H ltac:(intros c i name Hl n0 [= <-]; eauto)).
  specialize (H ltac:(
    intros c l f0 Hf n0 Hn; destruct (Hf n0 Hn) as (i & name & Hi & Hl);
    exists i, name; split; [exact Hi|]; eapply lookupVarDef_snoc_let_None; exact Hl)).
  specialize (H ltac:(intros; exact Logic.I)).
  specialize (H fuel e ctx Logic.I ltac:(intros n0 _; exact Logic.I) st Logic.I).
  rewrite Hrun in H. destruct H as [_ H]. apply H. reflexivity.
Qed.

End Footprint.

(** ** Node ids and the construction of binary expressions *)

Section NodeConstruction.

Lemma buildBinaryExpression_snoc head tail item n :
  buildBinaryExpression head (tail ++ [item]) n =
  newSBinaryOperation (fst (buildBinaryExpression head tail n)) (curOp item)
    (curVal item) (snd (buildBinaryExpression head tail n)).
Proof. unfold buildBinaryExpression. rewrite fold_left_app. reflexivity. Qed.

Lemma buildBinaryExpression_counter head tail n :
  snd (buildBinaryExpression head tail n) = (n + length tail)%nat.
Proof.
  induction tail as [|item tail IH] using rev_ind.
  - simpl. lia.
  - rewrite buildBinaryExpression_snoc, length_app. cbn. rewrite IH. lia.
Qed.

(** X21. The parser's helper builds the chain of binary operations nested
    to the left: reading the result back along its left operands gives the
    head and the operators and operands of the tail, in order; one node is
    constructed per element of the tail; and an element appended to the tail
    becomes the root, with the expression built so far as its left
    operand. *)
Theorem buildBinaryExpression_chain head tail n :
  unchain (length tail) (fst (buildBinaryExpression head tail n))
  = (head, map (fun item => (curOp item, curVal item)) tail)
  /\ snd (buildBinaryExpression head tail n) = (n + length tail)%nat
  /\ (forall item,
        fst (buildBinaryExpression head (tail ++ [item]) n)
        = SBinaryOperation (n + length tail)
            (fst (buildBinaryExpression head tail n)) (curOp item) (curVal item)).
Proof.
  split; [|split].
  - induction tail as [|item tail IH] using rev_ind.
    + reflexivity.
    + rewrite buildBinaryExpression_snoc, length_app, Nat.add_comm. cbn.
      rewrite IH, map_app. reflexivity.
  - apply buildBinaryExpression_counter.
  - intros item. rewrite buildBinaryExpression_snoc. cbn.
    rewrite buildBinaryExpression_counter. reflexivity.
Qed.

Lemma subIds_proper e : subIds e = nodeId e :: properSubIds e.
Proof.
  destruct e; unfold properSubIds; simpl; rewrite ?app_nil_r; reflexivity.
Qed.

Lemma buildBinaryExpression_subIds head tail n :
  (forall k, In k (operandIds head tail) -> (k < n)%nat) ->
  NoDup (operandIds head tail) ->
  let e := fst (buildBinaryExpression head tail n) in
  NoDup (subIds e)
  /\ (forall k, In k (subIds e) <->
        (n <= k < n + length tail)%nat \/ In k (operandIds head tail)).
Proof.
  unfold operandIds. induction tail as [|item tail IH] using rev_ind; intros Hlt Hnd.
  - cbn in *. rewrite app_nil_r in *. split; [exact Hnd|].
    intros k. split; [auto|]. intros [H|H]; [lia|exact H].
  - rewrite flat_map_app in Hlt, Hnd. cbn [flat_map] in Hlt, Hnd.
    rewrite app_nil_r in Hlt, Hnd. rewrite app_assoc in Hlt, Hnd.
    apply NoDup_app in Hnd. destruct Hnd as (Hnd1 & Hdisj & Hnd2).
    destruct IH as [IH1 IH2];
      [intros k Hk; apply Hlt; apply in_or_app; left; exact Hk|exact Hnd1|].
    cbv zeta. rewrite buildBinaryExpression_snoc. cbn.
    rewrite buildBinaryExpression_counter.
    assert (Hnew : forall k,
      In k (subIds (fst (buildBinaryExpression head tail n)) ++ subIds (curVal item))
      -> (k < n + length tail)%nat).
    { intros k Hk. apply in_app_or in Hk. destruct Hk as [Hk|Hk].
      - apply IH2 in Hk. destruct Hk as [Hk|Hk]; [lia|].
        assert (k < n)%nat by (apply Hlt; apply in_or_app; left; exact Hk). lia.
      - assert (k < n)%nat by (apply Hlt; apply in_or_app; right; exact Hk). lia. }
    split.
    + apply NoDup_cons. split.
      * rewrite list_elem_of_In. intros Hk. apply Hnew in Hk. lia.
      * apply NoDup_app. split; [exact IH1|]. split; [|exact Hnd2].
        intros k Hk Hk'. rewrite list_elem_of_In in Hk.
        apply IH2 in Hk. destruct Hk as [Hk|Hk].
        -- rewrite list_elem_of_In in Hk'.
           assert (k < n)%nat by (apply Hlt; apply in_or_app; right; exact Hk'). lia.
        -- apply (Hdisj k); [rewrite list_elem_of_In; exact Hk|exact Hk'].
    + intros k. rewrite length_app. cbn [length].
      rewrite flat_map_app. cbn [flat_map]. rewrite app_nil_r.
      rewrite !in_app_iff, IH2, !in_app_iff. split.
      * intros [<-|[[H|[H|H]]|H]]; auto; left; lia.
      * intros [H|[H|[H|H]]]; auto.
        destruct (decide (k = n + length tail)%nat) as [->|Hne]; [left; reflexivity|].
        right. left. left. lia.
Qed.

(** X22. Node ids of a built expression. When the operands were
    constructed before (their ids lie below the counter) and their ids are
    pairwise distinct, the ids of the nodes of the expression built are
    pairwise distinct, lie below the counter that is returned, and are the
    new ids together with those of the operands; in particular the id of
    the root is not the id of a node below the root. *)
Theorem buildBinaryExpression_ids head tail n :
  (forall k, In k (operandIds head tail) -> (k < n)%nat) ->
  NoDup (operandIds head tail) ->
  let e := fst (buildBinaryExpression head tail n) in
  NoDup (subIds e)
  /\ (forall k, In k (subIds e) <->
        (n <= k < n + length tail)%nat \/ In k (operandIds head tail))
  /\ (forall k, In k (subIds e) -> (k < snd (buildBinaryExpression head tail n))%nat)
  /\ ~ In (nodeId e) (properSubIds e).
Proof.
  intros Hlt Hnd e.
  destruct (buildBinaryExpression_subIds head tail n Hlt Hnd) as [H1 H2].
  fold e in H1, H2. split; [exact H1|]. split; [exact H2|]. split.
  - intros k Hk. rewrite buildBinaryExpression_counter. apply H2 in Hk.
    destruct Hk as [Hk|Hk]; [lia|]. apply Hlt in Hk. lia.
  - rewrite subIds_proper in H1. apply NoDup_cons in H1. destruct H1 as [H1 _].
    rewrite list_elem_of_In in H1. exact H1.
Qed.

End NodeConstruction.

(** ** Termination: the recursion of [tc] is bounded by the depth *)

Section Termination.

Context {host : Host}.

Lemma grows_same s s' :
  typeMap s' = typeMap s -> funSets s' = funSets s -> grows s s'.
Proof.
  intros Ht Hf. split.
  - intros k t H. rewrite Ht. exact H.
  - intros r f H. exists f. rewrite Hf. split; [exact H|].
    split; [reflexivity|apply incl_refl].
Qed.

Lemma grows_refl s : grows s s.
Proof. apply grows_same; reflexivity. Qed.

Lemma grows_trans s1 s2 s3 : grows s1 s2 -> grows s2 s3 -> grows s1 s3.
Proof.
  intros [H1 G1] [H2 G2]. split.
  - intros k t H. auto.
  - intros r f Hf. destruct (G1 r f Hf) as (f1 & Hf1 & Ha1 & Hi1).
    destruct (G2 r f1 Hf1) as (f2 & Hf2 & Ha2 & Hi2).
    exists f2. split; [exact Hf2|]. split; [congruence|].
    eapply incl_tran; eauto.
Qed.

Lemma grows_cached s s' k :
  grows s s' -> is_Some (typeMap s !! k) -> is_Some (typeMap s' !! k).
Proof. intros [Hg _] [t Ht]. exists t. apply Hg. exact Ht. Qed.

Lemma ctxCached_grows ctx s s' : ctxCached ctx s -> grows s s' -> ctxCached ctx s'.
Proof. intros H Hg n Hn. eapply grows_cached; eauto. Qed.

Lemma internal_not_bound f : isInternal f -> f <> OutOfFuel.
Proof. intros [msg ->]. discriminate. Qed.

Lemma fine_bind {A B} s (m : M A) (k : A -> M B) Q Q' :
  fine s m Q ->
  (forall a s1, grows s s1 -> storeCached s1 -> Q a s1 -> fine s1 (k a) Q') ->
  fine s (bind m k) Q'.
Proof.
  unfold fine, bind. destruct (m s) as [[a|f] s1]; [|auto].
  intros (Hg & Hs & Hq) Hk. specialize (Hk a s1 Hg Hs Hq).
  destruct (k a s1) as [[b|f] s2]; destruct Hk as (Hg' & Hs' & Hq');
    (split; [eapply grows_trans; eauto|auto]).
Qed.

Lemma fine_weaken {A} s (m : M A) (Q Q' : A -> TcState -> Prop) :
  fine s m Q -> (forall a s', Q a s' -> Q' a s') -> fine s m Q'.
Proof.
  unfold fine. destruct (m s) as [[a|f] s1]; [|auto].
  intros (Hg & Hs & Hq) H. auto.
Qed.

Lemma fine_ret {A} s (a : A) (Q : A -> TcState -> Prop) :
  storeCached s -> Q a s -> fine s (ret a) Q.
Proof. intros Hs Hq. unfold fine, ret. auto using grows_refl. Qed.

Lemma fine_throw {A} s f (Q : A -> TcState -> Prop) :
  storeCached s -> f <> OutOfFuel -> fine s (throw f) Q.
Proof. intros Hs Hf. unfold fine, throw. auto using grows_refl. Qed.

Lemma fine_liftR {A} s (r : Result A) (Q : A -> TcState -> Prop) :
  storeCached s -> (forall f, r = Err f -> isInternal f) ->
  (forall a, r = Ok a -> Q a s) -> fine s (liftR r) Q.
Proof.
  intros Hs Hf Hq. unfold fine, liftR. destruct r as [a|f].
  - auto using grows_refl.
  - split; [apply grows_refl|]. split; [exact Hs|].
    apply internal_not_bound. auto.
Qed.

Lemma fine_getFunSets s (Q : gmap nat FunctionSet -> TcState -> Prop) :
  storeCached s -> Q (funSets s) s -> fine s getFunSets Q.
Proof. intros Hs Hq. unfold fine, getFunSets. auto using grows_refl. Qed.

Lemma fine_setDefSite s e site :
  storeCached s -> fine s (setDefSite e site) (fun _ _ => True).
Proof.
  intros Hs. unfold fine, setDefSite. split; [apply grows_same; reflexivity|].
  split; [exact Hs|exact Logic.I].
Qed.

Lemma fine_newFunctionSet s defs arg :
  storeCached s -> (forall a, arg = Some a -> is_Some (typeMap s !! nodeId a)) ->
  fine s (newFunctionSet defs arg) (fun _ _ => True).
Proof.
  intros Hs Ha. unfold fine, newFunctionSet. split.
  { split; [intros k t0 Hk; exact Hk|]. intros r f Hf. exists f. cbn.
    rewrite lookup_insert_ne.
    - split; [exact Hf|]. split; [reflexivity|apply incl_refl].
    - intros <-. apply (is_fresh (dom (funSets s))). apply elem_of_dom. eauto. }
  split; [|exact Logic.I]. intros r f a. cbn.
  destruct (decide (r = fresh (dom (funSets s)))) as [->|Hne].
  - rewrite lookup_insert_eq. intros [= <-]. cbn. apply Ha.
  - rewrite lookup_insert_ne by congruence. apply Hs.
Qed.

Lemma fine_getFunctionSet s r :
  storeCached s ->
  fine s (getFunctionSet r)
    (fun f s' => s' = s /\ funSets s !! r = Some f
                 /\ forall a, defaultArg f = Some a ->
                              is_Some (typeMap s !! nodeId a)).
Proof.
  intros Hs. unfold fine, getFunctionSet.
  destruct (funSets s !! r) as [f|] eqn:Hr.
  - split; [apply grows_refl|]. split; [exact Hs|]. split; [reflexivity|].
    split; [reflexivity|]. intros a Ha. eapply Hs; eauto.
  - split; [apply grows_refl|]. split; [exact Hs|discriminate].
Qed.

Lemma fine_setDefinitions s r defs :
  storeCached s ->
  (forall f, funSets s !! r = Some f -> incl defs (definitions f)) ->
  fine s (setDefinitions r defs) (fun _ _ => True).
Proof.
  intros Hs Hincl. unfold fine, setDefinitions.
  destruct (funSets s !! r) as [f|] eqn:Hr.
  - split.
    { split; [intros k t0 Hk; exact Hk|]. intros r' f' Hf'. cbn.
      destruct (decide (r' = r)) as [->|Hne].
      - rewrite lookup_insert_eq. eexists. split; [reflexivity|]. cbn.
        assert (f' = f) by congruence. subst f'. split; [reflexivity|].
        apply Hincl. reflexivity.
      - rewrite lookup_insert_ne by congruence. exists f'.
        split; [exact Hf'|]. split; [reflexivity|apply incl_refl]. }
    split; [|exact Logic.I]. intros r' f' a. cbn.
    destruct (decide (r' = r)) as [->|Hne].
    + rewrite lookup_insert_eq. intros [= <-]. cbn. eapply Hs; eauto.
    + rewrite lookup_insert_ne by congruence. apply Hs.
  - split; [apply grows_refl|]. split; [exact Hs|discriminate].
Qed.

Lemma fine_unifyTypes s a ta b tb p :
  storeCached s -> fine s (unifyTypes a ta b tb p) (fun _ s' => s' = s).
Proof.
  intros Hs. unfold fine. destruct (unifyTypes a ta b tb p s) as [r s'] eqn:Hu.
  apply unifyTypes_inv in Hu. destruct Hu as [-> Hr].
  destruct Hr as [-> | [-> | ->]]; auto using grows_refl.
Qed.

Lemma fine_callResult s retTs expr :
  storeCached s -> fine s (callResult retTs expr) (fun _ _ => True).
Proof.
  intros Hs. unfold callResult. destruct retTs as [|t [|t' ts]].
  - apply fine_throw; [exact Hs|discriminate].
  - apply fine_ret; auto.
  - apply fine_ret; auto.
Qed.

Section Rules.

Variable rec : SNode -> STypingCtx -> M SType.
Variable d : nat.

Hypothesis Hrec : forall e ctx s,
  storeCached s -> ctxCached ctx s ->
  (depth e < d)%nat \/ is_Some (typeMap s !! nodeId e) ->
  fine s (rec e ctx) (fun _ s' => is_Some (typeMap s' !! nodeId e)).

(** A step of a proof that a rule is fine: the next operation of the
    rule, with the facts it needs taken from the context. *)
Ltac fstep :=
  lazymatch goal with
  | |- fine _ (bind (rec _ _) _) _ =>
      eapply fine_bind;
      [apply Hrec; [assumption|eauto using ctxCached_grows|left; simpl in *; lia]
      |intros ? ? ? ? ?]
  | |- fine _ (bind (unifyTypes _ _ _ _ _) _) _ =>
      eapply fine_bind; [apply fine_unifyTypes; assumption|intros ? ? ? ? ->]
  | |- fine _ (bind getFunSets _) _ =>
      eapply fine_bind;
      [apply fine_getFunSets with (Q := fun _ s' => True); [assumption|exact Logic.I]
      |intros ? ? ? ? _]
  | |- fine _ (bind (setDefSite _ _) _) _ =>
      eapply fine_bind; [apply fine_setDefSite; assumption|intros ? ? ? ? _]
  | |- fine _ (ret _) _ => apply fine_ret; [assumption|try exact Logic.I]
  | |- fine _ (throw _) _ => apply fine_throw; [assumption|discriminate]
  | |- fine _ (unifyTypes _ _ _ _ _) _ =>
      eapply fine_weaken; [apply fine_unifyTypes; assumption|intros; exact Logic.I]
  | |- fine _ (callResult _ _) _ => apply fine_callResult; assumption
  | |- fine _ (if ?b then _ else _) _ => destruct b eqn:?
  | |- fine _ (match ?x with _ => _ end) _ => destruct x eqn:?
  end.

Lemma tcUnary_fine expr op subexp ctx s :
  (depth subexp < d)%nat -> storeCached s -> ctxCached ctx s ->
  fine s (tcUnary rec expr op subexp ctx) (fun _ _ => True).
Proof.
  intros Hd Hs Hc. unfold tcUnary. repeat fstep.
  eapply fine_weaken; [apply Hrec; auto|intros; exact Logic.I].
Qed.

Lemma tcBinary_fine expr l op r ctx s :
  (depth l < d)%nat -> (depth r < d)%nat -> storeCached s -> ctxCached ctx s ->
  fine s (tcBinary rec expr l op r ctx) (fun _ _ => True).
Proof. intros Hl Hr Hs Hc. unfold tcBinary. repeat fstep. Qed.

Lemma tcConditional_fine expr c t f ctx s :
  (depth c < d)%nat -> (depth t < d)%nat -> (depth f < d)%nat ->
  storeCached s -> ctxCached ctx s ->
  fine s (tcConditional rec expr c t f ctx) (fun _ _ => True).
Proof. intros H1 H2 H3 Hs Hc. unfold tcConditional. repeat fstep. Qed.

Lemma tcIndexAccess_fine expr base index ctx s :
  (depth base < d)%nat -> (depth index < d)%nat -> storeCached s -> ctxCached ctx s ->
  fine s (tcIndexAccess rec expr base index ctx) (fun _ _ => True).
Proof. intros H1 H2 Hs Hc. unfold tcIndexAccess. repeat fstep. Qed.

Lemma tcResult_fine expr ctx s :
  storeCached s -> fine s (tcResult expr ctx) (fun _ _ => True).
Proof.
  intros Hs. unfold tcResult.
  destruct (last ctx) as [[u|c|fn|l]|]; try (apply fine_throw; [exact Hs|discriminate]).
  destruct (fd_vReturnParameters fn) as [|p [|q ps]].
  - fstep.
  - destruct (vd_vType p); [|fstep].
    apply fine_liftR; [exact Hs|apply astTypeNameToSType_err|auto].
  - eapply fine_bind; [|intros ? ? ? ? _; fstep].
    apply fine_liftR with (Q := fun _ _ => True); [exact Hs| |auto].
    apply rmapM_err. intros x f0 _.
    destruct (vd_vType x); [apply astTypeNameToSType_err|].
    intros [= <-]. eexists; reflexivity.
Qed.

Lemma tcIdVariable_fine expr name ctx s :
  storeCached s -> ctxCached ctx s ->
  fine s (tcIdVariable rec expr name ctx) (fun _ _ => True).
Proof.
  intros Hs Hc. unfold tcIdVariable.
  destruct (lookupVarDef name ctx) as [[v|l idx]|] eqn:Hl; [| |fstep].
  - fstep. destruct (vd_vType v); [|fstep].
    eapply fine_bind; [|intros ? ? ? ? _; fstep].
    apply fine_liftR with (Q := fun _ _ => True);
      [assumption|apply astVarToSType_err|auto].
  - apply lookupVarDef_let in Hl. destruct Hl as [Hin _].
    apply ctxNodes_let in Hin. fstep.
    eapply fine_bind.
    + apply Hrec; [assumption|eauto using ctxCached_grows|].
      right. match goal with Hg : grows s _ |- _ => apply (grows_cached _ _ _ Hg) end.
      apply Hc. exact Hin.
    + intros ? ? ? ? ?. repeat fstep.
Qed.

Lemma tcId_fine expr name ctx s :
  storeCached s -> ctxCached ctx s ->
  fine s (tcId rec expr name ctx) (fun _ _ => True).
Proof.
  intros Hs Hc. unfold tcId.
  destruct (String.eqb name "this").
  { fstep. eapply fine_bind; [|intros ? ? ? ? _; fstep].
    apply fine_liftR with (Q := fun _ _ => True);
      [assumption|apply ctxContract_err|auto]. }
  destruct (tcIdBuiltinType name); [fstep|].
  eapply fine_bind; [apply tcIdVariable_fine; assumption|intros ? ? ? ? _].
  destruct a; [fstep|].
  eapply fine_bind;
    [apply fine_liftR with (Q := fun _ _ => True);
       [assumption|apply ctxContract_err|auto]
    |intros ? ? ? ? _].
  cbv zeta. destruct (0 <? _)%nat.
  { fstep. apply fine_newFunctionSet; [assumption|discriminate]. }
  repeat fstep.
Qed.

Lemma tcMemberAccessUsingFor_fine base member baseT ctx s :
  storeCached s -> is_Some (typeMap s !! nodeId base) ->
  fine s (tcMemberAccessUsingFor base member baseT ctx) (fun _ _ => True).
Proof.
  intros Hs Hb. unfold tcMemberAccessUsingFor. cbv zeta.
  eapply fine_bind;
    [apply fine_getFunSets with (Q := fun _ s' => s' = s); [assumption|reflexivity]
    |intros ? ? ? ? ->].
  eapply fine_bind;
    [apply fine_liftR with (Q := fun _ s' => s' = s);
       [assumption|apply usingForFunctions_err|reflexivity]
    |intros ? ? ? ? ->].
  destruct (0 <? _)%nat; [|fstep].
  apply fine_newFunctionSet; [assumption|]. intros arg [= <-]. exact Hb.
Qed.

Lemma tcMemberAccess_fine expr base member ctx s :
  (depth base < d)%nat -> storeCached s -> ctxCached ctx s ->
  fine s (tcMemberAccess rec expr base member ctx) (fun _ _ => True).
Proof.
  intros Hd Hs Hc. unfold tcMemberAccess.
  eapply fine_bind; [apply Hrec; [assumption|assumption|left; exact Hd]|].
  intros baseT s1 Hg Hs1 Hb.
  assert (Huf : forall baseT,
    fine s1 (tcMemberAccessUsingFor base member baseT ctx) (fun _ _ => True))
    by (intros; apply tcMemberAccessUsingFor_fine; assumption).
  destruct baseT as [| | | | | | | | | | | |to loc| | | |definition|r];
    try apply Huf.
  - repeat fstep.
  - destruct to; try apply Huf.
    + fstep; [fstep|apply Huf].
    + destruct definition as [[rawDef|e0|rawDef]|]; try apply Huf.
      * destruct (find _ (sd_vMembers rawDef)); [|fstep].
        apply fine_liftR; [assumption|apply astVarToSType_err|auto].
      * cbv zeta. destruct (0 <? _)%nat.
        { apply fine_newFunctionSet; [assumption|discriminate]. }
        destruct (find _ (cd_vStateVariables rawDef)).
        { apply fine_newFunctionSet; [assumption|discriminate]. }
        repeat fstep.
  - repeat fstep.
  - destruct definition as [s0|e0|c].
    + apply Huf.
    + destruct (existsb _ (ed_vMembers e0)); [fstep|apply Huf].
    + destruct (resolveTypeDef _ member); [fstep|]. cbv zeta.
      destruct (0 <? _)%nat; [|apply Huf].
      apply fine_newFunctionSet; [assumption|discriminate].
  - destruct (String.eqb member "selector"); [|apply Huf].
    eapply fine_bind; [apply fine_getFunctionSet; assumption|].
    intros f0 s2 _ _ [-> _]. destruct (_ =? 1)%nat; [fstep|apply Huf].
Qed.

Lemma ctxCached_snoc ctx l s :
  ctxCached ctx s -> is_Some (typeMap s !! nodeId (let_rhs l)) ->
  ctxCached (ctx ++ [ScopeLet l]) s.
Proof.
  intros Hc Hl n. rewrite ctxNodes_snoc, in_app_iff. simpl.
  intros [H|[<-|[]]]; auto.
Qed.

Lemma tcLet_fine expr l ctx s :
  (depth (let_rhs l) < d)%nat -> (depth (let_in l) < d)%nat ->
  storeCached s -> ctxCached ctx s ->
  fine s (tcLet rec expr l ctx) (fun _ _ => True).
Proof.
  intros H1 H2 Hs Hc. unfold tcLet.
  eapply fine_bind; [apply Hrec; [assumption|assumption|left; exact H1]|].
  intros rhsT s1 Hg Hs1 Hr.
  assert (Hc1 : ctxCached (ctx ++ [ScopeLet l]) s1)
    by (apply ctxCached_snoc; [eauto using ctxCached_grows|assumption]).
  eapply fine_bind with (Q := fun _ s' => s' = s1).
  - destruct rhsT; repeat fstep; reflexivity.
  - intros ? ? _ _ ->.
    eapply fine_weaken; [apply Hrec; auto|intros; exact Logic.I].
Qed.

Lemma mapM_fine ctx args : forall s,
  storeCached s -> ctxCached ctx s ->
  (forall a, In a args -> (depth a < d)%nat \/ is_Some (typeMap s !! nodeId a)) ->
  fine s (mapM (fun arg => rec arg ctx) args) (fun _ _ => True).
Proof.
  induction args as [|x xs IH]; intros s Hs Hc Ha; cbn [mapM].
  - fstep.
  - eapply fine_bind; [apply Hrec; [assumption|assumption|apply Ha; left; reflexivity]|].
    intros y s1 Hg Hs1 _. eapply fine_bind.
    + apply IH; [assumption|eauto using ctxCached_grows|].
      intros a Hin. destruct (Ha a (or_intror Hin)) as [H|H];
        [left; exact H|right; eapply grows_cached; eauto].
    + intros ys s2 _ Hs2 _. fstep.
Qed.

Lemma depth_args a args :
  In a args -> (depth a <= fold_right Nat.max 0%nat (map depth args))%nat.
Proof.
  induction args as [|x xs IH]; simpl; [tauto|].
  intros [<-|H]; [lia|]. specialize (IH H). lia.
Qed.

Lemma tcFunctionCall_fine expr callee args ctx s :
  (depth callee < d)%nat -> (forall a, In a args -> (depth a < d)%nat) ->
  storeCached s -> ctxCached ctx s ->
  fine s (tcFunctionCall rec expr callee args ctx) (fun _ _ => True).
Proof.
  intros Hd Ha Hs Hc. unfold tcFunctionCall.
  eapply fine_bind; [apply Hrec; [assumption|assumption|left; exact Hd]|].
  intros calleeT s1 Hg Hs1 _.
  assert (Hc1 : ctxCached ctx s1) by eauto using ctxCached_grows.
  assert (Hargs : fine s1 (mapM (fun arg => rec arg ctx) args) (fun _ _ => True))
    by (apply mapM_fine; auto).
  destruct calleeT; try (apply fine_throw; [assumption|discriminate]).
  - eapply fine_bind; [exact Hargs|intros ? ? ? ? _].
    eapply fine_bind;
      [apply fine_getFunSets with (Q := fun _ _ => True); [assumption|exact Logic.I]
      |intros ? ? ? ? _].
    eapply fine_bind;
      [apply fine_liftR with (Q := fun _ _ => True);
         [assumption|apply matchArguments_err|auto]
      |intros ? ? ? ? _].
    repeat fstep.
  - eapply fine_bind; [exact Hargs|intros ? ? ? ? _]. repeat fstep.
  - eapply fine_bind; [exact Hargs|intros ? ? ? ? _].
    eapply fine_bind with (Q := fun _ _ => True); [|intros ? ? ? ? _; fstep].
    destruct definition; repeat fstep.
  - eapply fine_bind; [apply fine_getFunctionSet; assumption|].
    intros funSet s2 _ _ [-> [_ Hdef]]. cbv zeta.
    eapply fine_bind.
    + apply mapM_fine; [assumption|assumption|].
      intros x Hx. destruct (defaultArg funSet) as [arg|] eqn:Harg.
      * destruct Hx as [<-|Hx]; [right; apply Hdef; reflexivity|left; auto].
      * left; auto.
    + intros argTs s2 _ Hs2 _.
      eapply fine_bind; [apply fine_getFunctionSet; assumption|].
      intros funSet' s3 _ _ [-> [Hset' _]].
      eapply fine_bind;
        [apply fine_getFunSets with (Q := fun fs s' => s' = s2 /\ fs = funSets s2);
           [assumption|split; reflexivity]
        |intros fs ? _ _ [-> ->]].
      eapply fine_bind;
        [apply fine_liftR
           with (Q := fun m s' =>
                        s' = s2
                        /\ matchingDefinitions (funSets s2) args
                             match defaultArg funSet with
                             | Some arg => arg :: args
                             | None => args
                             end argTs (definitions funSet') = Ok m);
           [assumption|apply matchingDefinitions_err|intros m Hm; split; [reflexivity|exact Hm]]
        |intros matching ? _ _ [-> Hmatch]].
      destruct matching as [|def [|def' rest]];
        try (apply fine_throw; [assumption|discriminate]).
      eapply fine_bind; [apply fine_setDefinitions; [assumption|]|intros ? ? ? ? _].
      { intros f1 Hf1 x [Hx|[]]. assert (f1 = funSet') by congruence. subst f1.
        apply (matchingDefinitions_In _ _ _ _ _ _ Hmatch x). left. exact Hx. }
      destruct def as [fn|v].
      * eapply fine_bind;
          [apply fine_liftR with (Q := fun _ _ => True); [assumption| |auto]
          |intros ? ? ? ? _; fstep].
        apply rmapM_err. intros x f0 _. apply astVarToSType_err.
      * assert (Hv : forall s', storeCached s' ->
                  fine s' (liftR (astVarToSType v None)) (fun _ _ => True))
          by (intros; apply fine_liftR; [assumption|apply astVarToSType_err|auto]).
        destruct (vd_vType v) as [[]|]; try (apply Hv; assumption).
        apply fine_throw; [assumption|discriminate].
Qed.

Lemma tcDispatch_fine e ctx s :
  (depth e <= d)%nat -> storeCached s -> ctxCached ctx s ->
  fine s (tcDispatch rec e ctx) (fun _ _ => True).
Proof.
  intros Hd Hs Hc. destruct e; cbn [tcDispatch]; simpl in Hd;
    try (apply fine_ret; [assumption|exact Logic.I]);
    try (apply fine_throw; [assumption|discriminate]).
  - apply tcId_fine; assumption.
  - apply tcResult_fine; assumption.
  - apply tcUnary_fine; [lia|assumption|assumption].
  - apply tcBinary_fine; [lia|lia|assumption|assumption].
  - apply tcConditional_fine; [lia|lia|lia|assumption|assumption].
  - apply tcIndexAccess_fine; [lia|lia|assumption|assumption].
  - apply tcMemberAccess_fine; [lia|assumption|assumption].
  - apply tcLet_fine; [simpl; lia|simpl; lia|assumption|assumption].
  - apply tcFunctionCall_fine; [lia| |assumption|assumption].
    intros a Ha. apply depth_args in Ha. lia.
  - destruct t; try (apply fine_ret; [assumption|exact Logic.I]).
    destruct definition; [fstep|fstep].
Qed.

Lemma tcBody_fine e ctx s :
  (depth e <= d)%nat \/ is_Some (typeMap s !! nodeId e) ->
  storeCached s -> ctxCached ctx s ->
  fine s (tcBody rec e ctx) (fun _ s' => is_Some (typeMap s' !! nodeId e)).
Proof.
  intros Hd Hs Hc. unfold fine, tcBody.
  destruct (typeMap s !! nodeId e) as [t|] eqn:Ht.
  - split; [apply grows_refl|]. split; [exact Hs|]. rewrite Ht. eauto.
  - destruct Hd as [Hd|[t Hd]]; [|congruence].
    pose proof (tcDispatch_fine e ctx s Hd Hs Hc) as H. unfold fine in H.
    unfold bind. destruct (tcDispatch rec e ctx s) as [[t|f] s1]; [|exact H].
    destruct H as (Hg & Hs1 & _). cbn. split; [|split].
    + split; [|exact (proj2 Hg)].
      intros k t0 Hk. cbn. rewrite lookup_insert_ne by congruence.
      apply (proj1 Hg). exact Hk.
    + intros r f a Hf Ha. cbn in Hf |- *.
      destruct (decide (nodeId a = nodeId e)) as [->|Hne];
        [rewrite lookup_insert_eq; eauto
        |rewrite lookup_insert_ne by congruence; eapply Hs1; eauto].
    + rewrite lookup_insert_eq. eauto.
Qed.

End Rules.

Lemma tc_fine fuel : forall e ctx s,
  storeCached s -> ctxCached ctx s ->
  (depth e + 2 <= fuel)%nat \/ (1 <= fuel)%nat /\ is_Some (typeMap s !! nodeId e) ->
  fine s (tc fuel e ctx) (fun _ s' => is_Some (typeMap s' !! nodeId e)).
Proof.
  induction fuel as [|m IH]; intros e ctx s Hs Hc Hd.
  - destruct Hd as [Hd|[Hd _]]; lia.
  - cbn [tc]. destruct m as [|m].
    + destruct Hd as [Hd|[_ [t Ht]]]; [lia|].
      unfold fine, tcBody. rewrite Ht.
      split; [apply grows_refl|]. split; [exact Hs|]. rewrite Ht. eauto.
    + apply (tcBody_fine (tc (S m)) m).
      * intros e0 ctx0 s0 Hs0 Hc0 Hd0. apply IH; [assumption|assumption|].
        destruct Hd0 as [Hd0|Hd0]; [left; lia|right; split; [lia|exact Hd0]].
      * destruct Hd as [Hd|[_ Hd]]; [left; lia|right; exact Hd].
      * exact Hs.
      * exact Hc.
Qed.

(** X23. The checker terminates. From a state in which the right-hand
    sides of the [let] scopes of the context and the default arguments of
    the function sets are cached (so from any state with no function set,
    in a context with no [let] scope), the recursion of [tc] on an
    expression is never deeper than the depth of the expression plus two:
    with that bound or any larger one the run ends with one and the same
    outcome, which is not the bound of the model; and the state it leaves
    satisfies the same condition. *)
Theorem tc_terminates e ctx st :
  storeCached st -> ctxCached ctx st ->
  exists r st',
    r <> Err OutOfFuel
    /\ (forall fuel, (depth e + 2 <= fuel)%nat -> tc fuel e ctx st = (r, st'))
    /\ storeCached st' /\ ctxCached ctx st'.
Proof.
  intros Hs Hc.
  pose proof (tc_fine (depth e + 2) e ctx st Hs Hc ltac:(left; lia)) as H.
  unfold fine in H.
  destruct (tc (depth e + 2) e ctx st) as [r st'] eqn:Hrun.
  exists r, st'.
  assert (Hr : r <> Err OutOfFuel /\ grows st st' /\ storeCached st').
  { destruct r as [t|f]; destruct H as (Hg & Hs' & Hq).
    - split; [discriminate|auto].
    - split; [congruence|auto]. }
  destruct Hr as (Hr & Hg & Hs').
  split; [exact Hr|]. split; [|split; [exact Hs'|eapply ctxCached_grows; eauto]].
  intros fuel Hfuel. eapply tc_fuel_monotone; eauto.
Qed.

(** X24. A run never changes an entry of the cache. Under the condition
    of the termination theorem, and with a bound the run does not reach,
    every node that has a type in the type map before the run has the same
    type after it: the type map is only ever extended. *)
Theorem tc_cache_entries_fixed fuel e ctx st r st' :
  storeCached st -> ctxCached ctx st -> (depth e + 2 <= fuel)%nat ->
  tc fuel e ctx st = (r, st') ->
  forall k t, typeMap st !! k = Some t -> typeMap st' !! k = Some t.
Proof.
  intros Hs Hc Hfuel Hrun.
  pose proof (tc_fine fuel e ctx st Hs Hc ltac:(left; exact Hfuel)) as H.
  unfold fine in H. rewrite Hrun in H.
  destruct r; destruct H as (Hg & _); exact (proj1 Hg).
Qed.

(** X26. A run only narrows function sets. Under the condition of the
    termination theorem, and with a bound the run does not reach, a
    function set of the store before the run is, after it, under the same
    reference, a set whose declarations are all among those it had: a call
    replaces the candidates of its callee by the one it resolved to and
    never adds a candidate to a set. *)
Theorem tc_function_sets_narrow fuel e ctx st r st' :
  storeCached st -> ctxCached ctx st -> (depth e + 2 <= fuel)%nat ->
  tc fuel e ctx st = (r, st') ->
  forall ref f, funSets st !! ref = Some f ->
    exists f', funSets st' !! ref = Some f'
               /\ forall def, In def (definitions f') -> In def (definitions f).
Proof.
  intros Hs Hc Hfuel Hrun ref f Hf.
  pose proof (tc_fine fuel e ctx st Hs Hc ltac:(left; exact Hfuel)) as H.
  unfold fine in H. rewrite Hrun in H.
  assert (Hg : grows st st') by (destruct r; destruct H as (Hg & _); exact Hg).
  destruct (proj2 Hg ref f Hf) as (f' & Hf' & _ & Hi).
  exists f'. split; [exact Hf'|exact Hi].
Qed.

End Termination.

(** ** The fields of a struct *)

Section StructFields.

Context {host : Host}.

Local Abbreviation cached st i t :=
  (mkState (<[i := t]> (typeMap st)) (funSets st) (defSites st)).

(** X25. A field lives where its struct lives. When the base of a member
    access checks to a pointer to a struct in the location [loc], and the
    struct has a member of that name, declared without a location of its
    own, the access has the type of the member specialized to [loc]: the
    ingestion of its type name, with the reference types in it placed in
    the location of the struct. That type is well formed. *)
Theorem tcMemberAccess_struct_field fuel i base member ctx st name sd loc st1
    rawDecl T type :
  typeMap st !! i = None ->
  tc fuel base ctx st
  = (Ok (SPointer (SUserDefinedType name (Some (DefStruct sd))) (Some loc)), st1) ->
  find (fun rawDecl => String.eqb member (vd_name rawDecl)) (sd_vMembers sd)
  = Some rawDecl ->
  vd_vType rawDecl = Some T -> astTypeNameToSType T = Ok type ->
  vd_storageLocation rawDecl = Default ->
  (forall c, locate (vd_scope rawDecl) <> NContract c) ->
  exists t,
    specializeType type loc = Ok t
    /\ wellFormed t = true
    /\ tc (S fuel) (SMemberAccess i base member) ctx st = (Ok t, cached st1 i t).
Proof.
  intros Hnone Hbase Hfind HT Htype Hloc Hscope.
  destruct (proj2 (specializeType_template type loc)
              (astTypeNameToSType_template _ _ Htype)) as [t Ht].
  exists t. split; [exact Ht|]. split; [eapply specializeType_wf; eauto|].
  rewrite (tc_uncached _ (SMemberAccess i base member)) by exact Hnone.
  cbn [tcDispatch]. unfold tcMemberAccess. rewrite (bind_ok _ _ _ _ _ Hbase).
  rewrite Hfind. unfold liftR.
  assert (Hvar : astVarToSType rawDecl (Some loc) = Ok t).
  { destruct rawDecl as [id n vt sl sc vis par]. cbn in HT, Hloc, Hscope.
    subst vt sl. cbn [astVarToSType]. rewrite Htype. cbn [rbind].
    unfold getVarLocation. cbn [vd_storageLocation vd_scope].
    destruct (locate sc) eqn:Hsc; try (exfalso; eapply Hscope; reflexivity);
      cbn [rbind]; exact Ht. }
  rewrite Hvar. reflexivity.
Qed.

End StructFields.

(** ** The sample program: the further properties at work *)

Module SampleRuns.

Import Sample.

#[local] Existing Instance host.

Local Abbreviation after fuel e ctx := (snd (tc fuel e ctx st0)).

Local Abbreviation uint8 := (SIntType 8 false).
Local Abbreviation uint32 := (SIntType 32 false).
Local Abbreviation uint64 := (SIntType 64 false).
Local Abbreviation uint256 := (SIntType 256 false).

(** The state variable [sNestedArr], a [uint8[][]] in storage. *)
Lemma variable_types_wellFormed_witness :
  let v := var 12 "sNestedArr" (ArrayTypeName (ArrayTypeName (elem "uint8") None) None)
             Default 1 in
  let t := SPointer (SArrayType (SPointer (SArrayType uint8 None) (Some Storage)) None)
             (Some Storage) in
  astVarToSType v None = Ok t /\ wellFormed t = true.
Proof.
  intros v t.
  assert (H : astVarToSType v None = Ok t) by (vm_compute; reflexivity).
  split; [exact H|].
  exact (proj2 (variable_types_wellFormed (host := host)) v None t H).
Defined.

(** The type name [mapping(uint256 => bytes)] is ingested to a type that
    specializes. *)
Lemma specializeType_accepts_ingested_witness :
  let T := SMappingType uint256 SBytes in
  @astTypeNameToSType host (Mapping (elem "uint256") (elem "bytes")) = Ok T
  /\ isTemplate T = true
  /\ exists t, specializeType T Memory = Ok t.
Proof.
  intros T.
  assert (H : @astTypeNameToSType host (Mapping (elem "uint256") (elem "bytes")) = Ok T)
    by (vm_compute; reflexivity).
  destruct (specializeType_accepts_ingested (host := host)) as (H1 & H2 & _).
  split; [exact H|]. split; [exact (H2 _ _ H)|].
  apply (proj2 (H1 T Memory)). exact (H2 _ _ H).
Defined.

(** [uint8[]] comes back from the round trip, [uint8[][]] does not. *)
Lemma despecialize_specialize_iff_flat_witness :
  despecializeType (SPointer (SArrayType uint8 None) (Some Memory)) = SArrayType uint8 None
  /\ despecializeType
       (SPointer (SArrayType (SPointer (SArrayType uint8 None) (Some Memory)) None)
          (Some Memory))
     <> SArrayType (SArrayType uint8 None) None.
Proof.
  split.
  - apply (proj2 (despecialize_specialize_iff_flat (SArrayType uint8 None) Memory _
                    Logic.eq_refl)).
    reflexivity.
  - intros H.
    apply (proj1 (despecialize_specialize_iff_flat
                    (SArrayType (SArrayType uint8 None) None) Memory _ Logic.eq_refl))
      in H.
    discriminate H.
Defined.

(** The state variable [sBy], declared without a location. *)
Lemma getVarLocation_concrete_witness :
  let v := var 11 "sBy" (elem "bytes") Default 1 in
  @getVarLocation host v None = Ok Storage /\ Storage <> Default.
Proof.
  intros v.
  destruct (getVarLocation_concrete (host := host) v None ltac:(discriminate))
    as (H1 & _ & H3).
  assert (H : @getVarLocation host v None = Ok Storage)
    by (apply (H3 Foo); reflexivity).
  split; [exact H|]. exact (H1 _ H).
Defined.

(** In [add], the name [add] is its return parameter. *)
Lemma lookupVarDef_sound_witness :
  let v := var 403 "add" (elem "uint64") Default 40 in
  @lookupVarDef host "add" (ctxIn add) = Some (VarDecl v)
  /\ exists scope, In scope (ctxIn add) /\ definedBy "add" (VarDecl v) scope.
Proof.
  intros v.
  assert (H : @lookupVarDef host "add" (ctxIn add) = Some (VarDecl v)) by reflexivity.
  split; [exact H|]. exact (lookupVarDef_sound (host := host) _ _ _ H).
Defined.

(** In [add], which has no parameter called [sV], the name [sV] is the
    state variable of [Foo]. *)
Lemma lookupVarDef_scoping_witness :
  exists def,
    @lookupVarDef host "sV" ([ScopeUnits [unit]] ++ ScopeContract Foo :: [ScopeFunction add])
    = Some def
    /\ definedBy "sV" def (ScopeContract Foo).
Proof.
  assert (Hpass : Forall (passedBy "sV") [ScopeFunction add]).
  { constructor; [|constructor]. split; [|discriminate].
    intros (v & Hin & Hn). simpl in Hin.
    destruct Hin as [[<-|[<-|[]]]|[<-|[]]]; discriminate Hn. }
  destruct (lookupVarDef_scoping (host := host) "sV" [ScopeFunction add] Hpass)
    as (_ & _ & H).
  apply H. exists (var 10 "sV" (elem "uint256") Default 1). split; [|reflexivity].
  exists Foo. split; left; reflexivity.
Defined.

(** In [add], the type name [SFoo] is the struct of [Foo], as it is
    outside of the function. *)
Lemma resolveTypeDef_scopes_witness :
  @resolveTypeDef host (ctxIn add) "SFoo" = Some (DefStruct SFoo)
  /\ ud_name (DefStruct SFoo) = "SFoo"
  /\ @resolveTypeDef host (ctxIn add) "SFoo" = @resolveTypeDef host ctxFoo "SFoo".
Proof.
  assert (H : @resolveTypeDef host (ctxIn add) "SFoo" = Some (DefStruct SFoo))
    by reflexivity.
  destruct (resolveTypeDef_scopes (host := host) (ctxIn add) "SFoo") as [H1 H2].
  split; [exact H|]. split; [exact (proj1 (H1 _ H))|].
  exact (H2 ctxFoo (ScopeFunction add) [] Logic.eq_refl Logic.eq_refl).
Defined.

(** The name [uint8]. *)
Lemma tcIdBuiltinType_detects_witness :
  tcIdBuiltinType "uint8" = Some (SBuiltinTypeNameType uint8)
  /\ exists type,
       SBuiltinTypeNameType uint8 = SBuiltinTypeNameType type
       /\ legalBuiltinType type
       /\ ((forall payable, type <> SAddressType payable) ->
           forall stateMutability,
             @astTypeNameToSType host (ElementaryTypeName "uint8" stateMutability)
             = Ok type).
Proof.
  assert (H : tcIdBuiltinType "uint8" = Some (SBuiltinTypeNameType uint8)) by reflexivity.
  split; [exact H|]. exact (tcIdBuiltinType_detects (host := host) _ _ H).
Defined.

(** [!true] is a boolean, the type of its operand. *)
Lemma tcUnary_type_witness :
  let e := SUnaryOperation 1 "!" (SBooleanLiteral 2 true) in
  tc 2 e ctxFoo st0 = (Ok SBoolType, after 2 e ctxFoo)
  /\ exists st1, tc 1 (SBooleanLiteral 2 true) ctxFoo st0 = (Ok SBoolType, st1).
Proof.
  intros e.
  assert (H : tc 2 e ctxFoo st0 = (Ok SBoolType, after 2 e ctxFoo))
    by (vm_compute; reflexivity).
  split; [exact H|].
  destruct (proj1 (tcUnary_type (host := host) 1 1 "!" (SBooleanLiteral 2 true)
                     ctxFoo st0 Logic.eq_refl) _ _ H) as (st1 & H1 & _).
  exists st1. exact H1.
Defined.

(** [u32a < sV] is a boolean. *)
Lemma tcBinary_type_witness :
  let e := SBinaryOperation 1 (SId 2 "u32a") "<" (SId 3 "sV") in
  tc 2 e ctxFoo st0 = (Ok SBoolType, after 2 e ctxFoo)
  /\ exists lhsT rhsT st1 st2,
       tc 1 (SId 2 "u32a") ctxFoo st0 = (Ok lhsT, st1)
       /\ tc 1 (SId 3 "sV") ctxFoo st1 = (Ok rhsT, st2).
Proof.
  intros e.
  assert (H : tc 2 e ctxFoo st0 = (Ok SBoolType, after 2 e ctxFoo))
    by (vm_compute; reflexivity).
  split; [exact H|].
  destruct (tcBinary_type (host := host) 1 1 (SId 2 "u32a") "<" (SId 3 "sV")
              ctxFoo st0 _ _ Logic.eq_refl H)
    as (lhsT & rhsT & st1 & st2 & H1 & H2 & _).
  exists lhsT, rhsT, st1, st2. split; assumption.
Defined.

(** [u32a + sV], a [uint32] and a [uint256], is a [uint256]. *)
Lemma tcBinary_integers_witness :
  let e := SBinaryOperation 1 (SId 2 "u32a") "+" (SId 3 "sV") in
  fst (tc 2 e ctxFoo st0) = Ok uint256.
Proof.
  intros e.
  assert (Hl : tc 1 (SId 2 "u32a") ctxFoo st0 = (Ok uint32, after 1 (SId 2 "u32a") ctxFoo))
    by (vm_compute; reflexivity).
  assert (Hr : tc 1 (SId 3 "sV") ctxFoo (after 1 (SId 2 "u32a") ctxFoo)
               = (Ok uint256, snd (tc 1 (SId 3 "sV") ctxFoo (after 1 (SId 2 "u32a") ctxFoo))))
    by (vm_compute; reflexivity).
  destruct (tcBinary_integers (host := host) 1 1 (SId 2 "u32a") "+" (SId 3 "sV")
              ctxFoo st0 _ _ _ _ Logic.eq_refl Logic.eq_refl Hl Hr) as [H _].
  exact (f_equal fst (H 32%Z false 256%Z false Logic.eq_refl Logic.eq_refl)).
Defined.

(** [true ? u32a : sV] is a [uint256], the type of its second branch. *)
Lemma tcConditional_type_witness :
  let e := SConditional 1 (SBooleanLiteral 2 true) (SId 3 "u32a") (SId 4 "sV") in
  tc 2 e ctxFoo st0 = (Ok uint256, after 2 e ctxFoo)
  /\ exists trueT falseT, uint256 = trueT \/ uint256 = falseT.
Proof.
  intros e.
  assert (H : tc 2 e ctxFoo st0 = (Ok uint256, after 2 e ctxFoo))
    by (vm_compute; reflexivity).
  split; [exact H|].
  destruct (tcConditional_type (host := host) 1 1 (SBooleanLiteral 2 true)
              (SId 3 "u32a") (SId 4 "sV") ctxFoo st0 _ _ Logic.eq_refl H)
    as (trueT & falseT & _ & _ & _ & _ & _ & _ & _ & Ht).
  exists trueT, falseT. exact Ht.
Defined.

(** [sBy[1]], an index into [bytes], is a [uint8]. *)
Lemma tcIndexAccess_type_witness :
  let e := SIndexAccess 1 (SId 2 "sBy") (SNumber 3 1) in
  tc 2 e ctxFoo st0 = (Ok uint8, after 2 e ctxFoo)
  /\ exists baseT indexT st1 st2,
       tc 1 (SId 2 "sBy") ctxFoo st0 = (Ok baseT, st1)
       /\ tc 1 (SNumber 3 1) ctxFoo st1 = (Ok indexT, st2).
Proof.
  intros e.
  assert (H : tc 2 e ctxFoo st0 = (Ok uint8, after 2 e ctxFoo))
    by (vm_compute; reflexivity).
  split; [exact H|].
  destruct (tcIndexAccess_type (host := host) 1 1 (SId 2 "sBy") (SNumber 3 1)
              ctxFoo st0 _ _ Logic.eq_refl H)
    as (baseT & indexT & st1 & st2 & H1 & H2 & _).
  exists baseT, indexT, st1, st2. split; assumption.
Defined.

(** [let a, b = idPair(1, 2) in b] is a [uint256], the second component of
    the tuple on the right. *)
Lemma tcLet_binding_witness :
  let rhs := SFunctionCall 2 (SId 3 "idPair") [SNumber 4 1; SNumber 5 2] in
  let e := SLet 1 [(6, "a"); (7, "b")] rhs (SId 8 "b") in
  fst (tc 3 rhs ctxFoo st0) = Ok (STupleType [uint256; uint256])
  /\ exists t,
       bindingType [(6, "a"); (7, "b")] (STupleType [uint256; uint256]) 1 = Some t
       /\ fst (tc 5 e ctxFoo st0) = Ok t.
Proof.
  intros rhs e.
  assert (Hrhs : tc 3 rhs ctxFoo st0
                 = (Ok (STupleType [uint256; uint256]), after 3 rhs ctxFoo))
    by (vm_compute; reflexivity).
  split; [exact (f_equal fst Hrhs)|].
  destruct (tcLet_binding (host := host) 3 1 [(6, "a"); (7, "b")] rhs ctxFoo st0 _ _
              Logic.eq_refl Hrhs) as (_ & _ & H).
  destruct (H Logic.eq_refl 8%nat "b" 1%nat 7%nat Logic.eq_refl) as (t & Ht & Hrun).
  - intros j b Hj Hb. destruct j as [|j]; [|lia]. injection Hb as <-. discriminate.
  - discriminate.
  - reflexivity.
  - vm_compute. reflexivity.
  - exists t. split; [exact Ht|]. exact (f_equal fst Hrun).
Defined.

(** [uint256(true)]: the cast has the type named, whatever its argument;
    [SFoo(1)] is a struct in memory. *)
Lemma tcFunctionCall_casts_witness :
  fst (tc 2 (SFunctionCall 1 (SId 2 "uint256") [SBooleanLiteral 3 true]) ctxFoo st0)
  = Ok uint256
  /\ fst (tc 2 (SFunctionCall 1 (SId 2 "SFoo") [SNumber 3 1]) ctxFoo st0)
     = Ok (SPointer (SUserDefinedType "Foo.SFoo" (Some (DefStruct SFoo))) (Some Memory)).
Proof.
  split.
  - assert (Hc : tc 1 (SId 2 "uint256") ctxFoo st0
                 = (Ok (SBuiltinTypeNameType uint256), after 1 (SId 2 "uint256") ctxFoo))
      by (vm_compute; reflexivity).
    destruct (tcFunctionCall_casts (host := host) 1 1 (SId 2 "uint256")
                [SBooleanLiteral 3 true] ctxFoo st0 _ _ Logic.eq_refl Hc) as [H _].
    destruct (H [SBoolType]
                (snd (mapM (fun arg => tc 1 arg ctxFoo) [SBooleanLiteral 3 true]
                        (after 1 (SId 2 "uint256") ctxFoo)))
                ltac:(vm_compute; reflexivity)) as (H1 & _).
    exact (f_equal fst (H1 _ Logic.eq_refl Logic.eq_refl)).
  - assert (Hc : tc 1 (SId 2 "SFoo") ctxFoo st0
                 = (Ok (SUserDefinedTypeNameType (DefStruct SFoo)),
                    after 1 (SId 2 "SFoo") ctxFoo))
      by (vm_compute; reflexivity).
    destruct (tcFunctionCall_casts (host := host) 1 1 (SId 2 "SFoo")
                [SNumber 3 1] ctxFoo st0 _ _ Logic.eq_refl Hc) as [H _].
    destruct (H [SIntLiteralType]
                (snd (mapM (fun arg => tc 1 arg ctxFoo) [SNumber 3 1]
                        (after 1 (SId 2 "SFoo") ctxFoo)))
                ltac:(vm_compute; reflexivity)) as (_ & H2 & _).
    exact (f_equal fst (H2 _ Logic.eq_refl)).
Defined.

(** [gasleft()], a call of a builtin function, is a [uint256]. *)
Lemma tcFunctionCall_function_type_witness :
  fst (tc 2 (SFunctionCall 1 (SId 2 "gasleft") []) ctxFoo st0) = Ok uint256.
Proof.
  assert (Hc : tc 1 (SId 2 "gasleft") ctxFoo st0
               = (Ok (SFunctionType [] [uint256] VisDefault View),
                  after 1 (SId 2 "gasleft") ctxFoo))
    by (vm_compute; reflexivity).
  destruct (tcFunctionCall_function_type (host := host) 1 1 (SId 2 "gasleft") []
              ctxFoo st0 _ [] _ _ _ _ _ Logic.eq_refl Hc Logic.eq_refl) as [H _].
  exact (f_equal fst (H (conj Logic.eq_refl (List.Forall2_nil _)))).
Defined.

(** [add(5, 6)] is a [uint64], the type of the return parameter of [add]. *)
Lemma tcFunctionCall_resolved_witness :
  let e := SFunctionCall 1 (SId 2 "add") [SNumber 3 5; SNumber 4 6] in
  tc 3 e ctxFoo st0 = (Ok uint64, after 3 e ctxFoo)
  /\ wellFormed uint64 = true
  /\ exists def arg, funSets (after 3 e ctxFoo) !! 0%nat = Some (mkFunctionSet [def] arg).
Proof.
  intros e.
  assert (Hc : tc 2 (SId 2 "add") ctxFoo st0
               = (Ok (SFunctionSetType 0), after 2 (SId 2 "add") ctxFoo))
    by (vm_compute; reflexivity).
  assert (H : tc 3 e ctxFoo st0 = (Ok uint64, after 3 e ctxFoo))
    by (vm_compute; reflexivity).
  split; [exact H|].
  destruct (tcFunctionCall_resolved (host := host) 2 1 (SId 2 "add")
              [SNumber 3 5; SNumber 4 6] ctxFoo st0 0 _ _ _ Logic.eq_refl Hc H)
    as (Hwf & def & arg & Hset & _).
  split; [exact Hwf|]. exists def, arg. exact Hset.
Defined.

(** [sFoo.x]: the field [x] of the struct in storage is a [uint256]. *)
Lemma tcMemberAccess_struct_field_witness :
  exists t,
    specializeType uint256 Storage = Ok t
    /\ wellFormed t = true
    /\ fst (tc 2 (SMemberAccess 1 (SId 2 "sFoo") "x") ctxFoo st0) = Ok t.
Proof.
  assert (Hb : tc 1 (SId 2 "sFoo") ctxFoo st0
               = (Ok (SPointer (SUserDefinedType "Foo.SFoo" (Some (DefStruct SFoo)))
                        (Some Storage)),
                  after 1 (SId 2 "sFoo") ctxFoo))
    by (vm_compute; reflexivity).
  destruct (tcMemberAccess_struct_field (host := host) 1 1 (SId 2 "sFoo") "x" ctxFoo st0
              _ _ _ _ (var 21 "x" (elem "uint256") Default 20) (elem "uint256") uint256
              Logic.eq_refl Hb Logic.eq_refl Logic.eq_refl Logic.eq_refl Logic.eq_refl
              ltac:(discriminate)) as (t & H1 & H2 & H3).
  exists t. split; [exact H1|]. split; [exact H2|]. exact (f_equal fst H3).
Defined.

Lemma storeCached_st0 : storeCached st0.
Proof. intros r f a H. unfold st0 in H. cbn in H. rewrite lookup_empty in H. discriminate. Qed.

Lemma ctxCached_ctxFoo st : ctxCached ctxFoo st.
Proof. intros n []. Qed.

(** After [dup] has been looked up, the function set 0 holds the two
    functions [dup]; the call [dup(uint16(1))] narrows it, and the set is
    still there, with no default argument. *)
Lemma tc_keeps_function_sets_witness :
  let st := after 2 (SId 2 "dup") ctxFoo in
  let e := SFunctionCall 1 (SId 2 "dup")
             [SFunctionCall 3 (SId 4 "uint16") [SNumber 5 1]] in
  funSets st !! 0%nat = Some (mkFunctionSet [FSFun dup8; FSFun dup16] None)
  /\ exists f', funSets (snd (tc 4 e ctxFoo st)) !! 0%nat = Some f'
                /\ defaultArg f' = None.
Proof.
  intros st e.
  assert (H : funSets st !! 0%nat = Some (mkFunctionSet [FSFun dup8; FSFun dup16] None))
    by (vm_compute; reflexivity).
  split; [exact H|].
  destruct (tc_keeps_function_sets (host := host) 4 e ctxFoo st
              (fst (tc 4 e ctxFoo st)) (snd (tc 4 e ctxFoo st))
              (surjective_pairing _)) as [H1 _].
  exact (H1 _ _ H).
Defined.

(** A run on the literal with id 1 leaves the entry of node 7 as it is. *)
Lemma tc_footprint_witness :
  let st := after 1 (SNumber 7 1) ctxFoo in
  typeMap (snd (tc 1 (SNumber 1 5) ctxFoo st)) !! 7%nat = typeMap st !! 7%nat.
Proof.
  intros st.
  destruct (tc_footprint (host := host) 1 (SNumber 1 5) ctxFoo st
              (fst (tc 1 (SNumber 1 5) ctxFoo st)) (snd (tc 1 (SNumber 1 5) ctxFoo st))
              (surjective_pairing _)) as [H _].
  apply H. intros [Hk|[(n & [] & _)|(r & f & a & Hf & _)]].
  - simpl in Hk. destruct Hk as [Hk|[]]. discriminate Hk.
  - vm_compute in Hf. discriminate Hf.
Defined.

(** [let x = 1 in nope]: the identifier [nope] is unknown, and unbound in
    the context of the [let]. *)
Lemma tc_unknown_identifier_witness :
  let e := SLet 1 [(2, "x")] (SNumber 3 1) (SId 4 "nope") in
  fst (tc 3 e ctxFoo st0) = Err (SUnknownId (SId 4 "nope"))
  /\ exists i name, SId 4 "nope" = SId i name /\ @lookupVarDef host name ctxFoo = None.
Proof.
  intros e.
  assert (H : tc 3 e ctxFoo st0 = (Err (SUnknownId (SId 4 "nope")), after 3 e ctxFoo))
    by (vm_compute; reflexivity).
  split; [exact (f_equal fst H)|].
  exact (tc_unknown_identifier (host := host) _ _ _ _ _ _ H).
Defined.

(** [1 + 2 * 3] as the parser's helper builds it from a head and a tail of
    two elements, with the counter at 3. *)
Lemma buildBinaryExpression_ids_witness :
  let head := SNumber 0 1 in
  let tail := [(" ", "+", " ", SNumber 1 2); (" ", "*", " ", SNumber 2 3)] in
  let e := fst (buildBinaryExpression head tail 3) in
  e = SBinaryOperation 4 (SBinaryOperation 3 (SNumber 0 1) "+" (SNumber 1 2)) "*"
        (SNumber 2 3)
  /\ NoDup (subIds e)
  /\ ~ In (nodeId e) (properSubIds e).
Proof.
  intros head tail e. split; [reflexivity|].
  destruct (buildBinaryExpression_ids head tail 3) as (H1 & _ & _ & H4).
  - intros k Hk. simpl in Hk. destruct Hk as [<-|[<-|[<-|[]]]]; lia.
  - apply (bool_decide_unpack _). vm_compute. reflexivity.
  - split; [exact H1|exact H4].
Defined.

(** [add(5, 6)] in the context of [Foo], from the empty state: the run
    ends, and ends the same, with the bound 3 and with the bound 100. *)
Lemma tc_terminates_witness :
  let e := SFunctionCall 1 (SId 2 "add") [SNumber 3 5; SNumber 4 6] in
  exists r st',
    r <> Err OutOfFuel
    /\ tc 3 e ctxFoo st0 = (r, st')
    /\ tc 100 e ctxFoo st0 = (r, st').
Proof.
  intros e.
  destruct (tc_terminates (host := host) e ctxFoo st0 storeCached_st0
              (ctxCached_ctxFoo st0)) as (r & st' & Hr & Hrun & _).
  exists r, st'. split; [exact Hr|].
  split; apply Hrun; simpl; lia.
Defined.

(** A run on [1 + 2] whose left operand is already cached leaves its
    entry as it is. *)
Lemma tc_cache_entries_fixed_witness :
  let st := after 1 (SNumber 7 1) ctxFoo in
  let e := SBinaryOperation 1 (SNumber 7 1) "+" (SNumber 2 2) in
  typeMap st !! 7%nat = Some SIntLiteralType
  /\ typeMap (snd (tc 3 e ctxFoo st)) !! 7%nat = Some SIntLiteralType.
Proof.
  intros st e.
  assert (H : typeMap st !! 7%nat = Some SIntLiteralType) by (vm_compute; reflexivity).
  split; [exact H|].
  apply (tc_cache_entries_fixed (host := host) 3 e ctxFoo st
           (fst (tc 3 e ctxFoo st)) (snd (tc 3 e ctxFoo st))).
  - intros r f a Hf. vm_compute in Hf. discriminate Hf.
  - apply ctxCached_ctxFoo.
  - simpl. lia.
  - exact (surjective_pairing _).
  - exact H.
Defined.

(** After [dup] has been looked up, the function set 0 holds the two
    functions [dup]; after the call [dup(uint16(1))] its declarations are
    among these two. *)
Lemma tc_function_sets_narrow_witness :
  let st := after 2 (SId 2 "dup") ctxFoo in
  let e := SFunctionCall 1 (SId 2 "dup")
             [SFunctionCall 3 (SId 4 "uint16") [SNumber 5 1]] in
  funSets st !! 0%nat = Some (mkFunctionSet [FSFun dup8; FSFun dup16] None)
  /\ exists f', funSets (snd (tc 4 e ctxFoo st)) !! 0%nat = Some f'
                /\ forall def, In def (definitions f') ->
                               In def [FSFun dup8; FSFun dup16].
Proof.
  intros st e.
  assert (H : funSets st !! 0%nat = Some (mkFunctionSet [FSFun dup8; FSFun dup16] None))
    by (vm_compute; reflexivity).
  split; [exact H|].
  refine (tc_function_sets_narrow (host := host) 4 e ctxFoo st
            (fst (tc 4 e ctxFoo st)) (snd (tc 4 e ctxFoo st))
            _ _ _ (surjective_pairing _) 0%nat
            (mkFunctionSet [FSFun dup8; FSFun dup16] None) H).
  - assert (Hst : funSets st
                    = {[ 0%nat := mkFunctionSet [FSFun dup8; FSFun dup16] None ]})
      by (vm_compute; reflexivity).
    intros r f a Hf Ha. rewrite Hst in Hf.
    apply lookup_singleton_Some in Hf as [_ <-]. discriminate Ha.
  - apply ctxCached_ctxFoo.
  - simpl. lia.
Defined.

End SampleRuns.
